(** * elara.factory: the WorkStation / Tool dependency engine

    A shallow embedding of [src/elara/factory.py]: the requirement algebra
    ([combine_reqs], [convert_to_unique_keys], [list_equals], [equals]),
    the [Tool] base class, the [WorkStation] base class and the graph
    driver ([is_cyclic], [is_broken], [build_graph_depth], [build]).

    Conventions of the embedding.
    - A Python [str] is a [string]; strings are ordered as Python orders
      them, lexicographically by character code.
    - A tool option is [None] or a [str]: [option string].
    - A Python [dict] is an association list in insertion order with
      pairwise distinct keys; assigning to a key that is present keeps
      its position, assigning to a new key appends.
    - A Python [set] is known by the sequence of insertions that built
      it; the order in which it is iterated is not fixed by the language,
      so it is a parameter ([SetIter]) of which only the set-hood is
      known.
    - A raised exception is a [Raise] result.
    - WorkStation objects live in a store and are referred to by their
      index, which stands for object identity. *)

From Stdlib Require Import List String Ascii Bool Arith Lia Permutation Relations
  Sorted.
Import ListNotations.
Local Open Scope string_scope.
Local Open Scope nat_scope.
Local Open Scope list_scope.

(** ** Exceptions and results *)

Inductive exn : Type :=
| TypeError
| KeyError (k : string)
| MissingRequirement (key : string)          (* ValueError in Tool.build *)
| MissingRequirements (names : list string)  (* ValueError in validate_suppliers *)
| UnsupportedOption (o : option string)      (* UserWarning, valid_options *)
| InvalidOption (o : option string)          (* UserWarning, invalid_options *)
| CyclicDependency (at_node : nat)           (* UserWarning in build *)
| BrokenDependency (at_node : nat).          (* UserWarning in build *)

Inductive result (A : Type) : Type :=
| Ok (a : A)
| Raise (e : exn).
Arguments Ok {A} a.
Arguments Raise {A} e.

Definition bind {A B} (r : result A) (k : A -> result B) : result B :=
  match r with
  | Ok a => k a
  | Raise e => Raise e
  end.

Notation "x <- r ;; k" := (bind r (fun x => k))
  (at level 61, r at next level, right associativity).

(** A [for] loop whose body may raise. *)
Fixpoint for_each {A S} (body : S -> A -> result S) (l : list A) (s : S)
  : result S :=
  match l with
  | [] => Ok s
  | a :: l' => s' <- body s a ;; for_each body l' s'
  end.

(** ** Strings *)

(** [str(option)]. *)
Definition py_str (o : option string) : string :=
  match o with
  | Some s => s
  | None => "None"
  end.

(** [a <= b] on [str]. *)
Fixpoint str_le (a b : string) : bool :=
  match a, b with
  | EmptyString, _ => true
  | String _ _, EmptyString => false
  | String x a', String y b' =>
      if (nat_of_ascii x <? nat_of_ascii y)%nat then true
      else if (nat_of_ascii y <? nat_of_ascii x)%nat then false
      else str_le a' b'
  end.

Fixpoint insert_sorted (x : string) (l : list string) : list string :=
  match l with
  | [] => [x]
  | h :: t => if str_le x h then x :: h :: t else h :: insert_sorted x t
  end.

Definition sort_strs (l : list string) : list string :=
  fold_right insert_sorted [] l.

Definition is_str (o : option string) : bool :=
  match o with Some _ => true | None => false end.

Definition strs_of (l : list (option string)) : list string :=
  flat_map (fun o => match o with Some s => [s] | None => [] end) l.

(** [sorted(l)] for a list of options.  Sorting compares elements with
    [<], which raises [TypeError] as soon as a [None] is compared; a list
    of fewer than two elements is returned without any comparison. *)
Definition py_sorted (l : list (option string)) : result (list (option string)) :=
  match l with
  | [] => Ok []
  | [x] => Ok [x]
  | _ => if forallb is_str l then Ok (map Some (sort_strs (strs_of l)))
         else Raise TypeError
  end.

Definition opt_eqb (a b : option string) : bool :=
  match a, b with
  | None, None => true
  | Some x, Some y => String.eqb x y
  | _, _ => false
  end.

Fixpoint list_eqb (l1 l2 : list (option string)) : bool :=
  match l1, l2 with
  | [], [] => true
  | x :: l1', y :: l2' => opt_eqb x y && list_eqb l1' l2'
  | _, _ => false
  end.

(** ** Dictionaries *)

Definition dict (V : Type) : Type := list (string * V).

Definition dict_keys {V} (d : dict V) : list string := map fst d.

Fixpoint dict_get {V} (d : dict V) (k : string) : option V :=
  match d with
  | [] => None
  | (k', v) :: d' => if String.eqb k' k then Some v else dict_get d' k
  end.

(** [d[k] = v]. *)
Fixpoint dict_set {V} (k : string) (v : V) (d : dict V) : dict V :=
  match d with
  | [] => [(k, v)]
  | (k', v') :: d' =>
      if String.eqb k' k then (k', v) :: d' else (k', v') :: dict_set k v d'
  end.

(** [d.update(other)]. *)
Definition dict_update {V} (d other : dict V) : dict V :=
  fold_left (fun acc kv => dict_set (fst kv) (snd kv) acc) other d.

(** [k in list(d)]. *)
Definition dict_mem {V} (k : string) (d : dict V) : bool :=
  existsb (String.eqb k) (dict_keys d).

(** ** Sets *)

(** A set is represented by the sequence of elements inserted into it.
    [set_iter] is the order in which the interpreter iterates over the
    set built by those insertions: every inserted element exactly once. *)
Class SetIter (A : Type) : Type := {
  set_iter : list A -> list A;
  set_iter_NoDup : forall l, NoDup (set_iter l);
  set_iter_In : forall l x, In x (set_iter l) <-> In x l
}.

(** ** Requirement sets *)

(** [{name: None | [option, ...]}] *)
Definition Reqs : Type := dict (option (list (option string))).

(** Truthiness of [None | dict] and of [None | list]. *)
Definition truthy {A} (x : option (list A)) : bool :=
  match x with
  | Some (_ :: _) => true
  | _ => false
  end.

Definition nonempty {A} (l : list A) : bool :=
  match l with
  | [] => false
  | _ :: _ => true
  end.

(** [req.get(tool)]: [None] when the key is missing. *)
Definition req_get (req : Reqs) (tool : string) : option (list (option string)) :=
  match dict_get req tool with
  | Some v => v
  | None => None
  end.

Section RequirementAlgebra.
Context {names : SetIter string} {opts : SetIter (option string)}.

(** The insertions into [tool_set]. *)
Definition tool_set_of (reqs : list (option Reqs)) : list string :=
  fold_left
    (fun tool_set req =>
       match req with
       | Some ((_ :: _) as r) => tool_set ++ dict_keys r
       | _ => tool_set
       end) reqs [].

(** The insertions into [options] for one [tool]. *)
Definition options_of (reqs : list (option Reqs)) (tool : string)
  : list (option string) :=
  fold_left
    (fun options req =>
       match req with
       | Some ((_ :: _) as r) =>
           match req_get r tool with
           | Some ((_ :: _) as l) => options ++ l
           | _ => options
           end
       | _ => options
       end) reqs [].

Definition combine_reqs (reqs : list (option Reqs)) : Reqs :=
  match reqs with
  | [] => []
  | _ :: _ =>
      let tool_set := tool_set_of reqs in
      fold_left
        (fun combined_reqs tool =>
           if nonempty tool_set then
             let options := options_of reqs tool in
             if nonempty options
             then dict_set tool (Some (set_iter options)) combined_reqs
             else dict_set tool None combined_reqs
           else combined_reqs)
        (set_iter tool_set) []
  end.

End RequirementAlgebra.

(** [f'{name}:{option}'], also [str(name) + ':' + str(option)]. *)
Definition option_key (name : string) (o : option string) : string :=
  (name ++ ":" ++ py_str o)%string.

Definition convert_to_unique_keys (d : option Reqs) : list string :=
  match d with
  | Some ((_ :: _) as r) =>
      fold_left
        (fun keys entry =>
           match snd entry with
           | Some ((_ :: _) as options) =>
               fold_left
                 (fun keys o => keys ++ [option_key (fst entry) o])
                 options keys
           | _ => keys ++ [fst entry]
           end) r []
  | _ => []
  end.

Definition list_equals (l1 l2 : option (list (option string))) : result bool :=
  match l1 with
  | None =>
      match l2 with
      | None => Ok true
      | Some _ => Ok false
      end
  | Some a =>
      match l2 with
      | None => Raise TypeError            (* len(None) *)
      | Some b =>
          if negb (List.length a =? List.length b)%nat then Ok false
          else
            sa <- py_sorted a ;;
            sb <- py_sorted b ;;
            if negb (list_eqb sa sb) then Ok false else Ok true
      end
  end.

(** [d2[k]] *)
Definition dict_item {V} (d : dict V) (k : string) : result V :=
  match dict_get d k with
  | Some v => Ok v
  | None => Raise (KeyError k)
  end.

Fixpoint equals_items (items : Reqs) (d2 : Reqs) : result bool :=
  match items with
  | [] => Ok true
  | (d1k, d1v) :: rest =>
      d2v <- dict_item d2 d1k ;;
      b <- list_equals d1v d2v ;;
      if negb b then Ok false else equals_items rest d2
  end.

Definition equals (d1 d2 : Reqs) : result bool :=
  b <- list_equals (Some (map Some (dict_keys d1)))
                   (Some (map Some (dict_keys d2))) ;;
  if negb b then Ok false else equals_items d1 d2.

(** ** Tool *)

Module Tool.

(** The class-level attributes of a [Tool] subclass. *)
Record class : Type := Class {
  requirements : list string;
  options_enabled : bool;
  valid_options : option (list (option string));
  invalid_options : option (list (option string))
}.

(** A tool instance.  [resources] holds the pool given to [build]; the
    pool is kept by value, as it stands when [build] stores it. *)
#[local] Unset Elimination Schemes.
Inductive t : Type := Inst {
  cls : class;
  option_ : option string;
  resources : list (string * t)
}.
#[local] Set Elimination Schemes.

Definition option_in (o : option string) (l : list (option string)) : bool :=
  existsb (opt_eqb o) l.

Definition _validate_option (c : class) (o : option string)
  : result (option string) :=
  _ <- match valid_options c with
       | Some ((_ :: _) as l) =>
           if negb (option_in o l) then Raise (UnsupportedOption o)
           else Ok tt
       | _ => Ok tt
       end ;;
  _ <- match invalid_options c with
       | Some ((_ :: _) as l) =>
           if option_in o l then Raise (InvalidOption o)
           else Ok tt
       | _ => Ok tt
       end ;;
  Ok o.

(** [tool(config, option)]; the configuration object is only stored
    and is left out. *)
Definition __init__ (c : class) (o : option string) : result t :=
  o' <- _validate_option c o ;;
  Ok (Inst c o' []).

Definition get_requirements (self : t) : option Reqs :=
  match requirements (cls self) with
  | [] => None
  | (_ :: _) as reqs =>
      if options_enabled (cls self)
      then Some (fold_left (fun d req => dict_set req (Some [option_ self]) d)
                           reqs [])
      else Some (fold_left (fun d req => dict_set req None d) reqs [])
  end.

Definition build (self : t) (resource : dict t) : result t :=
  _ <- for_each
         (fun (_ : unit) requirement =>
            if negb (dict_mem requirement resource)
            then Raise (MissingRequirement requirement)
            else Ok tt)
         (convert_to_unique_keys (get_requirements self)) tt ;;
  Ok (Inst (cls self) (option_ self) resource).

End Tool.

(** ** WorkStation *)

Module WorkStation.

Record t : Type := Station {
  depth : nat;
  tools : dict Tool.class;
  resources : dict Tool.t;
  requirements : Reqs;
  managers : option (list nat);
  suppliers : option (list nat);
  supplier_resources : dict Tool.t
}.

(** A freshly constructed station of a class with the given tools. *)
Definition __init__ (tools : dict Tool.class) : t :=
  Station 0 tools [] [] None None [].

Definition connect (self : t) (managers suppliers : option (list nat)) : t :=
  Station (depth self) (tools self) (resources self) (requirements self)
          managers suppliers (supplier_resources self).

Definition set_depth (self : t) (d : nat) : t :=
  Station d (tools self) (resources self) (requirements self)
          (managers self) (suppliers self) (supplier_resources self).

Definition set_resources (self : t) (r : dict Tool.t) : t :=
  Station (depth self) (tools self) r (requirements self)
          (managers self) (suppliers self) (supplier_resources self).

Definition set_requirements (self : t) (r : Reqs) : t :=
  Station (depth self) (tools self) (resources self) r
          (managers self) (suppliers self) (supplier_resources self).

Definition set_supplier_resources (self : t) (r : dict Tool.t) : t :=
  Station (depth self) (tools self) (resources self) (requirements self)
          (managers self) (suppliers self) r.

End WorkStation.

(** The object store: the stations of a graph, referred to by index. *)
Definition store : Type := list WorkStation.t.

Definition station (g : store) (i : nat) : WorkStation.t :=
  nth i g (WorkStation.__init__ []).

Fixpoint put (g : store) (i : nat) (w : WorkStation.t) : store :=
  match g, i with
  | [], _ => []
  | _ :: g', 0 => w :: g'
  | x :: g', S i' => x :: put g' i' w
  end.

(** Membership in a list or set of station references. *)
Definition mem (i : nat) (l : list nat) : bool := existsb (Nat.eqb i) l.

(** The list behind [None | list], for a loop guarded by its truthiness. *)
Definition items {A} (x : option (list A)) : list A :=
  match x with
  | Some l => l
  | None => []
  end.

Section Engine.
Context {names : SetIter string} {opts : SetIter (option string)}.

Definition gather_manager_requirements (g : store) (self : nat) : Reqs :=
  combine_reqs
    (fold_left (fun reqs manager =>
                  reqs ++ [Some (WorkStation.requirements (station g manager))])
               (items (WorkStation.managers (station g self))) []).

(** One instantiation in [engage]: [self.resources[key] = tool(...)]
    followed by the append to [all_requirements]. *)
Definition instantiate (tool : Tool.class) (key : string)
           (o : option string)
           (acc : dict Tool.t * list (option Reqs))
  : result (dict Tool.t * list (option Reqs)) :=
  inst <- Tool.__init__ tool o ;;
  Ok (dict_set key inst (fst acc),
      snd acc ++ [Tool.get_requirements inst]).

(** The tool loop of [engage]. *)
Definition engage_tools (tools : dict Tool.class) (manager_requirements : Reqs)
           (acc : dict Tool.t * list (option Reqs))
  : result (dict Tool.t * list (option Reqs)) :=
  for_each
    (fun acc tool_entry =>
       for_each
         (fun acc req_entry =>
            if String.eqb (fst req_entry) (fst tool_entry) then
              match snd req_entry with
              | Some ((_ :: _) as options) =>
                  for_each
                    (fun acc o =>
                       instantiate (snd tool_entry)
                                   (option_key (fst tool_entry) o)
                                   o acc)
                    options acc
              | _ =>
                  instantiate (snd tool_entry) (fst tool_entry) None acc
              end
            else Ok acc)
         manager_requirements acc)
    tools acc.

(** The clean-up loop of [engage].  The loop runs over the items of the
    requirements while assigning [None] to the key it is at. *)
Definition clean_options (g : store) (suppliers : option (list nat))
           (requirements : Reqs) : Reqs :=
  fold_left
    (fun reqs entry =>
       if truthy suppliers && truthy (snd entry) then
         fold_left
           (fun reqs s =>
              fold_left
                (fun reqs tool_entry =>
                   if String.eqb (fst entry) (fst tool_entry)
                      && negb (Tool.options_enabled (snd tool_entry))
                   then dict_set (fst tool_entry) None reqs
                   else reqs)
                (WorkStation.tools (station g s)) reqs)
           (items suppliers) reqs
       else reqs)
    requirements requirements.

Definition engage (g : store) (self : nat) : result store :=
  let ws := station g self in
  let manager_requirements := gather_manager_requirements g self in
  match WorkStation.tools ws with
  | [] => Ok (put g self (WorkStation.set_requirements ws manager_requirements))
  | (_ :: _) as tools =>
      acc <- engage_tools tools manager_requirements
                          (WorkStation.resources ws, []) ;;
      let requirements := combine_reqs (snd acc) in
      Ok (put g self
              (WorkStation.set_requirements
                 (WorkStation.set_resources ws (fst acc))
                 (clean_options g (WorkStation.suppliers ws) requirements)))
  end.

Definition validate_suppliers (g : store) (self : nat) : result unit :=
  let ws := station g self in
  let supplier_tools :=
    fold_left
      (fun supplier_tools supplier =>
         dict_update supplier_tools (WorkStation.tools (station g supplier)))
      (items (WorkStation.suppliers ws)) [] in
  let missing :=
    filter (fun name => negb (dict_mem name supplier_tools))
           (dict_keys (WorkStation.requirements ws)) in
  if nonempty missing then Raise (MissingRequirements missing) else Ok tt.

(** [WorkStation.build]: gather the suppliers' resources, then build
    every own resource against them. *)
Definition WorkStation_build (g : store) (self : nat) : result store :=
  let ws := station g self in
  let supplier_resources :=
    fold_left
      (fun pool supplier =>
         dict_update pool (WorkStation.resources (station g supplier)))
      (items (WorkStation.suppliers ws))
      (WorkStation.supplier_resources ws) in
  resources <-
    for_each
      (fun resources entry =>
         tool <- Tool.build (snd entry) supplier_resources ;;
         Ok (dict_set (fst entry) tool resources))
      (WorkStation.resources ws) (WorkStation.resources ws) ;;
  Ok (put g self
          (WorkStation.set_resources
             (WorkStation.set_supplier_resources ws supplier_resources)
             resources)).

End Engine.

(** ** Graph validation *)

(** What the inner [visit] of [is_cyclic] returns: [False] on a vertex
    seen before, a station when a cycle was met below, and [None] when
    the function body ends without [return]. *)
Inductive visited_result : Type :=
| RFalse
| RNone
| RStation (w : nat).

Definition is_true (r : visited_result) : bool :=
  match r with
  | RStation _ => true
  | _ => false
  end.

(** The sets [path] and [visited] of [is_cyclic]. *)
Record marks : Type := Marks {
  path : list nat;
  visited : list nat
}.

Definition set_add (i : nat) (s : list nat) : list nat :=
  if mem i s then s else i :: s.

Definition set_remove (i : nat) (s : list nat) : list nat :=
  filter (fun j => negb (Nat.eqb i j)) s.

(** [for supplier in vertex.suppliers: if supplier in path or
    visit(supplier): return supplier], then [path.remove(vertex)]. *)
Fixpoint cyclic_suppliers (visit : nat -> marks -> option (visited_result * marks))
         (vertex : nat) (suppliers : list nat) (m : marks)
  : option (visited_result * marks) :=
  match suppliers with
  | [] => Some (RNone, Marks (set_remove vertex (path m)) (visited m))
  | supplier :: rest =>
      if mem supplier (path m) then Some (RStation supplier, m)
      else
        match visit supplier m with
        | None => None
        | Some (r, m') =>
            if is_true r then Some (RStation supplier, m')
            else cyclic_suppliers visit vertex rest m'
        end
  end.

(** The inner [visit] of [is_cyclic]; [None] when the recursion is
    deeper than [fuel]. *)
Fixpoint cyclic_visit (fuel : nat) (g : store) (vertex : nat) (m : marks)
  : option (visited_result * marks) :=
  match fuel with
  | 0 => None
  | S fuel' =>
      if mem vertex (visited m) then Some (RFalse, m)
      else
        let m1 := Marks (set_add vertex (path m)) (set_add vertex (visited m)) in
        cyclic_suppliers (cyclic_visit fuel' g) vertex
                         (items (WorkStation.suppliers (station g vertex))) m1
  end.

(** Recursion in the graph walks is bounded by the number of stations. *)
Definition depth_bound (g : store) : nat := 2 + List.length g.

Definition is_cyclic (g : store) (start : nat) : option visited_result :=
  match cyclic_visit (depth_bound g) g start (Marks [] []) with
  | Some (r, _) => Some r
  | None => None
  end.

Definition broken_link (g : store) (manager supplier : nat) : bool :=
  match WorkStation.managers (station g supplier) with
  | Some ((_ :: _) as ms) => negb (mem manager ms)
  | _ => true
  end.

(** The supplier loop of the inner [visit] of [is_broken]; the result is
    the returned station, or [None]. *)
Fixpoint broken_suppliers (visit : nat -> list nat -> option (option nat * list nat))
         (g : store) (vertex : nat) (suppliers : list nat) (visited : list nat)
  : option (option nat * list nat) :=
  match suppliers with
  | [] => Some (None, visited)
  | supplier :: rest =>
      if mem supplier visited then broken_suppliers visit g vertex rest visited
      else if broken_link g vertex supplier then Some (Some supplier, visited)
      else
        match visit supplier visited with
        | None => None
        | Some (Some _, visited') => Some (Some supplier, visited')
        | Some (None, visited') => broken_suppliers visit g vertex rest visited'
        end
  end.

Fixpoint broken_visit (fuel : nat) (g : store) (vertex : nat) (visited : list nat)
  : option (option nat * list nat) :=
  match fuel with
  | 0 => None
  | S fuel' =>
      broken_suppliers (broken_visit fuel' g) g vertex
                       (items (WorkStation.suppliers (station g vertex)))
                       (set_add vertex visited)
  end.

Definition is_broken (g : store) (start : nat) : option (option nat) :=
  match broken_visit (depth_bound g) g start [] with
  | Some (r, _) => Some r
  | None => None
  end.

(** ** Depth and traversal order *)

(** [build_graph_depth]: the state is the store (the depths) and the
    shared [visited] list. *)
Fixpoint depth_suppliers (rec : nat -> nat -> store * list nat -> option (store * list nat))
         (depth : nat) (suppliers : list nat) (s : store * list nat)
  : option (store * list nat) :=
  match suppliers with
  | [] => Some s
  | supplier :: rest =>
      let g := fst s in
      let g1 :=
        if WorkStation.depth (station g supplier) <? depth
        then put g supplier (WorkStation.set_depth (station g supplier) depth)
        else g in
      match rec supplier depth (g1, snd s) with
      | None => None
      | Some s' => depth_suppliers rec depth rest s'
      end
  end.

Fixpoint build_graph_depth (fuel : nat) (node : nat) (depth : nat)
         (s : store * list nat) : option (store * list nat) :=
  match fuel with
  | 0 => None
  | S fuel' =>
      let s1 := (fst s, snd s ++ [node]) in
      match WorkStation.suppliers (station (fst s) node) with
      | Some ((_ :: _) as suppliers) =>
          depth_suppliers (build_graph_depth fuel') (depth + 1) suppliers s1
      | _ => Some s1
      end
  end.

(** [sorted(candidates, key=lambda x: x.depth)]: stable. *)
Fixpoint insert_by_depth (g : store) (x : nat) (l : list nat) : list nat :=
  match l with
  | [] => [x]
  | y :: l' =>
      if WorkStation.depth (station g x) <=? WorkStation.depth (station g y)
      then x :: y :: l'
      else y :: insert_by_depth g x l'
  end.

Definition order_by_distance (g : store) (candidates : list nat) : list nat :=
  fold_right (insert_by_depth g) [] candidates.

(** ** The driver *)

Section Driver.
Context {names : SetIter string} {opts : SetIter (option string)}.

(** Stage 1. *)
Definition validate (g : store) (start_node : nat) : option (result store) :=
  match is_cyclic g start_node with
  | None => None
  | Some (RStation w) => Some (Raise (CyclicDependency w))
  | Some _ =>
      match is_broken g start_node with
      | None => None
      | Some (Some w) => Some (Raise (BrokenDependency w))
      | Some None =>
          match build_graph_depth (depth_bound g) start_node 0 (g, []) with
          | None => None
          | Some s => Some (Ok (fst s))
          end
      end
  end.

(** Stage 2: the [while queue] loop; the state is the store, the queue
    and the visit list. *)
Fixpoint engage_pass (fuel : nat) (g : store) (queue visited : list nat)
  : option (result (store * list nat)) :=
  match queue with
  | [] => Some (Ok (g, visited))
  | current :: queue' =>
      match fuel with
      | 0 => None
      | S fuel' =>
          match engage g current with
          | Raise e => Some (Raise e)
          | Ok g1 =>
              match WorkStation.suppliers (station g1 current) with
              | Some ((_ :: _) as suppliers) =>
                  match validate_suppliers g1 current with
                  | Raise e => Some (Raise e)
                  | Ok _ =>
                      let qv :=
                        fold_left
                          (fun qv supplier =>
                             if negb (mem supplier (snd qv))
                             then (fst qv ++ [supplier], snd qv ++ [supplier])
                             else qv)
                          (order_by_distance g1 suppliers) (queue', visited) in
                      engage_pass fuel' g1 (fst qv) (snd qv)
                  end
              | _ => engage_pass fuel' g1 queue' visited
              end
          end
      end
  end.

(** Stage 3: the [while return_queue] loop. *)
Definition build_pass (g : store) (return_queue : list nat)
  : result (store * list nat) :=
  for_each
    (fun s current =>
       g' <- WorkStation_build (fst s) current ;;
       Ok (g', snd s ++ [current]))
    return_queue (g, []).

Definition build (g : store) (start_node : nat)
  : option (result (list nat * store)) :=
  match validate g start_node with
  | None => None
  | Some (Raise e) => Some (Raise e)
  | Some (Ok g1) =>
      match engage_pass (depth_bound g1) g1 [start_node] [start_node] with
      | None => None
      | Some (Raise e) => Some (Raise e)
      | Some (Ok (g2, sequence)) =>
          Some (s <- build_pass g2 (rev sequence) ;;
                Ok (sequence ++ snd s, fst s))
      end
  end.

End Driver.

(** ** One iteration order: every set iterated in the order of the last
    insertion of each element. *)

Definition option_string_dec (a b : option string) : {a = b} + {a <> b}.
Proof. decide equality. apply string_dec. Defined.

#[export] Instance names_by_insertion : SetIter string :=
  {| set_iter := nodup string_dec;
     set_iter_NoDup := NoDup_nodup string_dec;
     set_iter_In := fun l x => nodup_In string_dec l x |}.

#[export] Instance options_by_insertion : SetIter (option string) :=
  {| set_iter := nodup option_string_dec;
     set_iter_NoDup := NoDup_nodup option_string_dec;
     set_iter_In := fun l x => nodup_In option_string_dec l x |}.

(** ** The three-station chain Root -> Mid -> Leaf, with a seeded
    manager above Root. *)

Module Chain.

Definition csv : Tool.class := Tool.Class ["raw"] true None None.
Definition raw : Tool.class := Tool.Class [] false None None.

Definition Seed : nat := 0.
Definition Root : nat := 1.
Definition Mid : nat := 2.
Definition Leaf : nat := 3.

(** The manager that carries the demand [{"csv": ["car"]}]. *)
Definition seed : WorkStation.t :=
  WorkStation.set_requirements (WorkStation.__init__ [])
                               [("csv", Some [Some "car"])].

Definition root : WorkStation.t :=
  WorkStation.connect (WorkStation.__init__ []) (Some [Seed]) (Some [Mid]).

Definition mid : WorkStation.t :=
  WorkStation.connect (WorkStation.__init__ [("csv", csv)])
                      (Some [Root]) (Some [Leaf]).

Definition leaf : WorkStation.t :=
  WorkStation.connect (WorkStation.__init__ [("raw", raw)]) (Some [Mid]) None.

Definition graph : store := [seed; root; mid; leaf].

(** The chain after stage 1: the depths are set. *)
Definition validated : store :=
  [seed; root; WorkStation.set_depth mid 1; WorkStation.set_depth leaf 2].

(** The chain once Root holds the seeded demand. *)
Definition demanding : store :=
  put graph Root
      (WorkStation.set_requirements root [("csv", Some [Some "car"])]).

(** The chain after stage 2. *)
Definition engaged : store :=
  [seed;
   WorkStation.set_requirements root [("csv", Some [Some "car"])];
   WorkStation.set_requirements
     (WorkStation.set_resources (WorkStation.set_depth mid 1)
                                [("csv:car", Tool.Inst csv (Some "car") [])])
     [("raw", None)];
   WorkStation.set_requirements
     (WorkStation.set_resources (WorkStation.set_depth leaf 2)
                                [("raw", Tool.Inst raw None [])])
     []].

End Chain.

(** ** A graph with a cycle below the start: Root -> A -> B -> C -> B *)

Module Cycle.

Definition Root : nat := 0.
Definition A : nat := 1.
Definition B : nat := 2.
Definition C : nat := 3.

Definition graph : store :=
  [ WorkStation.connect (WorkStation.__init__ []) None (Some [A]);
    WorkStation.connect (WorkStation.__init__ []) (Some [Root]) (Some [B]);
    WorkStation.connect (WorkStation.__init__ []) (Some [A; C]) (Some [C]);
    WorkStation.connect (WorkStation.__init__ []) (Some [B]) (Some [B]) ].

End Cycle.

(** ** Graphs with a one-sided edge *)

Module Broken.

Definition Root : nat := 0.
Definition A : nat := 1.
Definition B : nat := 2.

(** Root -> A -> B, where B does not list A as a manager. *)
Definition deep : store :=
  [ WorkStation.connect (WorkStation.__init__ []) None (Some [A]);
    WorkStation.connect (WorkStation.__init__ []) (Some [Root]) (Some [B]);
    WorkStation.connect (WorkStation.__init__ []) None None ].

(** Root -> A, Root -> B, B -> A, where A lists Root only. *)
Definition shared : store :=
  [ WorkStation.connect (WorkStation.__init__ []) None (Some [A; B]);
    WorkStation.connect (WorkStation.__init__ []) (Some [Root]) None;
    WorkStation.connect (WorkStation.__init__ []) (Some [Root]) (Some [A]) ].

End Broken.

(** ** [WorkStation.load_all_tools] *)

(** The outcome of [load_all_tools]: the resources, an exception of a
    tool constructor, or the [IndexError] of [valid_options[0]] on an
    empty list. *)
Inductive load_result : Type :=
| Loaded (resources : dict Tool.t)
| ToolRaised (e : exn)
| IndexError.

(** The loop of [load_all_tools]; [option] is the loop variable that the
    body may assign. *)
Fixpoint load_tools (tools : dict Tool.class) (option_ : option string)
         (resources : dict Tool.t) : load_result :=
  match tools with
  | [] => Loaded resources
  | (name, tool) :: rest =>
      let picked :=
        match option_, Tool.valid_options tool with
        | None, Some [] => None
        | None, Some (first :: _) => Some first
        | _, _ => Some option_
        end in
      match picked with
      | None => IndexError
      | Some o =>
          match Tool.__init__ tool o with
          | Raise e => ToolRaised e
          | Ok inst => load_tools rest o (dict_set name inst resources)
          end
      end
  end.

Definition load_all_tools (self : WorkStation.t) (option_ : option string)
  : load_result :=
  load_tools (WorkStation.tools self) option_ (WorkStation.resources self).

(** ** ChunkWriter *)

(** The writer and the file at its path.  A line is a row of the table;
    the file is the list of its rows with their index.  [to_csv(path)]
    replaces the file by the rows of the frame, [to_csv(path,
    header=None, mode="a")] appends them. *)
Module ChunkWriter.

Section Lines.
Context {Line : Type}.

Record t : Type := Writer {
  chunksize : nat;
  chunk : list Line;
  idx : nat
}.

Definition __init__ (chunksize : nat) : t := Writer chunksize [] 0.

(** [pd.DataFrame(chunk, index=range(idx, idx + len(chunk)))]. *)
Definition frame (self : t) : list (nat * Line) :=
  combine (seq (idx self) (List.length (chunk self))) (chunk self).

Definition write (s : t * list (nat * Line)) : t * list (nat * Line) :=
  let self := fst s in
  let chunk_df := frame self in
  if idx self =? 0
  then (Writer (chunksize self) [] (idx self + List.length (chunk self)),
        chunk_df)
  else (Writer (chunksize self) [] (idx self + List.length (chunk self)),
        snd s ++ chunk_df).

Definition add (lines : list Line) (s : t * list (nat * Line))
  : t * list (nat * Line) :=
  let self := Writer (chunksize (fst s)) (chunk (fst s) ++ lines) (idx (fst s)) in
  if chunksize self <? List.length (chunk self)
  then write (self, snd s)
  else (self, snd s).

Definition finish (s : t * list (nat * Line)) : t * list (nat * Line) :=
  write s.

(** A run of the writer: the batches are added one by one, then the
    writer is finished. *)
Definition run (chunksize : nat) (batches : list (list Line))
           (file : list (nat * Line)) : t * list (nat * Line) :=
  finish (fold_left (fun s lines => add lines s) batches (__init__ chunksize, file)).

End Lines.

End ChunkWriter.

(** ** Vocabulary of the properties *)

(** A list that [sorted] accepts: no comparison is made, or every
    comparison is between two strings. *)
Definition sortable (l : list (option string)) : Prop :=
  List.length l <= 1 \/ forallb is_str l = true.

(** [name] is a key of some input of [combine_reqs]. *)
Definition names_of (reqs : list (option Reqs)) (name : string) : Prop :=
  exists r, In (Some r) reqs /\ In name (dict_keys r).

(** Option [o] is contributed for [name]: some input maps [name] to a
    list that holds [o].  An input without the key, or with [None] for
    it, contributes nothing. *)
Definition contributes (reqs : list (option Reqs)) (name : string)
           (o : option string) : Prop :=
  exists r l, In (Some r) reqs /\ req_get r name = Some l /\ In o l.

(** Two entries of requirement sets that hold the same options: both
    [None], or two lists with the same elements. *)
Definition same_option_set (v1 v2 : option (list (option string))) : Prop :=
  match v1, v2 with
  | None, None => True
  | Some l1, Some l2 => forall o, In o l1 <-> In o l2
  | _, _ => False
  end.

(** Two entries that hold the same options as often: both [None], or
    two lists that are rearrangements of each other. *)
Definition same_option_list (v1 v2 : option (list (option string))) : Prop :=
  match v1, v2 with
  | None, None => True
  | Some l1, Some l2 => Permutation l1 l2
  | _, _ => False
  end.

(** Equality of requirement sets as sets: the same keys, and at every
    key the same options whatever their order and multiplicity. *)
Definition reqs_equiv (a b : Reqs) : Prop :=
  (forall k, In k (dict_keys a) <-> In k (dict_keys b)) /\
  (forall k v1, dict_get a k = Some v1 ->
      exists v2, dict_get b k = Some v2 /\ same_option_set v1 v2).

(** Equality of requirement sets with multiplicities. *)
Definition reqs_same (a b : Reqs) : Prop :=
  (forall k, In k (dict_keys a) <-> In k (dict_keys b)) /\
  (forall k v1, dict_get a k = Some v1 ->
      exists v2, dict_get b k = Some v2 /\ same_option_list v1 v2).

(** Every option of every entry is a string. *)
Definition str_options (a : Reqs) : Prop :=
  forall k l o, In (k, Some l) a -> In o l -> o <> None.

(** The entry [combine_reqs] computes for one name. *)
Definition combined_entry {opts : SetIter (option string)}
           (reqs : list (option Reqs)) (tool : string)
  : option (list (option string)) :=
  if nonempty (options_of reqs tool)
  then Some (set_iter (options_of reqs tool))
  else None.

(** A way of grouping inputs into nested calls of [combine_reqs]: an
    input taken as it is, or the result of combining a group. *)
#[local] Unset Elimination Schemes.
Inductive grouping : Type :=
| Input (r : option Reqs)
| Nested (parts : list grouping).
#[local] Set Elimination Schemes.

(** The inputs of a grouping, from left to right. *)
Fixpoint inputs (t : grouping) : list (option Reqs) :=
  match t with
  | Input r => [r]
  | Nested parts => flat_map inputs parts
  end.

(** The value of a grouping: every group is combined on its own. *)
Fixpoint nested_combine {names : SetIter string} {opts : SetIter (option string)}
         (t : grouping) : option Reqs :=
  match t with
  | Input r => r
  | Nested parts => Some (combine_reqs (map nested_combine parts))
  end.

(** The effect of a run of instantiations in [engage]: the instances are
    stored under their keys and their requirements are appended. *)
Definition instantiated (l : list (string * Tool.t))
           (acc : dict Tool.t * list (option Reqs))
  : dict Tool.t * list (option Reqs) :=
  (dict_update (fst acc) l,
   snd acc ++ map (fun kv => Tool.get_requirements (snd kv)) l).

(** A step of [engage] that instantiates the same tools whatever the
    resources and requirements gathered so far. *)
Definition uniform (F : dict Tool.t * list (option Reqs) ->
                        result (dict Tool.t * list (option Reqs))) : Prop :=
  exists r : result (list (string * Tool.t)),
    forall acc, F acc = (l <- r ;; Ok (instantiated l acc)).

(** The supplier edges of a graph, and what a walk from [start] can
    reach. *)
Definition edge (g : store) (u v : nat) : Prop :=
  In v (items (WorkStation.suppliers (station g u))).

Definition reachable (g : store) (start v : nat) : Prop :=
  clos_refl_trans nat (edge g) start v.

(** No station reachable from [start] is on a cycle of supplier edges. *)
Definition acyclic_from (g : store) (start : nat) : Prop :=
  forall v, reachable g start v -> ~ clos_trans nat (edge g) v v.

(** Every supplier reached from [start] lists the station it supplies
    among its managers. *)
Definition link_consistent_from (g : store) (start : nat) : Prop :=
  forall u v, reachable g start u -> edge g u v -> broken_link g u v = false.

(** The marked stations that are stations of the store. *)
Definition inside (g : store) (marked : list nat) : list nat :=
  filter (fun i => i <? List.length g) marked.

(** The option passes the allow-list of the class: the list is absent or
    empty, or it holds the option. *)
Definition allowed (c : Tool.class) (o : option string) : Prop :=
  match Tool.valid_options c with
  | Some ((_ :: _) as l) => In o l
  | _ => True
  end.

(** The option is on the deny-list of the class. *)
Definition denied (c : Tool.class) (o : option string) : Prop :=
  match Tool.invalid_options c with
  | Some ((_ :: _) as l) => In o l
  | _ => False
  end.

(** The number of unique keys one entry of a requirement set stands
    for. *)
Definition entry_width (v : option (list (option string))) : nat :=
  match v with
  | Some ((_ :: _) as l) => List.length l
  | _ => 1
  end.

(** Some supplier of the station registers a tool of that name. *)
Definition offered (g : store) (self : nat) (name : string) : Prop :=
  exists s, In s (items (WorkStation.suppliers (station g self))) /\
            In name (dict_keys (WorkStation.tools (station g s))).

(** The keys the tool loop of [engage] instantiates: for a registered
    tool that the managers require, one key per required option, or the
    bare name when no option is required. *)
Definition demanded (tools : dict Tool.class) (manager_requirements : Reqs)
           (key : string) : Prop :=
  exists name cls v,
    In (name, cls) tools /\ In (name, v) manager_requirements /\
    match v with
    | Some ((_ :: _) as l) => exists o, In o l /\ key = option_key name o
    | _ => key = name
    end.

(** No tool of the registry is called [key] and takes no options. *)
Definition takes_options (key : string) (tools : dict Tool.class) : Prop :=
  forall cls, In (key, cls) tools -> Tool.options_enabled cls = true.


(** A station the walk of [is_cyclic] is done with: visited and no
    longer on the path. *)
Definition finished (m : marks) (x : nat) : Prop :=
  In x (visited m) /\ ~ In x (path m).

(** The state of the walk of [is_cyclic] between two calls: the path is
    visited, and the finished stations are closed under the supplier
    edges and on no cycle. *)
Definition walk_invariant (g : store) (m : marks) : Prop :=
  incl (path m) (visited m) /\
  (forall u, finished m u -> forall v, edge g u v -> finished m v) /\
  (forall u, finished m u -> ~ clos_trans nat (edge g) u u).

(** The depth field of a station of the store. *)
Definition depth_of (g : store) (i : nat) : nat :=
  WorkStation.depth (station g i).

(** Every supplier of [u] is deeper than [u] in the store [s], along the
    supplier edges of [g]. *)
Definition settled (g s : store) (u : nat) : Prop :=
  forall v, edge g u v -> depth_of s u + 1 <= depth_of s v.

(** The store [s] has the supplier edges of [g]. *)
Definition same_edges (g s : store) : Prop :=
  forall v, WorkStation.suppliers (station s v)
            = WorkStation.suppliers (station g v).

(** ** A chain whose tools take no options: Root -> Mid -> Leaf *)

Module Relay.

Definition csv : Tool.class := Tool.Class ["raw"] false None None.
Definition raw : Tool.class := Tool.Class [] false None None.

Definition Seed : nat := 0.
Definition Root : nat := 1.
Definition Mid : nat := 2.
Definition Leaf : nat := 3.

Definition graph : store :=
  [ WorkStation.set_requirements (WorkStation.__init__ []) [("csv", None)];
    WorkStation.connect (WorkStation.__init__ []) (Some [Seed]) (Some [Mid]);
    WorkStation.connect (WorkStation.__init__ [("csv", csv)])
                        (Some [Root]) (Some [Leaf]);
    WorkStation.connect (WorkStation.__init__ [("raw", raw)]) (Some [Mid]) None ].

End Relay.

(** What the writer and the file hold of the lines added so far: the
    chunk is what has not been written, and once something has been
    written the file is what has, indexed from 0. *)
Definition holds {Line : Type} (s : @ChunkWriter.t Line * list (nat * Line))
           (all : list Line) : Prop :=
  ChunkWriter.idx (fst s) <= List.length all /\
  ChunkWriter.chunk (fst s) = skipn (ChunkWriter.idx (fst s)) all /\
  (ChunkWriter.idx (fst s) <> 0 ->
   snd s = combine (seq 0 (ChunkWriter.idx (fst s)))
                   (firstn (ChunkWriter.idx (fst s)) all)).

(** The option that the loop of [load_all_tools] carries stays what it
    is over the tools: it is given, or no tool has an allow-list. *)
Definition carried (o : option string) (tools : dict Tool.class) : Prop :=
  o = None -> forall name cls, In (name, cls) tools -> Tool.valid_options cls = None.

(** * Properties *)

(** ** The order on strings and [sorted] *)

Lemma nat_of_ascii_inj (x y : ascii) : nat_of_ascii x = nat_of_ascii y -> x = y.
Proof.
  intros H.
  rewrite <- (ascii_nat_embedding x), <- (ascii_nat_embedding y).
  now rewrite H.
Qed.

Lemma str_le_total (a b : string) : str_le a b = true \/ str_le b a = true.
Proof.
  revert b. induction a as [|x a IH]; intros [|y b]; simpl; auto.
  destruct (Nat.ltb_spec (nat_of_ascii x) (nat_of_ascii y)); auto.
  destruct (Nat.ltb_spec (nat_of_ascii y) (nat_of_ascii x)); auto.
Qed.

Lemma str_le_antisym (a b : string) :
  str_le a b = true -> str_le b a = true -> a = b.
Proof.
  revert b. induction a as [|x a IH]; intros [|y b]; simpl; try easy.
  destruct (Nat.ltb_spec (nat_of_ascii x) (nat_of_ascii y));
    destruct (Nat.ltb_spec (nat_of_ascii y) (nat_of_ascii x));
    try easy; try lia.
  intros Hab Hba.
  assert (x = y) by (apply nat_of_ascii_inj; lia).
  f_equal; auto.
Qed.

Lemma str_le_trans (a b c : string) :
  str_le a b = true -> str_le b c = true -> str_le a c = true.
Proof.
  revert b c. induction a as [|x a IH]; intros [|y b] [|z c]; simpl; try easy.
  destruct (Nat.ltb_spec (nat_of_ascii x) (nat_of_ascii y));
    destruct (Nat.ltb_spec (nat_of_ascii y) (nat_of_ascii z));
    destruct (Nat.ltb_spec (nat_of_ascii x) (nat_of_ascii z));
    try easy; try lia;
    destruct (Nat.ltb_spec (nat_of_ascii y) (nat_of_ascii x));
    destruct (Nat.ltb_spec (nat_of_ascii z) (nat_of_ascii y));
    destruct (Nat.ltb_spec (nat_of_ascii z) (nat_of_ascii x));
    try easy; try lia.
  apply IH.
Qed.

Lemma insert_sorted_comm (x y : string) (l : list string) :
  insert_sorted x (insert_sorted y l) = insert_sorted y (insert_sorted x l).
Proof.
  induction l as [|h t IH]; simpl.
  - destruct (str_le x y) eqn:Hxy, (str_le y x) eqn:Hyx; try reflexivity.
    + now rewrite (str_le_antisym x y Hxy Hyx).
    + destruct (str_le_total x y); congruence.
  - destruct (str_le y h) eqn:Hyh, (str_le x h) eqn:Hxh; simpl.
    + destruct (str_le x y) eqn:Hxy, (str_le y x) eqn:Hyx;
        rewrite ?Hyh, ?Hxh; try reflexivity.
      * now rewrite (str_le_antisym x y Hxy Hyx).
      * destruct (str_le_total x y); congruence.
    + destruct (str_le x y) eqn:Hxy.
      * rewrite (str_le_trans x y h Hxy Hyh) in Hxh. discriminate.
      * now rewrite Hxh, Hyh.
    + destruct (str_le y x) eqn:Hyx.
      * rewrite (str_le_trans y x h Hyx Hxh) in Hyh. discriminate.
      * now rewrite Hxh, Hyh.
    + now rewrite Hxh, Hyh, IH.
Qed.

Lemma insert_sorted_perm (x : string) (l : list string) :
  Permutation (insert_sorted x l) (x :: l).
Proof.
  induction l as [|h t IH]; simpl; auto.
  destruct (str_le x h); auto.
  rewrite IH. apply perm_swap.
Qed.

Lemma sort_strs_perm (l : list string) : Permutation (sort_strs l) l.
Proof.
  induction l as [|x l IH]; simpl; auto.
  rewrite insert_sorted_perm. now constructor.
Qed.

(** [sorted] does not depend on the order of its argument. *)
Lemma sort_strs_canonical (l l' : list string) :
  Permutation l l' -> sort_strs l = sort_strs l'.
Proof.
  induction 1; simpl; try congruence.
  apply insert_sorted_comm.
Qed.

Lemma sort_strs_eq_perm (l l' : list string) :
  sort_strs l = sort_strs l' <-> Permutation l l'.
Proof.
  split; [|apply sort_strs_canonical].
  intros H. rewrite <- (sort_strs_perm l), H. apply sort_strs_perm.
Qed.

Lemma opt_eqb_eq (a b : option string) : opt_eqb a b = true <-> a = b.
Proof.
  destruct a, b; simpl; try easy.
  rewrite String.eqb_eq. split; congruence.
Qed.

Lemma list_eqb_eq (l1 l2 : list (option string)) : list_eqb l1 l2 = true <-> l1 = l2.
Proof.
  revert l2. induction l1 as [|x l1 IH]; intros [|y l2]; simpl; try easy.
  rewrite andb_true_iff, opt_eqb_eq, IH. split.
  - intros [-> ->]; reflexivity.
  - intros H; inversion H; auto.
Qed.

Lemma strs_of_all_str (l : list (option string)) :
  forallb is_str l = true -> map Some (strs_of l) = l.
Proof.
  induction l as [|[s|] l IH]; simpl; try easy.
  intros H. now rewrite IH.
Qed.

Lemma strs_of_map_Some (l : list string) : strs_of (map Some l) = l.
Proof. induction l; simpl; congruence. Qed.

Lemma forallb_is_str_perm (l l' : list (option string)) :
  Permutation l l' -> forallb is_str l = forallb is_str l'.
Proof.
  induction 1; simpl; try congruence.
  destruct (is_str x), (is_str y); reflexivity.
Qed.

Lemma strs_of_perm (l l' : list (option string)) :
  Permutation l l' -> Permutation (strs_of l) (strs_of l').
Proof.
  intros H. unfold strs_of. induction H; simpl; auto.
  - now apply Permutation_app_head.
  - destruct x, y; simpl; auto. apply perm_swap.
  - etransitivity; eauto.
Qed.

Lemma sortable_perm (l l' : list (option string)) :
  Permutation l l' -> sortable l -> sortable l'.
Proof.
  intros H [Hl|Hs]; [left|right].
  - now rewrite <- (Permutation_length H).
  - now rewrite <- (forallb_is_str_perm _ _ H).
Qed.

Lemma py_sorted_sortable (l : list (option string)) :
  sortable l <-> exists s, py_sorted l = Ok s.
Proof.
  split.
  - intros [Hl|Hs].
    + destruct l as [|x [|y l]]; simpl in *; eauto. lia.
    + destruct l as [|x [|y l]]; [simpl; eauto ..|].
      unfold py_sorted. rewrite Hs. eauto.
  - intros [s Hs]. destruct l as [|x [|y l]]; [left; simpl; lia ..|].
    right. unfold py_sorted in Hs.
    destruct (forallb is_str (x :: y :: l)); [reflexivity|discriminate].
Qed.

Lemma py_sorted_perm (l s : list (option string)) :
  py_sorted l = Ok s -> Permutation s l.
Proof.
  destruct l as [|x [|y l]].
  - intros H; inversion H; auto.
  - intros H; inversion H; auto.
  - unfold py_sorted.
    destruct (forallb is_str (x :: y :: l)) eqn:E; [|discriminate].
    intros H; inversion H; subst; clear H.
    apply strs_of_all_str in E.
    apply Permutation_trans with (map Some (strs_of (x :: y :: l))).
    + apply Permutation_map, sort_strs_perm.
    + now rewrite E.
Qed.

Lemma py_sorted_canonical (l l' s : list (option string)) :
  Permutation l l' -> py_sorted l = Ok s -> py_sorted l' = Ok s.
Proof.
  intros HP Hs.
  destruct l as [|x [|y l]].
  - apply Permutation_nil in HP. now subst.
  - apply Permutation_length_1_inv in HP. now subst.
  - pose proof (Permutation_length HP) as HL.
    destruct l' as [|x' [|y' l']]; try discriminate.
    unfold py_sorted in *.
    rewrite <- (forallb_is_str_perm _ _ HP).
    destruct (forallb is_str (x :: y :: l)); [|discriminate].
    rewrite <- Hs. do 2 f_equal.
    symmetry. apply sort_strs_canonical. now apply strs_of_perm.
Qed.

(** [list_equals] on two lists: equality up to order, with the
    multiplicities, whenever the lists can be sorted. *)
Lemma list_equals_true_iff (a b : list (option string)) :
  list_equals (Some a) (Some b) = Ok true <-> Permutation a b /\ sortable a.
Proof.
  unfold list_equals. split.
  - destruct (List.length a =? List.length b) eqn:HL; simpl; [|discriminate].
    destruct (py_sorted a) as [sa|] eqn:Ha; simpl; [|discriminate].
    destruct (py_sorted b) as [sb|] eqn:Hb; simpl; [|discriminate].
    destruct (list_eqb sa sb) eqn:E; simpl; [|discriminate].
    intros _. apply list_eqb_eq in E. subst sb. split.
    + rewrite <- (py_sorted_perm _ _ Ha). now apply py_sorted_perm.
    + apply py_sorted_sortable. eauto.
  - intros [HP Hs].
    rewrite (Permutation_length HP), Nat.eqb_refl. simpl.
    apply py_sorted_sortable in Hs. destruct Hs as [s Hs].
    rewrite Hs, (py_sorted_canonical _ _ _ HP Hs). simpl.
    now rewrite (proj2 (list_eqb_eq s s) eq_refl).
Qed.

Lemma fold_left_pointwise {A B} (f g : A -> B -> A) (l : list B) (a : A) :
  (forall a b, f a b = g a b) -> fold_left f l a = fold_left g l a.
Proof.
  intros H. revert a. induction l as [|b l IH]; intros a; simpl; [reflexivity|].
  now rewrite H, IH.
Qed.

(** ** Dictionaries *)

Section DictFacts.
Context {V : Type}.
Implicit Types (d : dict V) (k : string) (v : V).

Lemma dict_mem_In k d : dict_mem k d = true <-> In k (dict_keys d).
Proof.
  unfold dict_mem. rewrite existsb_exists. split.
  - intros [x [Hx E]]. apply String.eqb_eq in E. now subst.
  - intros H. exists k. split; [assumption|apply String.eqb_refl].
Qed.

Lemma dict_get_None k d : dict_get d k = None <-> ~ In k (dict_keys d).
Proof.
  induction d as [|[k' v'] d IH]; simpl; [tauto|].
  destruct (String.eqb_spec k' k).
  - split; [discriminate|]. intros H. exfalso. auto.
  - rewrite IH. tauto.
Qed.

Lemma dict_get_In k v d : dict_get d k = Some v -> In (k, v) d.
Proof.
  induction d as [|[k' v'] d IH]; simpl; [discriminate|].
  destruct (String.eqb_spec k' k).
  - intros H. inversion H. subst. now left.
  - auto.
Qed.

Lemma dict_get_keys k v d : dict_get d k = Some v -> In k (dict_keys d).
Proof.
  intros H. apply dict_get_In in H. apply (in_map fst) in H. exact H.
Qed.

Lemma In_dict_get k v d : NoDup (dict_keys d) -> In (k, v) d -> dict_get d k = Some v.
Proof.
  induction d as [|[k' v'] d IH]; simpl; [easy|].
  intros ND [E|H].
  - inversion E. subst. now rewrite String.eqb_refl.
  - inversion ND as [|? ? Hn ND']. subst.
    destruct (String.eqb_spec k' k).
    + subst. exfalso. apply Hn. apply (in_map fst) in H. exact H.
    + auto.
Qed.

Lemma In_keys_get k d : In k (dict_keys d) -> exists v, dict_get d k = Some v.
Proof.
  intros H. destruct (dict_get d k) eqn:E; eauto.
  apply dict_get_None in E. contradiction.
Qed.

Lemma dict_get_set k v d k' :
  dict_get (dict_set k v d) k' = if String.eqb k k' then Some v else dict_get d k'.
Proof.
  induction d as [|[k0 v0] d IH]; simpl.
  - reflexivity.
  - destruct (String.eqb_spec k0 k); simpl.
    + subst. destruct (String.eqb_spec k k'); reflexivity.
    + rewrite IH. destruct (String.eqb_spec k0 k'); [|reflexivity].
      subst. destruct (String.eqb_spec k k'); congruence.
Qed.

Lemma dict_keys_set_In k v d k' :
  In k' (dict_keys (dict_set k v d)) <-> k' = k \/ In k' (dict_keys d).
Proof.
  induction d as [|[k0 v0] d IH]; simpl.
  - intuition.
  - destruct (String.eqb_spec k0 k); simpl.
    + subst. intuition.
    + rewrite IH. intuition.
Qed.

Lemma dict_keys_set_present k v d :
  In k (dict_keys d) -> dict_keys (dict_set k v d) = dict_keys d.
Proof.
  induction d as [|[k0 v0] d IH]; simpl; [easy|].
  destruct (String.eqb_spec k0 k); simpl; [reflexivity|].
  intros [E|H]; [congruence|]. now rewrite IH.
Qed.

Lemma dict_set_fresh k v d :
  ~ In k (dict_keys d) -> dict_set k v d = d ++ [(k, v)].
Proof.
  induction d as [|[k0 v0] d IH]; simpl; [reflexivity|].
  intros H. destruct (String.eqb_spec k0 k); [exfalso; auto|].
  rewrite IH; auto.
Qed.

Lemma dict_set_NoDup k v d : NoDup (dict_keys d) -> NoDup (dict_keys (dict_set k v d)).
Proof.
  intros ND. destruct (in_dec string_dec k (dict_keys d)) as [H|H].
  - now rewrite dict_keys_set_present.
  - rewrite dict_set_fresh by assumption. unfold dict_keys in *.
    rewrite map_app. simpl. apply NoDup_app; auto.
    + apply NoDup_cons; [easy|constructor].
    + intros x Hx [<-|[]]. contradiction.
Qed.

(** Building a dictionary key by key from distinct keys. *)
Lemma fold_dict_set_map (f : string -> V) (l : list string) d :
  NoDup l -> (forall k, In k l -> ~ In k (dict_keys d)) ->
  fold_left (fun acc k => dict_set k (f k) acc) l d
  = d ++ map (fun k => (k, f k)) l.
Proof.
  revert d. induction l as [|x l IH]; intros d ND Hd; simpl.
  - now rewrite app_nil_r.
  - inversion ND as [|? ? Hx ND']. subst.
    rewrite dict_set_fresh by (apply Hd; now left).
    rewrite IH; auto.
    + now rewrite <- app_assoc.
    + intros k Hk. unfold dict_keys. rewrite map_app, in_app_iff. simpl.
      intros [H|[<-|[]]]; [|contradiction].
      apply (Hd k); [now right|exact H].
Qed.

Lemma dict_keys_map (f : string -> V) (l : list string) :
  dict_keys (map (fun k => (k, f k)) l) = l.
Proof.
  unfold dict_keys. rewrite map_map. simpl. apply map_id.
Qed.

Lemma dict_get_map (f : string -> V) (l : list string) k :
  In k l -> dict_get (map (fun k => (k, f k)) l) k = Some (f k).
Proof.
  induction l as [|x l IH]; simpl; [easy|].
  destruct (String.eqb_spec x k); [now subst|].
  intros [E|H]; [congruence|auto].
Qed.

End DictFacts.

(** ** Sets *)

Lemma set_iter_nil {A} {S : SetIter A} : set_iter (@nil A) = [].
Proof.
  destruct (set_iter []) as [|x l] eqn:E; [reflexivity|].
  exfalso. apply (set_iter_In [] x). rewrite E. now left.
Qed.

Lemma set_iter_single {A} {S : SetIter A} (x : A) : set_iter [x] = [x].
Proof.
  pose proof (set_iter_NoDup [x]) as ND.
  pose proof (set_iter_In [x]) as HI.
  destruct (set_iter [x]) as [|y [|z l]].
  - exfalso. apply (HI x). now left.
  - f_equal. destruct (proj1 (HI y) (or_introl eq_refl)) as [E|[]]. now symmetry.
  - exfalso.
    destruct (proj1 (HI y) (or_introl eq_refl)) as [E|[]].
    destruct (proj1 (HI z) (or_intror (or_introl eq_refl))) as [E'|[]].
    subst. inversion ND as [|? ? Hn _]. apply Hn. now left.
Qed.

Lemma set_iter_perm {A} {S : SetIter A} (l l' : list A) :
  (forall x, In x l <-> In x l') -> Permutation (set_iter l) (set_iter l').
Proof.
  intros H. apply NoDup_Permutation; try apply set_iter_NoDup.
  intros x. rewrite !set_iter_In. apply H.
Qed.

Lemma set_iter_nonempty {A} {S : SetIter A} (l : list A) :
  nonempty (set_iter l) = nonempty l.
Proof.
  destruct l as [|x l].
  - now rewrite set_iter_nil.
  - destruct (set_iter (x :: l)) eqn:E; [|reflexivity].
    exfalso. pose proof (proj2 (set_iter_In (x :: l) x) (or_introl eq_refl)) as H.
    now rewrite E in H.
Qed.

(** ** [combine_reqs] *)

Section CombineFacts.
Context {names : SetIter string} {opts : SetIter (option string)}.

Lemma tool_set_fold (reqs : list (option Reqs)) (acc : list string) (name : string) :
  In name
     (fold_left
        (fun tool_set req =>
           match req with
           | Some ((_ :: _) as r) => tool_set ++ dict_keys r
           | _ => tool_set
           end) reqs acc)
  <-> In name acc \/ names_of reqs name.
Proof.
  revert acc. induction reqs as [|req reqs IH]; intros acc; simpl.
  - unfold names_of. split; [auto|]. intros [H|[r [[] _]]]. exact H.
  - rewrite IH. clear IH. unfold names_of. split.
    + intros [H|[r [H1 H2]]].
      * destruct req as [[|e r]|]; auto.
        apply in_app_iff in H. destruct H as [H|H]; auto.
        right. exists (e :: r). split; [now left|exact H].
      * right. exists r. split; [now right|exact H2].
    + intros [H|[r [[E|H1] H2]]].
      * left. destruct req as [[|e r]|]; auto. apply in_app_iff. auto.
      * subst req. destruct r as [|e r]; [destruct H2|].
        left. apply in_app_iff. auto.
      * right. exists r. auto.
Qed.

Lemma tool_set_of_In (reqs : list (option Reqs)) (name : string) :
  In name (tool_set_of reqs) <-> names_of reqs name.
Proof.
  unfold tool_set_of. rewrite tool_set_fold. simpl. tauto.
Qed.

Lemma options_fold (reqs : list (option Reqs)) (tool : string)
      (acc : list (option string)) (o : option string) :
  In o
     (fold_left
        (fun options req =>
           match req with
           | Some ((_ :: _) as r) =>
               match req_get r tool with
               | Some ((_ :: _) as l) => options ++ l
               | _ => options
               end
           | _ => options
           end) reqs acc)
  <-> In o acc \/ contributes reqs tool o.
Proof.
  revert acc. induction reqs as [|req reqs IH]; intros acc; simpl.
  - unfold contributes. split; [auto|]. intros [H|[r [l [[] _]]]]. exact H.
  - rewrite IH. clear IH. unfold contributes. split.
    + intros [H|[r [l [H1 H2]]]].
      * destruct req as [[|e r]|]; auto.
        destruct (req_get (e :: r) tool) as [[|x l]|] eqn:G; auto.
        apply in_app_iff in H. destruct H as [H|H]; auto.
        right. exists (e :: r), (x :: l). repeat split; auto. now left.
      * right. exists r, l. split; [now right|exact H2].
    + intros [H|[r [l [[E|H1] [H2 H3]]]]].
      * left. destruct req as [[|e r]|]; auto.
        destruct (req_get (e :: r) tool) as [[|x l]|]; auto.
        apply in_app_iff. auto.
      * subst req. destruct r as [|e r]; [discriminate|].
        rewrite H2. destruct l as [|x l]; [destruct H3|].
        left. apply in_app_iff. auto.
      * right. exists r, l. auto.
Qed.

Lemma options_of_In (reqs : list (option Reqs)) (tool : string) (o : option string) :
  In o (options_of reqs tool) <-> contributes reqs tool o.
Proof.
  unfold options_of. rewrite options_fold. simpl. tauto.
Qed.

(** [combine_reqs] lists the names of the inputs in the iteration order
    of [tool_set], each with its merged entry. *)
Lemma combine_reqs_map (reqs : list (option Reqs)) :
  combine_reqs reqs
  = map (fun tool => (tool, combined_entry reqs tool)) (set_iter (tool_set_of reqs)).
Proof.
  destruct reqs as [|req reqs].
  - simpl. unfold tool_set_of. simpl. now rewrite set_iter_nil.
  - unfold combine_reqs.
    set (rs := req :: reqs).
    destruct (nonempty (tool_set_of rs)) eqn:E.
    + rewrite <- (app_nil_l (map _ _)).
      rewrite <- (fold_dict_set_map (fun k => combined_entry rs k));
        auto using set_iter_NoDup.
      apply fold_left_pointwise. intros acc k. unfold combined_entry.
      now destruct (nonempty (options_of rs k)).
    + destruct (tool_set_of rs); [|discriminate].
      now rewrite set_iter_nil.
Qed.

Lemma combine_reqs_keys (reqs : list (option Reqs)) :
  dict_keys (combine_reqs reqs) = set_iter (tool_set_of reqs).
Proof. rewrite combine_reqs_map. apply dict_keys_map. Qed.

Lemma combine_reqs_NoDup (reqs : list (option Reqs)) :
  NoDup (dict_keys (combine_reqs reqs)).
Proof. rewrite combine_reqs_keys. apply set_iter_NoDup. Qed.

Lemma combine_reqs_In_keys (reqs : list (option Reqs)) (name : string) :
  In name (dict_keys (combine_reqs reqs)) <-> names_of reqs name.
Proof. now rewrite combine_reqs_keys, set_iter_In, tool_set_of_In. Qed.

Lemma combine_reqs_get (reqs : list (option Reqs)) (name : string) :
  names_of reqs name ->
  dict_get (combine_reqs reqs) name = Some (combined_entry reqs name).
Proof.
  intros H. rewrite combine_reqs_map.
  apply (dict_get_map (fun tool => combined_entry reqs tool)).
  now rewrite set_iter_In, tool_set_of_In.
Qed.

Lemma combined_entry_Some (reqs : list (option Reqs)) (name : string)
      (l : list (option string)) :
  combined_entry reqs name = Some l ->
  l <> [] /\ NoDup l /\ forall o, In o l <-> contributes reqs name o.
Proof.
  unfold combined_entry.
  destruct (nonempty (options_of reqs name)) eqn:E; [|discriminate].
  intros H. inversion H. subst. clear H. repeat split.
  - rewrite <- set_iter_nonempty in E. intros H. now rewrite H in E.
  - apply set_iter_NoDup.
  - rewrite set_iter_In. apply options_of_In.
  - rewrite set_iter_In. apply options_of_In.
Qed.

Lemma combined_entry_None (reqs : list (option Reqs)) (name : string) :
  combined_entry reqs name = None <-> forall o, ~ contributes reqs name o.
Proof.
  unfold combined_entry.
  destruct (options_of reqs name) as [|x l] eqn:E; simpl.
  - split; [|reflexivity]. intros _ o H.
    apply options_of_In in H. now rewrite E in H.
  - split; [discriminate|]. intros H. exfalso. apply (H x).
    apply options_of_In. rewrite E. now left.
Qed.

End CombineFacts.

(** ** [list_equals] and [equals] *)

Lemma list_equals_spec (v1 v2 : option (list (option string))) :
  list_equals v1 v2 = Ok true <->
  match v1, v2 with
  | None, None => True
  | Some a, Some b => Permutation a b /\ sortable a
  | _, _ => False
  end.
Proof.
  destruct v1 as [a|], v2 as [b|].
  - apply list_equals_true_iff.
  - simpl. split; [discriminate|tauto].
  - simpl. split; [discriminate|tauto].
  - simpl. tauto.
Qed.

Lemma all_str_map_Some (l : list string) : forallb is_str (map Some l) = true.
Proof. induction l; simpl; auto. Qed.

Lemma list_equals_keys (ka kb : list string) :
  list_equals (Some (map Some ka)) (Some (map Some kb)) = Ok true
  <-> Permutation ka kb.
Proof.
  rewrite list_equals_true_iff. split.
  - intros [H _]. apply strs_of_perm in H. now rewrite !strs_of_map_Some in H.
  - intros H. split; [now apply Permutation_map|].
    right. apply all_str_map_Some.
Qed.

Lemma equals_items_true_iff (items d2 : Reqs) :
  equals_items items d2 = Ok true <->
  forall k v1, In (k, v1) items ->
    exists v2, dict_get d2 k = Some v2 /\ list_equals v1 v2 = Ok true.
Proof.
  induction items as [|[k v] items IH]; simpl.
  - split; [intros _ k v []|reflexivity].
  - unfold dict_item. split.
    + destruct (dict_get d2 k) as [v2|] eqn:G; simpl; [|discriminate].
      destruct (list_equals v v2) as [[|]|] eqn:L; simpl; try discriminate.
      intros H k' v' [E|Hin].
      * inversion E. subst. eauto.
      * now apply IH.
    + intros H. destruct (H k v (or_introl eq_refl)) as [v2 [G L]].
      rewrite G. simpl. rewrite L. simpl. apply IH. auto.
Qed.

Lemma equals_true_iff (d1 d2 : Reqs) :
  equals d1 d2 = Ok true <->
  Permutation (dict_keys d1) (dict_keys d2) /\
  forall k v1, In (k, v1) d1 ->
    exists v2, dict_get d2 k = Some v2 /\ list_equals v1 v2 = Ok true.
Proof.
  unfold equals. rewrite <- equals_items_true_iff, <- list_equals_keys.
  destruct (list_equals (Some (map Some (dict_keys d1)))
                        (Some (map Some (dict_keys d2)))) as [[|]|]; simpl.
  - tauto.
  - split; [discriminate|]. intros [H _]. discriminate.
  - split; [discriminate|]. intros [H _]. discriminate.
Qed.

Lemma str_list_sortable (l : list (option string)) :
  (forall o, In o l -> o <> None) -> sortable l.
Proof.
  intros H. right. apply forallb_forall. intros [s|] Hin; [reflexivity|].
  now destruct (H None Hin).
Qed.

Lemma same_keys_perm (a b : Reqs) :
  NoDup (dict_keys a) -> NoDup (dict_keys b) ->
  (Permutation (dict_keys a) (dict_keys b)
   <-> forall k, In k (dict_keys a) <-> In k (dict_keys b)).
Proof.
  intros Ha Hb. split.
  - intros H k. split; apply Permutation_in; [assumption|now symmetry].
  - intros H. now apply NoDup_Permutation.
Qed.

(** What [equals] decides on dictionaries: the same keys, and at every
    key two [None], or two lists that are rearrangements of each other
    and can be sorted. *)
Lemma equals_decides (a b : Reqs) :
  NoDup (dict_keys a) -> NoDup (dict_keys b) ->
  (equals a b = Ok true <->
   (forall k, In k (dict_keys a) <-> In k (dict_keys b)) /\
   (forall k v1, dict_get a k = Some v1 ->
      exists v2, dict_get b k = Some v2 /\ same_option_list v1 v2 /\
                 match v1 with Some l => sortable l | None => True end)).
Proof.
  intros Ha Hb. rewrite equals_true_iff, (same_keys_perm a b Ha Hb).
  split; intros [HK HV]; split; try assumption.
  - intros k v1 G. apply dict_get_In in G.
    destruct (HV k v1 G) as [v2 [G2 L]]. exists v2. split; [assumption|].
    apply list_equals_spec in L. destruct v1, v2; simpl; tauto.
  - intros k v1 Hin. apply (In_dict_get _ _ _ Ha) in Hin.
    destruct (HV k v1 Hin) as [v2 [G2 [S1 S2]]]. exists v2. split; [assumption|].
    apply list_equals_spec. destruct v1, v2; simpl in *; tauto.
Qed.

(** C6 (as amended).  On dictionaries whose options are strings,
    [equals a b] returns [True] exactly when [a] and [b] have the same
    keys and, at every key, either both entries are [None] or both are
    lists that are rearrangements of each other: the comparison ignores
    the order of the options but counts their multiplicities. *)
Theorem equals_iff_same_keys_and_option_lists (a b : Reqs) :
  NoDup (dict_keys a) -> NoDup (dict_keys b) -> str_options a ->
  (equals a b = Ok true <-> reqs_same a b).
Proof.
  intros Ha Hb Hs. rewrite (equals_decides a b Ha Hb). unfold reqs_same.
  split; intros [HK HV]; split; try assumption; intros k v1 G.
  - destruct (HV k v1 G) as [v2 [G2 [S _]]]. eauto.
  - destruct (HV k v1 G) as [v2 [G2 S]]. exists v2. repeat split; auto.
    destruct v1 as [l|]; [|exact I].
    apply str_list_sortable. intros o Ho.
    apply (Hs k l o); [|assumption]. now apply dict_get_In.
Qed.

Lemma equals_iff_same_keys_and_option_lists_witness :
  equals [("p", Some [Some "a"; Some "b"]); ("q", None)]
         [("q", None); ("p", Some [Some "b"; Some "a"])] = Ok true
  <-> reqs_same [("p", Some [Some "a"; Some "b"]); ("q", None)]
                [("q", None); ("p", Some [Some "b"; Some "a"])].
Proof.
  apply equals_iff_same_keys_and_option_lists.
  - repeat constructor; simpl; intuition discriminate.
  - repeat constructor; simpl; intuition discriminate.
  - intros k l o [E|[E|[]]] Ho; inversion E; subst.
    destruct Ho as [<-|[<-|[]]]; discriminate.
Defined.

(** C6, the claim as the specification words it, fails: two requirement
    sets with the same key and the same options up to duplicates are not
    equal for [equals]. *)
Lemma equals_counts_duplicates :
  reqs_equiv [("x", Some [Some "a"; Some "a"])] [("x", Some [Some "a"])]
  /\ equals [("x", Some [Some "a"; Some "a"])] [("x", Some [Some "a"])] = Ok false.
Proof.
  split; [|reflexivity]. split.
  - intros k. simpl. tauto.
  - intros k v1. cbn [dict_get].
    destruct (String.eqb_spec "x" k); [|discriminate].
    intros H. inversion H. subst. eexists. split; [reflexivity|].
    simpl. intros o. tauto.
Qed.

(** ** The algebra of [combine_reqs] *)

Section CombineAlgebra.
Context {names : SetIter string} {opts : SetIter (option string)}.

Lemma names_of_app (l l' : list (option Reqs)) (n : string) :
  names_of (l ++ l') n <-> names_of l n \/ names_of l' n.
Proof.
  unfold names_of. split.
  - intros [r [H1 H2]]. apply in_app_iff in H1. destruct H1; eauto.
  - intros [[r [H1 H2]]|[r [H1 H2]]]; exists r; rewrite in_app_iff; auto.
Qed.

Lemma contributes_app (l l' : list (option Reqs)) (n : string) (o : option string) :
  contributes (l ++ l') n o <-> contributes l n o \/ contributes l' n o.
Proof.
  unfold contributes. split.
  - intros [r [x [H1 H2]]]. apply in_app_iff in H1. destruct H1; eauto 6.
  - intros [[r [x [H1 H2]]]|[r [x [H1 H2]]]]; exists r, x; rewrite in_app_iff; auto.
Qed.

Lemma contributes_names (l : list (option Reqs)) (n : string) (o : option string) :
  contributes l n o -> names_of l n.
Proof.
  intros [r [x [H1 [H2 _]]]]. exists r. split; [assumption|].
  unfold req_get in H2. destruct (dict_get r n) eqn:G; [|discriminate].
  now apply dict_get_keys in G.
Qed.

Lemma names_of_combined (l : list (option Reqs)) (n : string) :
  names_of [Some (combine_reqs l)] n <-> names_of l n.
Proof.
  rewrite <- (combine_reqs_In_keys l n). unfold names_of at 1. split.
  - intros [r [[E|[]] H]]. inversion E. now subst.
  - intros H. eexists. split; [now left|exact H].
Qed.

Lemma contributes_combined (l : list (option Reqs)) (n : string) (o : option string) :
  contributes [Some (combine_reqs l)] n o <-> contributes l n o.
Proof.
  split.
  - intros [r [x [[E|[]] [G Hin]]]]. inversion E. subst r. clear E.
    unfold req_get in G.
    destruct (dict_get (combine_reqs l) n) as [v|] eqn:D; [|discriminate].
    subst v. pose proof (dict_get_keys _ _ _ D) as HK.
    apply combine_reqs_In_keys in HK.
    rewrite (combine_reqs_get l n HK) in D. inversion D as [D'].
    apply combined_entry_Some in D'. now apply D'.
  - intros H. pose proof (contributes_names _ _ _ H) as HN.
    destruct (combined_entry l n) as [x|] eqn:E.
    + exists (combine_reqs l), x. split; [now left|]. split.
      * unfold req_get. now rewrite (combine_reqs_get l n HN), E.
      * apply combined_entry_Some in E. now apply E.
    + exfalso. rewrite combined_entry_None in E. now apply (E o).
Qed.

Lemma combined_entry_same (l1 l2 : list (option Reqs)) (n : string) :
  (forall o, contributes l1 n o <-> contributes l2 n o) ->
  same_option_list (combined_entry l1 n) (combined_entry l2 n).
Proof.
  intros H.
  destruct (combined_entry l1 n) as [a|] eqn:E1,
           (combined_entry l2 n) as [b|] eqn:E2; simpl; auto.
  - apply combined_entry_Some in E1, E2.
    destruct E1 as [_ [N1 I1]], E2 as [_ [N2 I2]].
    apply NoDup_Permutation; auto. intros o. now rewrite I1, I2.
  - apply combined_entry_Some in E1. rewrite combined_entry_None in E2.
    destruct E1 as [Hne [_ I1]]. destruct a as [|o a]; [congruence|].
    apply (E2 o), H, I1. now left.
  - apply combined_entry_Some in E2. rewrite combined_entry_None in E1.
    destruct E2 as [Hne [_ I2]]. destruct b as [|o b]; [congruence|].
    apply (E1 o), H, I2. now left.
Qed.

Lemma same_option_list_set (v1 v2 : option (list (option string))) :
  same_option_list v1 v2 -> same_option_set v1 v2.
Proof.
  destruct v1, v2; simpl; auto.
  intros H o. split; apply Permutation_in; [assumption|now symmetry].
Qed.

(** Two input sequences with the same names and the same contributed
    options combine to equal requirement sets. *)
Lemma combine_reqs_equiv (l1 l2 : list (option Reqs)) :
  (forall n, names_of l1 n <-> names_of l2 n) ->
  (forall n o, contributes l1 n o <-> contributes l2 n o) ->
  reqs_equiv (combine_reqs l1) (combine_reqs l2) /\
  ((forall n o, contributes l1 n o -> o <> None) ->
   equals (combine_reqs l1) (combine_reqs l2) = Ok true).
Proof.
  intros HN HC.
  assert (HV : forall k v1, dict_get (combine_reqs l1) k = Some v1 ->
             v1 = combined_entry l1 k /\
             dict_get (combine_reqs l2) k = Some (combined_entry l2 k)).
  { intros k v1 G. pose proof (dict_get_keys _ _ _ G) as HK.
    apply combine_reqs_In_keys in HK.
    rewrite (combine_reqs_get l1 k HK) in G. inversion G. split; [reflexivity|].
    apply combine_reqs_get. now apply HN. }
  split.
  - split.
    + intros k. now rewrite !combine_reqs_In_keys.
    + intros k v1 G. destruct (HV k v1 G) as [-> G2].
      eexists. split; [exact G2|].
      apply same_option_list_set, combined_entry_same, HC.
  - intros Hstr. apply equals_decides; try apply combine_reqs_NoDup. split.
    + intros k. now rewrite !combine_reqs_In_keys.
    + intros k v1 G. destruct (HV k v1 G) as [-> G2].
      eexists. split; [exact G2|]. split.
      * apply combined_entry_same, HC.
      * destruct (combined_entry l1 k) as [x|] eqn:E; [|exact I].
        apply combined_entry_Some in E. destruct E as [_ [_ HI]].
        apply str_list_sortable. intros o Ho. apply (Hstr k). now apply HI.
Qed.

Lemma names_of_perm (l1 l2 : list (option Reqs)) (n : string) :
  Permutation l1 l2 -> (names_of l1 n <-> names_of l2 n).
Proof.
  intros H. unfold names_of.
  split; intros [r [H1 H2]]; exists r; split; auto.
  - now apply (Permutation_in _ H).
  - now apply (Permutation_in _ (Permutation_sym H)).
Qed.

Lemma contributes_perm (l1 l2 : list (option Reqs)) (n : string) (o : option string) :
  Permutation l1 l2 -> (contributes l1 n o <-> contributes l2 n o).
Proof.
  intros H. unfold contributes.
  split; intros [r [x [H1 H2]]]; exists r, x; split; auto.
  - now apply (Permutation_in _ H).
  - now apply (Permutation_in _ (Permutation_sym H)).
Qed.

Lemma grouping_rect' (P : grouping -> Prop) :
  (forall r, P (Input r)) ->
  (forall parts, Forall P parts -> P (Nested parts)) ->
  forall t, P t.
Proof.
  intros HI HN. fix IH 1. intros [r|parts].
  - apply HI.
  - apply HN. induction parts as [|t parts IHp]; constructor.
    + apply IH.
    + apply IHp.
Qed.

Lemma names_of_cons (r : option Reqs) (l : list (option Reqs)) (n : string) :
  names_of (r :: l) n <-> names_of [r] n \/ names_of l n.
Proof. apply (names_of_app [r] l). Qed.

Lemma contributes_cons (r : option Reqs) (l : list (option Reqs)) (n : string)
      (o : option string) :
  contributes (r :: l) n o <-> contributes [r] n o \/ contributes l n o.
Proof. apply (contributes_app [r] l). Qed.

Lemma names_of_nil (n : string) : ~ names_of [] n.
Proof. intros [r [[] _]]. Qed.

Lemma contributes_nil (n : string) (o : option string) : ~ contributes [] n o.
Proof. intros [r [x [[] _]]]. Qed.

(** A group combined on its own carries the names and the options of
    its inputs. *)
Lemma nested_combine_inputs (t : grouping) :
  (forall n, names_of [nested_combine t] n <-> names_of (inputs t) n) /\
  (forall n o, contributes [nested_combine t] n o <-> contributes (inputs t) n o).
Proof.
  induction t as [r|parts IH] using grouping_rect'.
  - simpl. split; intros; reflexivity.
  - cbn [nested_combine inputs]. split.
    + intros n. rewrite names_of_combined.
      induction IH as [|t parts [Ht _] _ IHp]; simpl; [reflexivity|].
      now rewrite names_of_cons, names_of_app, Ht, IHp.
    + intros n o. rewrite contributes_combined.
      induction IH as [|t parts [_ Ht] _ IHp]; simpl; [reflexivity|].
      now rewrite contributes_cons, contributes_app, Ht, IHp.
Qed.

Lemma nested_parts_inputs (parts : list grouping) :
  (forall n, names_of (map nested_combine parts) n
             <-> names_of (flat_map inputs parts) n) /\
  (forall n o, contributes (map nested_combine parts) n o
               <-> contributes (flat_map inputs parts) n o).
Proof.
  induction parts as [|t parts [IH1 IH2]]; simpl.
  - split; intros; reflexivity.
  - destruct (nested_combine_inputs t) as [H1 H2]. split.
    + intros n. now rewrite names_of_cons, names_of_app, H1, IH1.
    + intros n o. now rewrite contributes_cons, contributes_app, H2, IH2.
Qed.

End CombineAlgebra.

Lemma set_iter_only {A} {S : SetIter A} (x : A) (l : list A) :
  In x l -> (forall y, In y l -> y = x) -> set_iter l = [x].
Proof.
  intros Hx Hall.
  pose proof (set_iter_NoDup l) as ND.
  pose proof (set_iter_In l) as HI.
  destruct (set_iter l) as [|y [|z t]].
  - exfalso. now apply (HI x).
  - f_equal. apply Hall, HI. now left.
  - exfalso.
    assert (y = x) by (apply Hall, HI; now left).
    assert (z = x) by (apply Hall, HI; right; now left).
    subst. inversion ND as [|? ? Hn _]. apply Hn. now left.
Qed.

(** C2.  [combine_reqs] returns the requirement set whose keys are the
    names occurring in some input, each once.  The entry of a name is
    the duplicate-free list of the options contributed for it by the
    inputs that give it options when there is such an option, and [None]
    when there is none; inputs without the name or with [None] for it
    contribute nothing.  The empty sequence gives the empty requirement
    set.  [combine_reqs [{x: [a, b]}, {x: [a]}, {x: None}]] equals
    [{x: [a, b]}]. *)
Theorem combine_reqs_is_union
        {names : SetIter string} {opts : SetIter (option string)}
        (reqs : list (option Reqs)) :
  (forall name, In name (dict_keys (combine_reqs reqs)) <-> names_of reqs name) /\
  NoDup (dict_keys (combine_reqs reqs)) /\
  (forall name, names_of reqs name ->
     match dict_get (combine_reqs reqs) name with
     | Some (Some l) =>
         l <> [] /\ NoDup l /\ forall o, In o l <-> contributes reqs name o
     | Some None => forall o, ~ contributes reqs name o
     | None => False
     end) /\
  combine_reqs [] = [] /\
  equals (combine_reqs [Some [("x", Some [Some "a"; Some "b"])];
                        Some [("x", Some [Some "a"])];
                        Some [("x", None)]])
         [("x", Some [Some "a"; Some "b"])] = Ok true.
Proof.
  split; [|split; [|split; [|split]]].
  - apply combine_reqs_In_keys.
  - apply combine_reqs_NoDup.
  - intros name H. rewrite (combine_reqs_get reqs name H).
    destruct (combined_entry reqs name) as [l|] eqn:E.
    + now apply combined_entry_Some.
    + now apply combined_entry_None.
  - reflexivity.
  - rewrite combine_reqs_map.
    change (tool_set_of _) with ["x"; "x"; "x"].
    rewrite (set_iter_only "x") by (simpl; intuition).
    cbn [map]. unfold combined_entry.
    change (options_of _ "x") with [Some "a"; Some "b"; Some "a"].
    cbn [nonempty].
    apply equals_true_iff. split; [reflexivity|].
    intros k v1 [E|[]]. inversion E. subst. clear E.
    eexists. split; [reflexivity|].
    apply list_equals_true_iff. split.
    + apply NoDup_Permutation.
      * apply set_iter_NoDup.
      * repeat constructor; simpl; intuition discriminate.
      * intros o. rewrite set_iter_In. simpl. intuition.
    + apply str_list_sortable. intros o Ho.
      apply (proj1 (set_iter_In _ o)) in Ho.
      simpl in Ho. intuition congruence.
Qed.

Lemma combine_reqs_is_union_witness :
  dict_get (combine_reqs (names := names_by_insertion) (opts := options_by_insertion)
                         [Some [("x", Some [Some "a"; Some "b"]); ("y", None)];
                          None;
                          Some [("x", Some [Some "c"]); ("y", Some [])]]) "y"
  = Some None /\
  names_of [Some [("x", Some [Some "a"; Some "b"]); ("y", None)];
            None;
            Some [("x", Some [Some "c"]); ("y", Some [])]] "x".
Proof.
  split; [reflexivity|].
  apply (proj1 (combine_reqs_is_union
                  (names := names_by_insertion) (opts := options_by_insertion)
                  [Some [("x", Some [Some "a"; Some "b"]); ("y", None)];
                   None;
                   Some [("x", Some [Some "c"]); ("y", Some [])]])).
  vm_compute. auto.
Defined.

(** C5.  [combine_reqs] does not depend on the order of its inputs nor
    on their grouping: two sequences that are rearrangements of each
    other, and a sequence of groups combined one by one against the flat
    sequence of all their inputs, give requirement sets that are equal
    as requirement sets; [equals] returns [True] on them whenever the
    options are strings. *)
Theorem combine_reqs_commutative_associative
        {names : SetIter string} {opts : SetIter (option string)} :
  (forall l1 l2 : list (option Reqs),
      Permutation l1 l2 ->
      reqs_equiv (combine_reqs l1) (combine_reqs l2) /\
      ((forall n o, contributes l1 n o -> o <> None) ->
       equals (combine_reqs l1) (combine_reqs l2) = Ok true)) /\
  (forall parts : list grouping,
      reqs_equiv (combine_reqs (map nested_combine parts))
                 (combine_reqs (flat_map inputs parts)) /\
      ((forall n o, contributes (flat_map inputs parts) n o -> o <> None) ->
       equals (combine_reqs (map nested_combine parts))
              (combine_reqs (flat_map inputs parts)) = Ok true)).
Proof.
  split.
  - intros l1 l2 HP. apply combine_reqs_equiv.
    + intros n. now apply names_of_perm.
    + intros n o. now apply contributes_perm.
  - intros parts. destruct (nested_parts_inputs parts) as [HN HC].
    destruct (combine_reqs_equiv _ _ HN HC) as [H1 H2].
    split; [exact H1|]. intros Hs. apply H2.
    intros n o H. apply (Hs n). now apply HC.
Qed.

Lemma combine_reqs_commutative_associative_witness :
  equals (combine_reqs (names := names_by_insertion) (opts := options_by_insertion)
            [Some [("x", Some [Some "a"; Some "b"])]; Some [("y", None)]])
         (combine_reqs (names := names_by_insertion) (opts := options_by_insertion)
            [Some [("y", None)]; Some [("x", Some [Some "a"; Some "b"])]])
  = Ok true.
Proof.
  apply (proj1 (combine_reqs_commutative_associative
                  (names := names_by_insertion) (opts := options_by_insertion))
               [Some [("x", Some [Some "a"; Some "b"])]; Some [("y", None)]]
               [Some [("y", None)]; Some [("x", Some [Some "a"; Some "b"])]]).
  - apply perm_swap.
  - intros n o [r [l [[E|[E|[]]] [G Hin]]]]; inversion E; subst r; clear E;
      unfold req_get in G; cbn [dict_get] in G.
    + destruct (String.eqb "x" n); [|discriminate].
      inversion G. subst l. simpl in Hin. intuition congruence.
    + destruct (String.eqb "y" n); discriminate.
Defined.

(** ** [convert_to_unique_keys] *)

Lemma option_keys_fold (name : string) (l : list (option string))
      (acc : list string) (key : string) :
  In key (fold_left (fun keys o => keys ++ [option_key name o]) l acc)
  <-> In key acc \/ exists o, In o l /\ key = option_key name o.
Proof.
  revert acc. induction l as [|x l IH]; intros acc; simpl.
  - split; [auto|]. intros [H|[o [[] _]]]. exact H.
  - rewrite IH, in_app_iff. simpl. split.
    + intros [[H|[H|[]]]|[o [H1 H2]]]; eauto.
    + intros [H|[o [[E|H1] H2]]]; subst; eauto.
Qed.

(** The key or keys one entry of a requirement set stands for. *)
Lemma convert_fold (r : Reqs) (acc : list string) (key : string) :
  In key
     (fold_left
        (fun keys entry =>
           match snd entry with
           | Some ((_ :: _) as options) =>
               fold_left (fun keys o => keys ++ [option_key (fst entry) o])
                         options keys
           | _ => keys ++ [fst entry]
           end) r acc)
  <-> In key acc \/
      exists name v, In (name, v) r /\
        match v with
        | Some ((_ :: _) as l) => exists o, In o l /\ key = option_key name o
        | _ => key = name
        end.
Proof.
  revert acc. induction r as [|[n v] r IH]; intros acc; simpl.
  - split; [auto|]. intros [H|[name [v [[] _]]]]. exact H.
  - rewrite IH. clear IH. split.
    + intros [H|[name [v' [H1 H2]]]].
      * destruct v as [[|x l]|].
        -- apply in_app_iff in H. destruct H as [H|[H|[]]]; auto.
           right. exists n, (Some []). auto.
        -- apply option_keys_fold in H. destruct H as [H|H]; auto.
           right. exists n, (Some (x :: l)). auto.
        -- apply in_app_iff in H. destruct H as [H|[H|[]]]; auto.
           right. exists n, None. auto.
      * right. exists name, v'. auto.
    + intros [H|[name [v' [[E|H1] H2]]]].
      * left. destruct v as [[|x l]|].
        -- apply in_app_iff. auto.
        -- apply option_keys_fold. auto.
        -- apply in_app_iff. auto.
      * inversion E. subst. left. destruct v' as [[|x l]|].
        -- apply in_app_iff. simpl. auto.
        -- apply option_keys_fold. auto.
        -- apply in_app_iff. simpl. auto.
      * right. exists name, v'. auto.
Qed.

Lemma convert_to_unique_keys_In (d : Reqs) (key : string) :
  In key (convert_to_unique_keys (Some d)) <->
  exists name v, In (name, v) d /\
    match v with
    | Some ((_ :: _) as l) => exists o, In o l /\ key = option_key name o
    | _ => key = name
    end.
Proof.
  destruct d as [|e d].
  - simpl. split; [easy|]. intros [name [v [[] _]]].
  - unfold convert_to_unique_keys. rewrite convert_fold. simpl. tauto.
Qed.

(** ** Tool *)

Lemma const_dict_fold {V} (v : V) (reqs : list string) (d : dict V) :
  let d' := fold_left (fun d req => dict_set req v d) reqs d in
  (forall k, In k (dict_keys d') <-> In k (dict_keys d) \/ In k reqs) /\
  (NoDup (dict_keys d) -> NoDup (dict_keys d')) /\
  (forall k, In k reqs -> dict_get d' k = Some v) /\
  (forall k, ~ In k reqs -> dict_get d' k = dict_get d k).
Proof.
  revert d. induction reqs as [|x reqs IH]; intros d; simpl.
  - repeat split; try tauto.
  - destruct (IH (dict_set x v d)) as [H1 [H2 [H3 H4]]]. repeat split.
    + intros H. apply H1 in H. rewrite dict_keys_set_In in H. intuition.
    + intros H. apply H1. rewrite dict_keys_set_In. intuition.
    + intros H. now apply H2, dict_set_NoDup.
    + intros k [E|H]; [|now apply H3]. subst.
      destruct (in_dec string_dec k reqs) as [Hin|Hin]; [now apply H3|].
      rewrite (H4 k Hin), dict_get_set. now rewrite String.eqb_refl.
    + intros k H. rewrite H4 by tauto. rewrite dict_get_set.
      destruct (String.eqb_spec x k); [|reflexivity]. tauto.
Qed.

Lemma const_dict_entries {V} (v : V) (reqs : list string) (k : string) (v' : V) :
  In (k, v') (fold_left (fun d req => dict_set req v d) reqs []) ->
  In k reqs /\ v' = v.
Proof.
  intros H. destruct (const_dict_fold v reqs []) as [H1 [H2 [H3 _]]].
  assert (Hk : In k reqs).
  { apply (in_map fst) in H. apply H1 in H. simpl in H. tauto. }
  split; [assumption|].
  apply In_dict_get in H; [|apply H2; constructor].
  rewrite (H3 k Hk) in H. congruence.
Qed.

(** What [get_requirements] returns for a tool with requirements. *)
Lemma get_requirements_Some (self : Tool.t) :
  Tool.requirements (Tool.cls self) <> [] ->
  exists d,
    Tool.get_requirements self = Some d /\
    NoDup (dict_keys d) /\
    (forall name, In name (dict_keys d)
                  <-> In name (Tool.requirements (Tool.cls self))) /\
    (forall name, In name (Tool.requirements (Tool.cls self)) ->
       dict_get d name
       = Some (if Tool.options_enabled (Tool.cls self)
               then Some [Tool.option_ self] else None)).
Proof.
  intros Hne. unfold Tool.get_requirements.
  destruct (Tool.requirements (Tool.cls self)) as [|r rs] eqn:E; [congruence|].
  destruct (Tool.options_enabled (Tool.cls self)).
  - eexists. split; [reflexivity|].
    destruct (const_dict_fold (Some [Tool.option_ self]) (r :: rs) [])
      as [H1 [H2 [H3 _]]].
    repeat split; auto.
    + apply H2. constructor.
    + intros H. apply H1 in H. simpl in *. tauto.
    + intros H. apply H1. auto.
  - eexists. split; [reflexivity|].
    destruct (const_dict_fold (@None (list (option string))) (r :: rs) [])
      as [H1 [H2 [H3 _]]].
    repeat split; auto.
    + apply H2. constructor.
    + intros H. apply H1 in H. simpl in *. tauto.
    + intros H. apply H1. auto.
Qed.

(** The presence check of [Tool.build]. *)
Lemma presence_check (resource : dict Tool.t) (keys : list string) :
  match for_each
          (fun (_ : unit) requirement =>
             if negb (dict_mem requirement resource)
             then Raise (MissingRequirement requirement)
             else Ok tt) keys tt with
  | Ok _ => forall key, In key keys -> In key (dict_keys resource)
  | Raise e => exists key, e = MissingRequirement key /\ In key keys /\
                           ~ In key (dict_keys resource)
  end.
Proof.
  induction keys as [|k keys IH]; simpl.
  - intros key [].
  - destruct (dict_mem k resource) eqn:M; simpl.
    + apply dict_mem_In in M.
      destruct (for_each _ keys tt) as [u|e].
      * intros key [<-|H]; auto.
      * destruct IH as [key [H1 [H2 H3]]]. exists key. auto.
    + exists k. repeat split; auto.
      intros H. apply dict_mem_In in H. congruence.
Qed.

Lemma Tool_build_cases (self : Tool.t) (resource : dict Tool.t) :
  match Tool.build self resource with
  | Ok t =>
      t = Tool.Inst (Tool.cls self) (Tool.option_ self) resource /\
      forall key, In key (convert_to_unique_keys (Tool.get_requirements self)) ->
                  In key (dict_keys resource)
  | Raise e =>
      exists key, e = MissingRequirement key /\
        In key (convert_to_unique_keys (Tool.get_requirements self)) /\
        ~ In key (dict_keys resource)
  end.
Proof.
  unfold Tool.build.
  pose proof (presence_check resource
                (convert_to_unique_keys (Tool.get_requirements self))) as H.
  destruct (for_each _ _ tt) as [u|e]; simpl; auto.
Qed.

(** C8.  [Tool.build] raises the missing-requirement error exactly when
    some key of [convert_to_unique_keys (get_requirements ())] is not a
    key of the pool, it raises nothing else, and when no key is missing
    it succeeds and the instance holds the pool as its resources. *)
Theorem Tool_build_checks_presence (self : Tool.t) (resource : dict Tool.t) :
  ((exists key, Tool.build self resource = Raise (MissingRequirement key))
   <-> exists key,
         In key (convert_to_unique_keys (Tool.get_requirements self)) /\
         ~ In key (dict_keys resource)) /\
  (forall e, Tool.build self resource = Raise e ->
     exists key, e = MissingRequirement key /\
       In key (convert_to_unique_keys (Tool.get_requirements self)) /\
       ~ In key (dict_keys resource)) /\
  ((forall key, In key (convert_to_unique_keys (Tool.get_requirements self)) ->
                In key (dict_keys resource)) ->
   Tool.build self resource
   = Ok (Tool.Inst (Tool.cls self) (Tool.option_ self) resource)).
Proof.
  pose proof (Tool_build_cases self resource) as H.
  destruct (Tool.build self resource) as [t|e].
  - destruct H as [-> H]. repeat split.
    + intros [key E]. discriminate.
    + intros [key [H1 H2]]. exfalso. auto.
    + intros e E. discriminate.
  - destruct H as [key [-> [H1 H2]]]. repeat split.
    + intros _. eauto.
    + intros _. eauto.
    + intros e E. inversion E. eauto.
    + intros Hall. exfalso. auto.
Qed.

Lemma Tool_build_checks_presence_witness :
  Tool.build (Tool.Inst (Tool.Class ["raw"] false None None) None [])
             [("raw", Tool.Inst (Tool.Class [] false None None) None [])]
  = Ok (Tool.Inst (Tool.Class ["raw"] false None None) None
          [("raw", Tool.Inst (Tool.Class [] false None None) None [])]).
Proof.
  apply (proj2 (proj2 (Tool_build_checks_presence
           (Tool.Inst (Tool.Class ["raw"] false None None) None [])
           [("raw", Tool.Inst (Tool.Class [] false None None) None [])]))).
  simpl. tauto.
Defined.

(** C7 (as amended).  [get_requirements] returns [None], not an empty
    requirement set, when the tool has no requirement names; otherwise it
    returns a requirement set whose keys are exactly the requirement
    names, every entry being the one-element list of the tool's own
    option when [options_enabled] is set and [None] when it is not. *)
Theorem get_requirements_declared_needs (self : Tool.t) :
  (Tool.requirements (Tool.cls self) = [] -> Tool.get_requirements self = None) /\
  (Tool.requirements (Tool.cls self) <> [] ->
   exists d,
     Tool.get_requirements self = Some d /\
     NoDup (dict_keys d) /\
     (forall name, In name (dict_keys d)
                   <-> In name (Tool.requirements (Tool.cls self))) /\
     (forall name, In name (Tool.requirements (Tool.cls self)) ->
        dict_get d name
        = Some (if Tool.options_enabled (Tool.cls self)
                then Some [Tool.option_ self] else None))).
Proof.
  split.
  - intros H. unfold Tool.get_requirements. now rewrite H.
  - apply get_requirements_Some.
Qed.

Lemma get_requirements_declared_needs_witness :
  exists d,
    Tool.get_requirements
      (Tool.Inst (Tool.Class ["plans"; "attributes"] true None None) (Some "car") [])
    = Some d /\
    dict_get d "attributes" = Some (Some [Some "car"]).
Proof.
  destruct (proj2 (get_requirements_declared_needs
             (Tool.Inst (Tool.Class ["plans"; "attributes"] true None None)
                        (Some "car") [])))
    as [d [H1 [_ [_ H3]]]].
  - simpl. discriminate.
  - exists d. split; [exact H1|]. apply H3. simpl. auto.
Defined.

(** C7, the claim as the specification words it, fails: a tool without
    requirement names does not return the empty requirement set. *)
Lemma get_requirements_of_no_names :
  Tool.requirements (Tool.Class [] true None None) = [] /\
  Tool.get_requirements (Tool.Inst (Tool.Class [] true None None) (Some "car") [])
  <> Some [].
Proof. split; [reflexivity|discriminate]. Qed.

(** ** Tools built without an option *)

Lemma string_length_append (a b : string) :
  String.length (a ++ b)%string = String.length a + String.length b.
Proof. induction a as [|c a IH]; simpl; [reflexivity|now rewrite IH]. Qed.

Lemma exists_longest (l : list string) :
  l <> [] ->
  exists x, In x l /\ forall y, In y l -> String.length y <= String.length x.
Proof.
  induction l as [|a l IH]; [congruence|]. intros _.
  destruct l as [|b l].
  - exists a. split; [now left|]. intros y [<-|[]]. lia.
  - destruct IH as [x [Hx Hmax]]; [discriminate|].
    destruct (le_lt_dec (String.length a) (String.length x)).
    + exists x. split; [now right|]. intros y [<-|H]; auto.
    + exists a. split; [now left|]. intros y [<-|H]; [lia|].
      specialize (Hmax y H). lia.
Qed.

(** Some requirement name followed by [":None"] is not a requirement
    name. *)
Lemma none_key_outside (reqs : list string) :
  reqs <> [] -> exists name, In name reqs /\ ~ In (option_key name None) reqs.
Proof.
  intros H. destruct (exists_longest reqs H) as [x [Hx Hmax]].
  exists x. split; [assumption|]. intros Hin.
  specialize (Hmax _ Hin). unfold option_key in Hmax.
  rewrite string_length_append in Hmax. simpl in Hmax. lia.
Qed.

(** C10.  A tool with [options_enabled] and requirement names, built
    without an option, declares for every requirement name the
    one-element option list [[None]]; its unique keys are the
    requirement names followed by [":None"]; and its [build] raises the
    missing-requirement error on every pool that provides bare
    requirement names only. *)
Theorem optionless_tool_needs_None_keys (c : Tool.class) (self : Tool.t) :
  Tool.options_enabled c = true ->
  Tool.requirements c <> [] ->
  Tool.__init__ c None = Ok self ->
  (exists d,
      Tool.get_requirements self = Some d /\
      (forall name, In name (dict_keys d) <-> In name (Tool.requirements c)) /\
      (forall name, In name (Tool.requirements c) ->
                    dict_get d name = Some (Some [None]))) /\
  (forall key,
      In key (convert_to_unique_keys (Tool.get_requirements self))
      <-> exists name, In name (Tool.requirements c) /\
                       key = (name ++ ":None")%string) /\
  (forall resource : dict Tool.t,
      (forall k, In k (dict_keys resource) -> In k (Tool.requirements c)) ->
      exists name,
        In name (Tool.requirements c) /\
        Tool.build self resource
        = Raise (MissingRequirement (name ++ ":None")%string)).
Proof.
  intros Hen Hne Hinit.
  assert (Hself : Tool.cls self = c /\ Tool.option_ self = None).
  { unfold Tool.__init__ in Hinit.
    destruct (Tool._validate_option c None) as [o|] eqn:V; [|discriminate].
    simpl in Hinit. inversion Hinit. subst self. simpl. split; [reflexivity|].
    unfold Tool._validate_option in V.
    destruct (match Tool.valid_options c with
              | Some ((_ :: _) as l) =>
                  if negb (Tool.option_in None l)
                  then Raise (UnsupportedOption None) else Ok tt
              | _ => Ok tt
              end); [|discriminate].
    simpl in V.
    destruct (match Tool.invalid_options c with
              | Some ((_ :: _) as l) =>
                  if Tool.option_in None l
                  then Raise (InvalidOption None) else Ok tt
              | _ => Ok tt
              end); [|discriminate].
    simpl in V. congruence. }
  destruct Hself as [Hc Ho].
  destruct (get_requirements_Some self) as [d [Hd [ND [HK HV]]]];
    [now rewrite Hc|].
  rewrite Hc, Hen, Ho in *.
  assert (Hkeys : forall key,
             In key (convert_to_unique_keys (Tool.get_requirements self))
             <-> exists name, In name (Tool.requirements c) /\
                              key = (name ++ ":None")%string).
  { intros key. rewrite Hd, convert_to_unique_keys_In. split.
    - intros [name [v [Hin Hv]]].
      pose proof (in_map fst _ _ Hin) as Hn. apply HK in Hn.
      apply (In_dict_get _ _ _ ND) in Hin. rewrite (HV name Hn) in Hin.
      inversion Hin. subst v. destruct Hv as [o [[<-|[]] ->]]. eauto.
    - intros [name [Hn ->]]. exists name, (Some [None]). split.
      + apply dict_get_In. now apply HV.
      + exists None. split; [now left|reflexivity]. }
  split; [|split].
  - exists d. auto.
  - exact Hkeys.
  - intros resource Hsub.
    pose proof (Tool_build_cases self resource) as HB.
    destruct (Tool.build self resource) as [t|e].
    + exfalso. destruct HB as [_ HB].
      destruct (none_key_outside _ Hne) as [name [Hn Hout]].
      apply Hout, Hsub, HB, Hkeys. eauto.
    + destruct HB as [key [-> [H1 _]]]. apply Hkeys in H1.
      destruct H1 as [name [Hn ->]]. eauto.
Qed.

Lemma optionless_tool_needs_None_keys_witness :
  exists name,
    In name ["raw"] /\
    Tool.build (Tool.Inst (Tool.Class ["raw"] true None None) None [])
               [("raw", Tool.Inst (Tool.Class [] false None None) None [])]
    = Raise (MissingRequirement (name ++ ":None")%string).
Proof.
  apply (proj2 (proj2 (optionless_tool_needs_None_keys
           (Tool.Class ["raw"] true None None)
           (Tool.Inst (Tool.Class ["raw"] true None None) None [])
           eq_refl
           (fun H : ["raw"] = [] => eq_ind ["raw"]
              (fun l => match l with [] => False | _ => True end) I [] H)
           eq_refl))).
  simpl. tauto.
Defined.

(** ** The store *)

Lemma put_length (g : store) (i : nat) (w : WorkStation.t) :
  List.length (put g i w) = List.length g.
Proof.
  revert i. induction g as [|x g IH]; intros [|i]; simpl; auto.
Qed.

Lemma put_outside (g : store) (i : nat) (w : WorkStation.t) :
  List.length g <= i -> put g i w = g.
Proof.
  revert i. induction g as [|x g IH]; intros [|i]; simpl; auto; try lia.
  intros H. rewrite IH; [reflexivity|lia].
Qed.

Lemma station_put_same (g : store) (i : nat) (w : WorkStation.t) :
  i < List.length g -> station (put g i w) i = w.
Proof.
  unfold station. revert i. induction g as [|x g IH]; intros [|i]; simpl; try lia.
  - reflexivity.
  - intros H. apply IH. lia.
Qed.

Lemma station_put_other (g : store) (i j : nat) (w : WorkStation.t) :
  i <> j -> station (put g i w) j = station g j.
Proof.
  unfold station. revert i j.
  induction g as [|x g IH]; intros [|i] [|j]; simpl; auto; congruence.
Qed.

(** A field that the new station shares with the old one is unchanged
    all over the store. *)
Lemma station_put_field {A} (f : WorkStation.t -> A) (g : store) (i : nat)
      (w : WorkStation.t) :
  f w = f (station g i) -> forall j, f (station (put g i w) j) = f (station g j).
Proof.
  intros H j. destruct (Nat.eq_dec i j) as [<-|Hn].
  - destruct (le_lt_dec (List.length g) i).
    + now rewrite put_outside.
    + now rewrite station_put_same.
  - now rewrite station_put_other.
Qed.

(** ** [engage] *)

Lemma dict_update_app {V} (d l1 l2 : dict V) :
  dict_update d (l1 ++ l2) = dict_update (dict_update d l1) l2.
Proof. unfold dict_update. apply fold_left_app. Qed.

Lemma dict_update_keys {V} (d l : dict V) (k : string) :
  In k (dict_keys (dict_update d l)) <-> In k (dict_keys d) \/ In k (dict_keys l).
Proof.
  unfold dict_update. revert d. induction l as [|[k' v] l IH]; intros d; simpl.
  - tauto.
  - rewrite IH, dict_keys_set_In. intuition.
Qed.

Lemma dict_update_present {V} (d l : dict V) :
  (forall k, In k (dict_keys l) -> In k (dict_keys d)) ->
  dict_keys (dict_update d l) = dict_keys d.
Proof.
  unfold dict_update. revert d. induction l as [|[k v] l IH]; intros d H; simpl.
  - reflexivity.
  - rewrite IH.
    + apply dict_keys_set_present. apply H. now left.
    + intros k' Hk'. rewrite dict_keys_set_present by (apply H; now left).
      apply H. now right.
Qed.

Lemma uniform_Ok : uniform (fun acc => Ok acc).
Proof.
  exists (Ok []). intros [d a]. unfold instantiated. simpl.
  now rewrite app_nil_r.
Qed.

Lemma uniform_instantiate (tool : Tool.class) (key : string) (o : option string) :
  uniform (instantiate tool key o).
Proof.
  exists (inst <- Tool.__init__ tool o ;; Ok [(key, inst)]).
  intros acc. unfold instantiate.
  destruct (Tool.__init__ tool o); reflexivity.
Qed.

Lemma uniform_for_each {A}
      (body : dict Tool.t * list (option Reqs) -> A ->
              result (dict Tool.t * list (option Reqs)))
      (l : list A) :
  (forall a, uniform (fun acc => body acc a)) ->
  uniform (for_each body l).
Proof.
  intros H. induction l as [|a l IH].
  - apply uniform_Ok.
  - destruct (H a) as [ra Ha]. destruct IH as [rl Hl].
    exists (l1 <- ra ;; l2 <- rl ;; Ok (l1 ++ l2)).
    intros acc. simpl. rewrite Ha.
    destruct ra as [l1|e]; simpl; [|reflexivity].
    rewrite Hl. destruct rl as [l2|e]; simpl; [|reflexivity].
    unfold instantiated. simpl.
    now rewrite dict_update_app, map_app, app_assoc.
Qed.

Lemma uniform_engage_tools (tools : dict Tool.class) (manager_requirements : Reqs) :
  uniform (engage_tools tools manager_requirements).
Proof.
  unfold engage_tools.
  apply uniform_for_each. intros tool_entry.
  apply uniform_for_each. intros req_entry.
  destruct (String.eqb (fst req_entry) (fst tool_entry)); [|apply uniform_Ok].
  destruct (snd req_entry) as [[|o options]|].
  - apply uniform_instantiate.
  - apply (uniform_for_each
             (fun acc o => instantiate (snd tool_entry)
                                       (option_key (fst tool_entry) o) o acc)).
    intros a. apply uniform_instantiate.
  - apply uniform_instantiate.
Qed.

(** Running the tool loop again on its own result instantiates the same
    keys and gathers the same requirements. *)
Lemma engage_tools_again (tools : dict Tool.class) (manager_requirements : Reqs)
      (res res1 : dict Tool.t) (all1 : list (option Reqs)) :
  engage_tools tools manager_requirements (res, []) = Ok (res1, all1) ->
  exists res2,
    engage_tools tools manager_requirements (res1, []) = Ok (res2, all1) /\
    dict_keys res2 = dict_keys res1.
Proof.
  destruct (uniform_engage_tools tools manager_requirements) as [r Hr].
  rewrite !Hr. destruct r as [l|e]; simpl; [|discriminate].
  unfold instantiated. simpl. intros H. inversion H. subst. clear H.
  eexists. split; [reflexivity|].
  apply dict_update_present. intros k Hk.
  apply dict_update_keys. now right.
Qed.

Lemma fold_left_In_pointwise {A B} (f g : A -> B -> A) (l : list B) (a : A) :
  (forall a b, In b l -> f a b = g a b) -> fold_left f l a = fold_left g l a.
Proof.
  revert a. induction l as [|b l IH]; intros a H; simpl; [reflexivity|].
  rewrite H by now left. apply IH. intros a' b' Hb. apply H. now right.
Qed.

Section EngageFacts.
Context {names : SetIter string} {opts : SetIter (option string)}.

Lemma gather_manager_requirements_ext (g g' : store) (self : nat) :
  WorkStation.managers (station g' self) = WorkStation.managers (station g self) ->
  (forall m, In m (items (WorkStation.managers (station g self))) ->
     WorkStation.requirements (station g' m)
     = WorkStation.requirements (station g m)) ->
  gather_manager_requirements g' self = gather_manager_requirements g self.
Proof.
  intros HM HR. unfold gather_manager_requirements. rewrite HM. f_equal.
  apply fold_left_In_pointwise. intros a m Hm. now rewrite HR.
Qed.

Lemma clean_options_ext (g g' : store) (suppliers : option (list nat))
      (requirements : Reqs) :
  (forall s, WorkStation.tools (station g' s) = WorkStation.tools (station g s)) ->
  clean_options g' suppliers requirements = clean_options g suppliers requirements.
Proof.
  intros H. unfold clean_options.
  apply fold_left_pointwise. intros reqs entry.
  destruct (truthy suppliers && truthy (snd entry)); [|reflexivity].
  apply fold_left_pointwise. intros reqs' s. now rewrite H.
Qed.

(** [engage] touches the requirements and the resources of its own
    station only. *)
Lemma engage_frame (g g1 : store) (self : nat) :
  engage g self = Ok g1 ->
  (forall j, WorkStation.tools (station g1 j) = WorkStation.tools (station g j)) /\
  (forall j, WorkStation.managers (station g1 j)
             = WorkStation.managers (station g j)) /\
  (forall j, WorkStation.suppliers (station g1 j)
             = WorkStation.suppliers (station g j)) /\
  (forall j, j <> self -> station g1 j = station g j) /\
  List.length g1 = List.length g.
Proof.
  unfold engage. intros H.
  destruct (WorkStation.tools (station g self)) as [|t ts] eqn:ET.
  - inversion H. subst g1. clear H. repeat split.
    + intros j. now apply station_put_field.
    + intros j. now apply station_put_field.
    + intros j. now apply station_put_field.
    + intros j Hj. apply station_put_other. congruence.
    + apply put_length.
  - destruct (engage_tools _ _ _) as [acc|e]; [|discriminate].
    simpl in H. inversion H. subst g1. clear H. repeat split.
    + intros j. now apply station_put_field.
    + intros j. now apply station_put_field.
    + intros j. now apply station_put_field.
    + intros j Hj. apply station_put_other. congruence.
    + apply put_length.
Qed.

End EngageFacts.

(** C9.  Engaging a station a second time, when the first engagement
    left the requirement sets of its managers as they were, succeeds and
    leaves the station with the same requirement set and the same keys
    in its resource map. *)
Theorem engage_idempotent
        {names : SetIter string} {opts : SetIter (option string)}
        (g g1 : store) (self : nat) :
  engage g self = Ok g1 ->
  (forall m, In m (items (WorkStation.managers (station g self))) ->
     WorkStation.requirements (station g1 m)
     = WorkStation.requirements (station g m)) ->
  exists g2,
    engage g1 self = Ok g2 /\
    WorkStation.requirements (station g2 self)
    = WorkStation.requirements (station g1 self) /\
    dict_keys (WorkStation.resources (station g2 self))
    = dict_keys (WorkStation.resources (station g1 self)).
Proof.
  intros H1 HM.
  destruct (engage_frame g g1 self H1) as [HT [HMg [HS [_ HL]]]].
  pose proof (gather_manager_requirements_ext g g1 self (HMg self) HM) as HG.
  destruct (le_lt_dec (List.length g) self) as [Hout|Hin].
  - (* a reference outside the store: nothing is written *)
    assert (g1 = g).
    { unfold engage in H1.
      destruct (WorkStation.tools (station g self)).
      - inversion H1. now apply put_outside.
      - destruct (engage_tools _ _ _); [|discriminate].
        simpl in H1. inversion H1. now apply put_outside. }
    subst g1. eauto.
  - unfold engage in H1 |- *. rewrite HG, (HT self).
    destruct (WorkStation.tools (station g self)) as [|t ts] eqn:ET.
    + injection H1 as E. subst g1. eexists. split; [reflexivity|].
      rewrite !station_put_same by (rewrite ?put_length; exact Hin).
      split; reflexivity.
    + destruct (engage_tools (t :: ts) (gather_manager_requirements g self)
                             (WorkStation.resources (station g self), []))
        as [[res1 all1]|e] eqn:ETools; [|discriminate].
      simpl in H1. injection H1 as E.
      assert (Hws : station g1 self
                    = WorkStation.set_requirements
                        (WorkStation.set_resources (station g self) res1)
                        (clean_options g (WorkStation.suppliers (station g self))
                                       (combine_reqs all1))).
      { rewrite <- E. now apply station_put_same. }
      destruct (engage_tools_again _ _ _ _ _ ETools) as [res2 [ET2 HK]].
      assert (HR1 : WorkStation.resources (station g1 self) = res1)
        by (rewrite Hws; reflexivity).
      assert (HS1 : WorkStation.suppliers (station g1 self)
                    = WorkStation.suppliers (station g self)) by apply HS.
      rewrite HR1, HS1, ET2. simpl. eexists. split; [reflexivity|].
      rewrite station_put_same by (rewrite HL; exact Hin).
      rewrite Hws. simpl. split; [|exact HK].
      apply clean_options_ext. exact HT.
Qed.

Lemma engage_idempotent_witness :
  exists g1 g2,
    engage (names := names_by_insertion) (opts := options_by_insertion)
           Chain.demanding Chain.Mid = Ok g1 /\
    engage (names := names_by_insertion) (opts := options_by_insertion)
           g1 Chain.Mid = Ok g2 /\
    WorkStation.requirements (station g2 Chain.Mid) = [("raw", None)] /\
    dict_keys (WorkStation.resources (station g2 Chain.Mid)) = ["csv:car"].
Proof.
  eexists.
  destruct (engage_idempotent
              (names := names_by_insertion) (opts := options_by_insertion)
              Chain.demanding _ Chain.Mid eq_refl)
    as [g2 [H1 [H2 H3]]].
  - intros m [<-|[]]. reflexivity.
  - exists g2. split; [reflexivity|]. split; [exact H1|].
    split; [rewrite H2|rewrite H3]; reflexivity.
Defined.

(** ** The chain Root -> Mid -> Leaf *)

Section ChainRun.
Context {names : SetIter string} {opts : SetIter (option string)}.

Lemma combine_one_option (n : string) (o : option string) :
  combine_reqs [Some [(n, Some [o])]] = [(n, Some [o])].
Proof.
  rewrite combine_reqs_map.
  unfold tool_set_of, combined_entry, options_of, req_get.
  cbn [fold_left dict_keys map fst app dict_get].
  rewrite set_iter_single. cbn [map]. rewrite String.eqb_refl.
  cbn. now rewrite set_iter_single.
Qed.

Lemma combine_one_None (n : string) :
  combine_reqs [Some [(n, None)]] = [(n, None)].
Proof.
  rewrite combine_reqs_map.
  unfold tool_set_of, combined_entry, options_of, req_get.
  cbn [fold_left dict_keys map fst app dict_get].
  rewrite set_iter_single. cbn [map]. now rewrite String.eqb_refl.
Qed.

Lemma combine_no_requirements : combine_reqs [None] = [].
Proof. rewrite combine_reqs_map. cbn. now rewrite set_iter_nil. Qed.

Lemma chain_engage_Root :
  engage Chain.validated Chain.Root
  = Ok (put Chain.validated Chain.Root
            (WorkStation.set_requirements Chain.root [("csv", Some [Some "car"])])).
Proof.
  unfold engage, gather_manager_requirements.
  cbn -[combine_reqs]. now rewrite combine_one_option.
Qed.

Lemma chain_engage_Mid :
  engage (put Chain.validated Chain.Root
              (WorkStation.set_requirements Chain.root [("csv", Some [Some "car"])]))
         Chain.Mid
  = Ok (put (put Chain.validated Chain.Root
                 (WorkStation.set_requirements Chain.root
                                               [("csv", Some [Some "car"])]))
            Chain.Mid
            (WorkStation.set_requirements
               (WorkStation.set_resources
                  (WorkStation.set_depth Chain.mid 1)
                  [("csv:car", Tool.Inst Chain.csv (Some "car") [])])
               [("raw", None)])).
Proof.
  unfold engage, gather_manager_requirements.
  cbn -[combine_reqs]. rewrite combine_one_option.
  cbn -[combine_reqs]. rewrite combine_one_option.
  reflexivity.
Qed.

Lemma chain_engage_Leaf :
  engage (put (put Chain.validated Chain.Root
                   (WorkStation.set_requirements Chain.root
                                                 [("csv", Some [Some "car"])]))
              Chain.Mid
              (WorkStation.set_requirements
                 (WorkStation.set_resources
                    (WorkStation.set_depth Chain.mid 1)
                    [("csv:car", Tool.Inst Chain.csv (Some "car") [])])
                 [("raw", None)]))
         Chain.Leaf
  = Ok Chain.engaged.
Proof.
  unfold engage, gather_manager_requirements.
  cbn -[combine_reqs]. rewrite combine_one_None.
  cbn -[combine_reqs]. rewrite combine_no_requirements.
  reflexivity.
Qed.

(** Rewrite the next call of [engage] with the equation [H], whose
    store is the one of the goal once evaluated. *)
Ltac engage_step H :=
  match goal with
  | |- context [engage ?g ?i] =>
      match type of H with
      | engage ?g' ?i' = _ => change (engage g i) with (engage g' i'); rewrite H
      end
  end.

Lemma chain_engage_pass :
  engage_pass (depth_bound Chain.validated) Chain.validated
              [Chain.Root] [Chain.Root]
  = Some (Ok (Chain.engaged, [Chain.Root; Chain.Mid; Chain.Leaf])).
Proof.
  unfold depth_bound. cbn [List.length Nat.add Chain.validated].
  cbn [engage_pass]. rewrite chain_engage_Root.
  cbn -[engage engage_pass]. cbn [engage_pass]. engage_step chain_engage_Mid.
  cbn -[engage engage_pass]. cbn [engage_pass]. engage_step chain_engage_Leaf.
  reflexivity.
Qed.

End ChainRun.

(** C1.  The run of the driver on the chain Root -> Mid -> Leaf, for
    every iteration order of sets.  Validation passes; the engagement
    pass visits Root, Mid, Leaf; Mid instantiates exactly ["csv:car"];
    Mid's requirements are [{"raw": ["car"]}] before the clean-up and
    [{"raw": None}] after it; Leaf instantiates exactly ["raw"].  In the
    build pass Leaf is built, and then the build of Mid raises the
    missing-requirement error: its tool [csv:car] still asks for the key
    ["raw:car"] while Leaf offers ["raw"].  Root is never built and the
    driver ends with that error. *)
Theorem chain_run {names : SetIter string} {opts : SetIter (option string)} :
  validate Chain.graph Chain.Root = Some (Ok Chain.validated) /\
  engage_pass (depth_bound Chain.validated) Chain.validated
              [Chain.Root] [Chain.Root]
  = Some (Ok (Chain.engaged, [Chain.Root; Chain.Mid; Chain.Leaf])) /\
  dict_keys (WorkStation.resources (station Chain.engaged Chain.Mid))
  = ["csv:car"] /\
  combine_reqs [Tool.get_requirements (Tool.Inst Chain.csv (Some "car") [])]
  = [("raw", Some [Some "car"])] /\
  WorkStation.requirements (station Chain.engaged Chain.Mid) = [("raw", None)] /\
  dict_keys (WorkStation.resources (station Chain.engaged Chain.Leaf))
  = ["raw"] /\
  WorkStation_build Chain.engaged Chain.Leaf = Ok Chain.engaged /\
  WorkStation_build Chain.engaged Chain.Mid = Raise (MissingRequirement "raw:car") /\
  build Chain.graph Chain.Root = Some (Raise (MissingRequirement "raw:car")).
Proof.
  repeat split; try reflexivity.
  - apply chain_engage_pass.
  - apply combine_one_option.
  - unfold build.
    change (validate Chain.graph Chain.Root) with (Some (Ok Chain.validated)).
    cbv iota beta. rewrite chain_engage_pass. reflexivity.
Qed.

Lemma chain_run_witness :
  build (names := names_by_insertion) (opts := options_by_insertion)
        Chain.graph Chain.Root
  = Some (Raise (MissingRequirement "raw:car")).
Proof.
  apply (chain_run (names := names_by_insertion) (opts := options_by_insertion)).
Defined.

(** ** Graph validation *)

(** Whatever station [is_cyclic] returns is the start itself or one of
    its direct suppliers: the station found deeper in the walk is
    replaced, on the way back, by the supplier the walk went through. *)
Lemma cyclic_suppliers_returns
      (visit : nat -> marks -> option (visited_result * marks))
      (vertex : nat) (suppliers : list nat) (m m' : marks) (w : nat) :
  cyclic_suppliers visit vertex suppliers m = Some (RStation w, m') ->
  In w suppliers.
Proof.
  revert m. induction suppliers as [|s rest IH]; intros m; simpl.
  - discriminate.
  - destruct (mem s (path m)).
    + intros H. inversion H. now left.
    + destruct (visit s m) as [[r m1]|]; [|discriminate].
      destruct (is_true r).
      * intros H. inversion H. now left.
      * intros H. right. eapply IH. exact H.
Qed.

Lemma is_cyclic_returns_direct_supplier (g : store) (start w : nat) :
  is_cyclic g start = Some (RStation w) ->
  In w (items (WorkStation.suppliers (station g start))).
Proof.
  unfold is_cyclic, depth_bound. simpl.
  destruct (cyclic_suppliers _ _ _ _) as [[r m]|] eqn:E; [|discriminate].
  intros H. inversion H. subst r.
  eapply cyclic_suppliers_returns. exact E.
Qed.

(** C3.  On the graph Root -> A -> B -> C -> B the walk of [is_cyclic]
    meets B again while B is on its path, in the frame of C, which
    returns B; but each frame above returns its own supplier, and
    [is_cyclic] reports A, the supplier of Root, and so does the
    driver. *)
Theorem is_cyclic_reports_first_supplier :
  cyclic_suppliers (cyclic_visit 2 Cycle.graph) Cycle.C [Cycle.B]
                   (Marks [Cycle.C; Cycle.B; Cycle.A; Cycle.Root]
                          [Cycle.C; Cycle.B; Cycle.A; Cycle.Root])
  = Some (RStation Cycle.B,
          Marks [Cycle.C; Cycle.B; Cycle.A; Cycle.Root]
                [Cycle.C; Cycle.B; Cycle.A; Cycle.Root]) /\
  is_cyclic Cycle.graph Cycle.Root = Some (RStation Cycle.A) /\
  is_broken Cycle.graph Cycle.Root = Some None /\
  validate Cycle.graph Cycle.Root = Some (Raise (CyclicDependency Cycle.A)).
Proof. repeat split; reflexivity. Qed.

Lemma broken_suppliers_returns
      (visit : nat -> list nat -> option (option nat * list nat))
      (g : store) (vertex : nat) (suppliers : list nat)
      (visited visited' : list nat) (w : nat) :
  broken_suppliers visit g vertex suppliers visited = Some (Some w, visited') ->
  In w suppliers.
Proof.
  revert visited. induction suppliers as [|s rest IH]; intros visited; simpl.
  - discriminate.
  - destruct (mem s visited).
    + intros H. right. eapply IH. exact H.
    + destruct (broken_link g vertex s).
      * intros H. inversion H. now left.
      * destruct (visit s visited) as [[[x|] v1]|]; [| |discriminate].
        -- intros H. inversion H. now left.
        -- intros H. right. eapply IH. exact H.
Qed.

(** Whatever station [is_broken] returns is a direct supplier of the
    start. *)
Lemma is_broken_returns_direct_supplier (g : store) (start w : nat) :
  is_broken g start = Some (Some w) ->
  In w (items (WorkStation.suppliers (station g start))).
Proof.
  unfold is_broken, depth_bound. simpl.
  destruct (broken_suppliers _ _ _ _ _) as [[r v]|] eqn:E; [|discriminate].
  intros H. inversion H. subst r.
  eapply broken_suppliers_returns. exact E.
Qed.

(** C4.  Two graphs with a one-sided edge on which [is_broken] does not
    report the offending supplier.  In Root -> A -> B, B does not list A
    among its managers: the frame of A returns B, but [is_broken]
    reports A, whose own link to Root is sound.  In Root -> A, Root -> B,
    B -> A, A does not list B: A was visited before the edge B -> A is
    looked at, the edge is skipped and nothing is reported. *)
Theorem is_broken_misreports :
  (broken_link Broken.deep Broken.A Broken.B = true /\
   broken_link Broken.deep Broken.Root Broken.A = false /\
   broken_visit 2 Broken.deep Broken.A [Broken.Root]
   = Some (Some Broken.B, [Broken.A; Broken.Root]) /\
   is_broken Broken.deep Broken.Root = Some (Some Broken.A) /\
   validate Broken.deep Broken.Root
   = Some (Raise (BrokenDependency Broken.A))) /\
  (broken_link Broken.shared Broken.B Broken.A = true /\
   In Broken.A (items (WorkStation.suppliers (station Broken.shared Broken.B))) /\
   is_cyclic Broken.shared Broken.Root = Some RNone /\
   is_broken Broken.shared Broken.Root = Some None).
Proof. repeat split; try reflexivity. simpl. auto. Qed.

(** ** Validation of sound graphs *)

Lemma mem_In (i : nat) (l : list nat) : mem i l = true <-> In i l.
Proof.
  unfold mem. rewrite existsb_exists. split.
  - intros [x [H E]]. apply Nat.eqb_eq in E. now subst.
  - intros H. exists i. split; [assumption|apply Nat.eqb_refl].
Qed.

Lemma mem_false (i : nat) (l : list nat) : mem i l = false <-> ~ In i l.
Proof.
  rewrite <- mem_In. destruct (mem i l); split; congruence.
Qed.

Lemma set_add_fresh (i : nat) (s : list nat) : ~ In i s -> set_add i s = i :: s.
Proof. intros H. unfold set_add. apply mem_false in H. now rewrite H. Qed.

Lemma set_remove_fresh (i : nat) (s : list nat) :
  ~ In i s -> set_remove i (i :: s) = s.
Proof.
  intros H. unfold set_remove. simpl. rewrite Nat.eqb_refl. simpl.
  induction s as [|x s IH]; simpl; [reflexivity|].
  destruct (Nat.eqb_spec i x).
  - subst. exfalso. apply H. now left.
  - simpl. f_equal. apply IH. intros Hin. apply H. now right.
Qed.

(** Only a station of the store has suppliers. *)
Lemma suppliers_inside (g : store) (u v : nat) : edge g u v -> u < List.length g.
Proof.
  unfold edge, station. intros H.
  destruct (le_lt_dec (List.length g) u) as [Hout|]; [|assumption].
  rewrite nth_overflow in H by assumption. destruct H.
Qed.

Lemma inside_bound (g : store) (marked : list nat) :
  NoDup marked -> List.length (inside g marked) <= List.length g.
Proof.
  intros ND. rewrite <- (length_seq (List.length g) 0).
  apply NoDup_incl_length.
  - now apply NoDup_filter.
  - intros x Hx. apply filter_In in Hx. destruct Hx as [_ Hx].
    apply Nat.ltb_lt in Hx. apply in_seq. lia.
Qed.

Lemma inside_mono (g : store) (marked marked' : list nat) :
  NoDup marked -> incl marked marked' ->
  List.length (inside g marked) <= List.length (inside g marked').
Proof.
  intros ND Hincl. apply NoDup_incl_length.
  - now apply NoDup_filter.
  - intros x Hx. apply filter_In in Hx. destruct Hx as [H1 H2].
    apply filter_In. auto.
Qed.

Lemma inside_cons (g : store) (i : nat) (marked : list nat) :
  i < List.length g ->
  List.length (inside g (i :: marked)) = S (List.length (inside g marked)).
Proof.
  intros H. unfold inside. simpl. apply Nat.ltb_lt in H. now rewrite H.
Qed.

(** The recursion budget suffices for one more station with suppliers:
    the marked stations are distinct stations of the store. *)
Lemma budget_step (g : store) (fuel vertex : nat) (marked marked' : list nat) :
  List.length g + 2 <= S fuel + List.length (inside g marked) ->
  vertex < List.length g -> ~ In vertex marked -> NoDup marked ->
  incl (vertex :: marked) marked' ->
  List.length g + 2 <= fuel + List.length (inside g marked').
Proof.
  intros HB Hv Hn ND Hincl.
  assert (NoDup (vertex :: marked)) by now constructor.
  pose proof (inside_mono g _ _ H Hincl) as HM.
  rewrite (inside_cons g vertex marked Hv) in HM. lia.
Qed.

Section SoundGraph.
Variables (g : store) (start : nat).
Hypothesis Hacyclic : acyclic_from g start.
Hypothesis Hlinks : link_consistent_from g start.

Lemma reachable_step (u v : nat) : reachable g start u -> edge g u v -> reachable g start v.
Proof.
  intros H E. eapply rt_trans; [exact H|]. now apply rt_step.
Qed.

(** On the way down, a supplier of the current vertex is never on the
    path: the path leads to the vertex. *)
Lemma supplier_off_path (vertex s : nat) (p : list nat) :
  reachable g start vertex ->
  (forall x, In x p -> clos_trans nat (edge g) x vertex) ->
  edge g vertex s -> ~ In s (vertex :: p).
Proof.
  intros HR HP HE [<-|Hin].
  - apply (Hacyclic vertex HR). now apply t_step.
  - apply (Hacyclic vertex HR).
    eapply t_trans; [apply t_step; exact HE|]. now apply HP.
Qed.

(** The walk of [is_cyclic] on an acyclic graph: every call returns a
    false value within the budget, with the path as it found it. *)
Lemma cyclic_visit_sound (fuel : nat) :
  forall (vertex : nat) (m : marks),
    reachable g start vertex ->
    (forall x, In x (path m) -> clos_trans nat (edge g) x vertex) ->
    incl (path m) (visited m) -> NoDup (visited m) ->
    List.length g + 2 <= fuel + List.length (inside g (visited m)) ->
    exists m',
      cyclic_visit fuel g vertex m
      = Some (if mem vertex (visited m) then RFalse else RNone, m') /\
      path m' = path m /\ incl (visited m) (visited m') /\ NoDup (visited m').
Proof.
  induction fuel as [|fuel IH]; intros vertex m HR HP Hincl ND HB.
  - pose proof (inside_bound g (visited m) ND). lia.
  - cbn [cyclic_visit]. destruct (mem vertex (visited m)) eqn:Hmem.
    + exists m. repeat split; auto. apply incl_refl.
    + apply mem_false in Hmem.
      assert (Hpath : ~ In vertex (path m)) by (intros H; apply Hmem, Hincl, H).
      rewrite (set_add_fresh _ _ Hmem), (set_add_fresh _ _ Hpath).
      assert (Hloop : forall suppliers m2,
                 (forall s, In s suppliers -> edge g vertex s) ->
                 path m2 = vertex :: path m ->
                 incl (path m2) (visited m2) -> NoDup (visited m2) ->
                 incl (vertex :: visited m) (visited m2) ->
                 exists m',
                   cyclic_suppliers (cyclic_visit fuel g) vertex suppliers m2
                   = Some (RNone, m') /\
                   path m' = path m /\ incl (visited m2) (visited m') /\
                   NoDup (visited m')).
      { induction suppliers as [|s rest IHs]; intros m2 HE Hp2 Hi2 ND2 Hv2.
        - simpl. eexists. split; [reflexivity|]. simpl.
          rewrite Hp2, (set_remove_fresh _ _ Hpath).
          repeat split; auto. apply incl_refl.
        - assert (Es : edge g vertex s) by (apply HE; now left).
          cbn [cyclic_suppliers].
          assert (Hoff : mem s (path m2) = false).
          { apply mem_false. rewrite Hp2.
            now apply (supplier_off_path vertex s (path m) HR HP). }
          rewrite Hoff.
          destruct (IH s m2) as [m3 [Hv [Hp3 [Hi3 ND3]]]]; auto.
          + now apply (reachable_step vertex).
          + intros x Hx. rewrite Hp2 in Hx. destruct Hx as [<-|Hx].
            * now apply t_step.
            * eapply t_trans; [now apply HP|now apply t_step].
          + apply (budget_step g fuel vertex (visited m)); auto.
            now apply (suppliers_inside g vertex s).
          + rewrite Hv.
            assert (Hfalse : is_true (if mem s (visited m2) then RFalse else RNone)
                             = false) by now destruct (mem s (visited m2)).
            rewrite Hfalse.
            destruct (IHs m3) as [m' [Hl [Hp' [Hi' ND']]]]; auto.
            * intros s' Hs'. apply HE. now right.
            * congruence.
            * rewrite Hp3. eapply incl_tran; eauto.
            * eapply incl_tran; eauto.
            * exists m'. repeat split; auto. eapply incl_tran; eauto. }
      destruct (Hloop (items (WorkStation.suppliers (station g vertex)))
                      (Marks (vertex :: path m) (vertex :: visited m)))
        as [m' [Hl [Hp' [Hi' ND']]]]; simpl; auto.
      * now apply incl_cons; [left|apply incl_tl].
      * now constructor.
      * apply incl_refl.
      * exists m'. repeat split; auto.
        eapply incl_tran; [|exact Hi']. simpl. apply incl_tl, incl_refl.
Qed.

Lemma is_cyclic_sound : is_cyclic g start = Some RNone.
Proof.
  unfold is_cyclic, depth_bound.
  destruct (cyclic_visit_sound (2 + List.length g) start (Marks [] []))
    as [m' [Hv _]]; simpl; auto.
  - apply rt_refl.
  - intros x [].
  - apply incl_refl.
  - constructor.
  - lia.
  - simpl in Hv. now rewrite Hv.
Qed.

(** The walk of [is_broken] on a link-consistent graph: every call
    returns [None] within the budget. *)
Lemma broken_visit_sound (fuel : nat) :
  forall (vertex : nat) (marked : list nat),
    reachable g start vertex -> ~ In vertex marked -> NoDup marked ->
    List.length g + 2 <= fuel + List.length (inside g marked) ->
    exists marked',
      broken_visit fuel g vertex marked = Some (None, marked') /\
      incl (vertex :: marked) marked' /\ NoDup marked'.
Proof.
  induction fuel as [|fuel IH]; intros vertex marked HR Hfresh ND HB.
  - pose proof (inside_bound g marked ND). lia.
  - cbn [broken_visit]. rewrite (set_add_fresh _ _ Hfresh).
    assert (Hloop : forall suppliers m2,
               (forall s, In s suppliers -> edge g vertex s) ->
               NoDup m2 -> incl (vertex :: marked) m2 ->
               exists m',
                 broken_suppliers (broken_visit fuel g) g vertex suppliers m2
                 = Some (None, m') /\ incl m2 m' /\ NoDup m').
    { induction suppliers as [|s rest IHs]; intros m2 HE ND2 Hi2.
      - simpl. exists m2. repeat split; auto. apply incl_refl.
      - assert (Es : edge g vertex s) by (apply HE; now left).
        cbn [broken_suppliers]. destruct (mem s m2) eqn:Hmem.
        + apply IHs; auto. intros s' Hs'. apply HE. now right.
        + rewrite (Hlinks vertex s HR Es).
          apply mem_false in Hmem.
          destruct (IH s m2) as [m3 [Hv [Hi3 ND3]]]; auto.
          * now apply (reachable_step vertex).
          * apply (budget_step g fuel vertex marked); auto.
            now apply (suppliers_inside g vertex s).
          * rewrite Hv.
            destruct (IHs m3) as [m' [Hl [Hi' ND']]]; auto.
            -- intros s' Hs'. apply HE. now right.
            -- eapply incl_tran; [exact Hi2|].
               eapply incl_tran; [|exact Hi3]. apply incl_tl, incl_refl.
            -- exists m'. repeat split; auto.
               eapply incl_tran; [|exact Hi'].
               eapply incl_tran; [|exact Hi3]. apply incl_tl, incl_refl. }
    destruct (Hloop (items (WorkStation.suppliers (station g vertex)))
                    (vertex :: marked))
      as [m' [Hl [Hi' ND']]]; auto.
    + now constructor.
    + apply incl_refl.
    + exists m'. auto.
Qed.

Lemma is_broken_sound : is_broken g start = Some None.
Proof.
  unfold is_broken, depth_bound.
  destruct (broken_visit_sound (2 + List.length g) start [])
    as [m' [Hv _]]; simpl; auto.
  - apply rt_refl.
  - constructor.
  - lia.
  - simpl in Hv. now rewrite Hv.
Qed.

(** The walk of [build_graph_depth] on an acyclic graph ends within the
    budget: the stations it is in the middle of are distinct. *)
Lemma build_graph_depth_sound (fuel : nat) :
  forall (node depth : nat) (s : store * list nat) (stack : list nat),
    reachable g start node ->
    (forall x, In x stack -> clos_trans nat (edge g) x node) ->
    NoDup stack ->
    (forall v, WorkStation.suppliers (station (fst s) v)
               = WorkStation.suppliers (station g v)) ->
    List.length g + 2 <= fuel + List.length stack ->
    exists s',
      build_graph_depth fuel node depth s = Some s' /\
      (forall v, WorkStation.suppliers (station (fst s') v)
                 = WorkStation.suppliers (station g v)).
Proof.
  induction fuel as [|fuel IH]; intros node depth s stack HR HP ND HS HB.
  - assert (List.length stack <= List.length g); [|lia].
    rewrite <- (length_seq (List.length g) 0).
    apply NoDup_incl_length; [assumption|].
    intros x Hx. apply in_seq.
    destruct (clos_trans_t1n _ _ _ _ (HP x Hx)) as [y E|y z E _];
      apply suppliers_inside in E; lia.
  - cbn [build_graph_depth fst snd].
    assert (Hloop : forall suppliers s2,
               (forall x, In x suppliers -> edge g node x) ->
               (forall v, WorkStation.suppliers (station (fst s2) v)
                          = WorkStation.suppliers (station g v)) ->
               exists s',
                 depth_suppliers (build_graph_depth fuel) (depth + 1) suppliers s2
                 = Some s' /\
                 (forall v, WorkStation.suppliers (station (fst s') v)
                            = WorkStation.suppliers (station g v))).
    { induction suppliers as [|x rest IHs]; intros s2 HE HS2.
      - simpl. eauto.
      - assert (Ex : edge g node x) by (apply HE; now left).
        cbn [depth_suppliers].
        set (g1 := if WorkStation.depth (station (fst s2) x) <? depth + 1
                   then put (fst s2) x
                            (WorkStation.set_depth (station (fst s2) x) (depth + 1))
                   else fst s2).
        assert (HS1 : forall v, WorkStation.suppliers (station g1 v)
                                = WorkStation.suppliers (station g v)).
        { intros v. unfold g1.
          destruct (WorkStation.depth (station (fst s2) x) <? depth + 1); auto.
          rewrite (station_put_field WorkStation.suppliers); auto. }
        destruct (IH x (depth + 1) (g1, snd s2) (node :: stack))
          as [s3 [Hv HS3]]; auto.
        + now apply (reachable_step node).
        + intros y [<-|Hy].
          * now apply t_step.
          * eapply t_trans; [now apply HP|now apply t_step].
        + constructor; [|assumption]. intros Hin.
          apply (Hacyclic node HR). now apply HP.
        + simpl. lia.
        + rewrite Hv. apply IHs; auto. intros y Hy. apply HE. now right. }
    rewrite HS.
    destruct (WorkStation.suppliers (station g node)) as [[|x l]|] eqn:E.
    + eauto.
    + apply Hloop; auto. intros y Hy. unfold edge. now rewrite E.
    + eauto.
Qed.

(** On every graph that is acyclic along the supplier edges and
    link-consistent, the validation of the driver reports no fault. *)
Lemma validate_sound_graph : exists g', validate g start = Some (Ok g').
Proof.
  unfold validate. rewrite is_cyclic_sound, is_broken_sound.
  destruct (build_graph_depth_sound (depth_bound g) start 0 (g, []) [])
    as [s' [Hv _]]; auto.
  - apply rt_refl.
  - intros x [].
  - constructor.
  - unfold depth_bound. simpl. lia.
  - rewrite Hv. eauto.
Qed.

End SoundGraph.

(** A graph whose supplier edges go down a rank is acyclic. *)
Lemma ranked_acyclic (g : store) (rank : nat -> nat) (start : nat) :
  (forall u v, edge g u v -> rank v < rank u) -> acyclic_from g start.
Proof.
  intros H v _ Hc.
  assert (Hlt : forall a b, clos_trans nat (edge g) a b -> rank b < rank a).
  { induction 1 as [a b E|a b c _ IH1 _ IH2]; [now apply H|lia]. }
  specialize (Hlt v v Hc). lia.
Qed.

Lemma chain_edges (u v : nat) :
  edge Chain.graph u v ->
  (u = Chain.Root /\ v = Chain.Mid) \/ (u = Chain.Mid /\ v = Chain.Leaf).
Proof.
  unfold edge, station.
  destruct u as [|[|[|[|u]]]]; simpl; try tauto.
  - intros [<-|[]]. now left.
  - intros [<-|[]]. now right.
  - destruct u; simpl; tauto.
Qed.

(** The chain Root -> Mid -> Leaf is acyclic and link-consistent, and
    its validation passes. *)
Lemma chain_is_sound :
  acyclic_from Chain.graph Chain.Root /\
  link_consistent_from Chain.graph Chain.Root /\
  exists g', validate Chain.graph Chain.Root = Some (Ok g').
Proof.
  assert (HA : acyclic_from Chain.graph Chain.Root).
  { apply (ranked_acyclic _ (fun i => 4 - i)).
    intros u v E. apply chain_edges in E.
    destruct E as [[-> ->]|[-> ->]]; unfold Chain.Root, Chain.Mid, Chain.Leaf; lia. }
  assert (HL : link_consistent_from Chain.graph Chain.Root).
  { intros u v _ E. apply chain_edges in E.
    destruct E as [[-> ->]|[-> ->]]; reflexivity. }
  split; [exact HA|]. split; [exact HL|].
  now apply validate_sound_graph.
Qed.

(** * Further properties of the engine *)

(** ** Construction of tools *)

Lemma option_in_In (o : option string) (l : list (option string)) :
  Tool.option_in o l = true <-> In o l.
Proof.
  unfold Tool.option_in. rewrite existsb_exists. split.
  - intros [x [H E]]. apply opt_eqb_eq in E. now subst.
  - intros H. exists o. split; [assumption|now apply opt_eqb_eq].
Qed.

(** X1.  [Tool.__init__] validates the option: it stores an option that
    passes the allow-list and is not on the deny-list, with no
    resources; it raises the unsupported-option warning when the option
    fails the allow-list, whatever the deny-list says; and the
    invalid-option warning when the option passes the allow-list but is
    on the deny-list.  An absent or empty list checks nothing. *)
Theorem Tool_init_validates_option (c : Tool.class) (o : option string) :
  (allowed c o -> ~ denied c o -> Tool.__init__ c o = Ok (Tool.Inst c o [])) /\
  (~ allowed c o -> Tool.__init__ c o = Raise (UnsupportedOption o)) /\
  (allowed c o -> denied c o -> Tool.__init__ c o = Raise (InvalidOption o)) /\
  (forall t, Tool.__init__ c o = Ok t -> t = Tool.Inst c o []).
Proof.
  assert (HV : match Tool.valid_options c with
               | Some ((_ :: _) as l) =>
                   if negb (Tool.option_in o l)
                   then Raise (UnsupportedOption o) else Ok tt
               | _ => Ok tt
               end
               = Ok tt <-> allowed c o).
  { unfold allowed. destruct (Tool.valid_options c) as [[|v vs]|]; try tauto.
    rewrite <- option_in_In.
    destruct (Tool.option_in o (v :: vs)); simpl; split; congruence. }
  assert (HD : match Tool.invalid_options c with
               | Some ((_ :: _) as l) =>
                   if Tool.option_in o l
                   then Raise (InvalidOption o) else Ok tt
               | _ => Ok tt
               end
               = Ok tt <-> ~ denied c o).
  { unfold denied. destruct (Tool.invalid_options c) as [[|d ds]|]; try tauto.
    rewrite <- option_in_In.
    destruct (Tool.option_in o (d :: ds)); simpl; split; congruence. }
  unfold Tool.__init__, Tool._validate_option.
  destruct (match Tool.valid_options c with
            | Some ((_ :: _) as l) =>
                if negb (Tool.option_in o l)
                then Raise (UnsupportedOption o) else Ok tt
            | _ => Ok tt
            end) as [[]|e] eqn:EV.
  - destruct (match Tool.invalid_options c with
              | Some ((_ :: _) as l) =>
                  if Tool.option_in o l
                  then Raise (InvalidOption o) else Ok tt
              | _ => Ok tt
              end) as [[]|e] eqn:ED; simpl.
    + repeat split; try tauto; try congruence.
    + assert (e = InvalidOption o).
      { destruct (Tool.invalid_options c) as [[|d ds]|]; try discriminate.
        destruct (Tool.option_in o (d :: ds)); congruence. }
      subst e. repeat split; try congruence.
      * intros _ H. apply HD in H. discriminate.
      * intros H. exfalso. apply H, HV. reflexivity.
  - assert (e = UnsupportedOption o).
    { destruct (Tool.valid_options c) as [[|v vs]|]; try discriminate.
      destruct (Tool.option_in o (v :: vs)); simpl in EV; congruence. }
    subst e. simpl.
    assert (~ allowed c o) by (intros H; apply HV in H; discriminate).
    repeat split; try tauto; try congruence.
Qed.

Lemma Tool_init_validates_option_witness :
  Tool.__init__ (Tool.Class ["plans"] false (Some [Some "car"; Some "bus"])
                            (Some [Some "bus"])) (Some "car")
  = Ok (Tool.Inst (Tool.Class ["plans"] false (Some [Some "car"; Some "bus"])
                              (Some [Some "bus"])) (Some "car") []).
Proof.
  apply (proj1 (Tool_init_validates_option _ _)).
  - unfold allowed. simpl. auto.
  - unfold denied. simpl. intros [H|[]]. discriminate.
Defined.

(** ** [equals] as an equivalence *)

Lemma same_option_list_sym (v1 v2 : option (list (option string))) :
  same_option_list v1 v2 -> same_option_list v2 v1.
Proof. destruct v1, v2; simpl; auto. apply Permutation_sym. Qed.

Lemma same_option_list_trans (v1 v2 v3 : option (list (option string))) :
  same_option_list v1 v2 -> same_option_list v2 v3 -> same_option_list v1 v3.
Proof. destruct v1, v2, v3; simpl; try tauto. apply Permutation_trans. Qed.

(** X2.  On dictionaries, [equals] behaves as an equivalence wherever it
    answers [True]: it is symmetric and transitive, and a dictionary
    whose options are strings equals itself. *)
Theorem equals_is_equivalence (a b c : Reqs) :
  NoDup (dict_keys a) -> NoDup (dict_keys b) -> NoDup (dict_keys c) ->
  (str_options a -> equals a a = Ok true) /\
  (equals a b = Ok true -> equals b a = Ok true) /\
  (equals a b = Ok true -> equals b c = Ok true -> equals a c = Ok true).
Proof.
  intros Ha Hb Hc. split; [|split].
  - intros Hs. apply equals_decides; auto. split; [tauto|].
    intros k v1 G. exists v1. split; [assumption|]. split.
    + destruct v1; simpl; auto.
    + destruct v1 as [l|]; [|exact I]. apply str_list_sortable.
      intros o Ho. apply (Hs k l o); [|assumption]. now apply dict_get_In.
  - intros H. apply equals_decides in H; auto. destruct H as [HK HV].
    apply equals_decides; auto. split; [intros k; symmetry; apply HK|].
    intros k v1 G.
    destruct (In_keys_get k a) as [v0 G0];
      [apply HK; eapply dict_get_keys; eauto|].
    destruct (HV k v0 G0) as [v2 [G2 [S1 S2]]].
    rewrite G in G2. inversion G2. subst v2. exists v0.
    split; [assumption|]. split; [now apply same_option_list_sym|].
    destruct v1 as [l1|], v0 as [l0|]; simpl in *; try tauto.
    eapply sortable_perm; eauto.
  - intros H1 H2. apply equals_decides in H1, H2; auto.
    destruct H1 as [HK1 HV1], H2 as [HK2 HV2].
    apply equals_decides; auto. split.
    + intros k. now rewrite HK1.
    + intros k v1 G. destruct (HV1 k v1 G) as [v2 [G2 [S1 S2]]].
      destruct (HV2 k v2 G2) as [v3 [G3 [S3 S4]]].
      exists v3. split; [assumption|]. split; [|assumption].
      eapply same_option_list_trans; eauto.
Qed.

Lemma equals_is_equivalence_witness :
  equals [("q", None); ("p", Some [Some "b"; Some "a"])]
         [("p", Some [Some "a"; Some "b"]); ("q", None)] = Ok true.
Proof.
  apply (proj1 (proj2 (equals_is_equivalence
           [("p", Some [Some "a"; Some "b"]); ("q", None)]
           [("q", None); ("p", Some [Some "b"; Some "a"])]
           [] ltac:(repeat constructor; simpl; intuition discriminate)
           ltac:(repeat constructor; simpl; intuition discriminate)
           ltac:(constructor)))).
  reflexivity.
Defined.

(** ** The unique keys of a requirement set *)

Lemma option_keys_length (name : string) (l : list (option string))
      (acc : list string) :
  List.length (fold_left (fun keys o => keys ++ [option_key name o]) l acc)
  = List.length acc + List.length l.
Proof.
  revert acc. induction l as [|x l IH]; intros acc; simpl; [lia|].
  rewrite IH, length_app. simpl. lia.
Qed.

Lemma convert_length_fold (r : Reqs) (acc : list string) :
  List.length
    (fold_left
       (fun keys entry =>
          match snd entry with
          | Some ((_ :: _) as options) =>
              fold_left (fun keys o => keys ++ [option_key (fst entry) o])
                        options keys
          | _ => keys ++ [fst entry]
          end) r acc)
  = List.length acc + list_sum (map (fun e => entry_width (snd e)) r).
Proof.
  revert acc. induction r as [|[n v] r IH]; intros acc; simpl; [lia|].
  rewrite IH. destruct v as [[|x l]|]; simpl.
  - rewrite length_app. simpl. lia.
  - rewrite option_keys_length, length_app. simpl. lia.
  - rewrite length_app. simpl. lia.
Qed.

(** X3.  [convert_to_unique_keys] returns no key for [None] and for the
    empty requirement set.  Otherwise its keys are, for every entry with
    options, the name followed by [":"] and each option, and for every
    entry with [None] or an empty list the bare name; there are as many
    keys as that makes, nothing is dropped or merged. *)
Theorem convert_to_unique_keys_expands (d : Reqs) :
  convert_to_unique_keys None = [] /\
  convert_to_unique_keys (Some []) = [] /\
  (forall key,
      In key (convert_to_unique_keys (Some d)) <->
      exists name v, In (name, v) d /\
        match v with
        | Some ((_ :: _) as l) => exists o, In o l /\ key = option_key name o
        | _ => key = name
        end) /\
  List.length (convert_to_unique_keys (Some d))
  = list_sum (map (fun e => entry_width (snd e)) d).
Proof.
  split; [reflexivity|]. split; [reflexivity|]. split.
  - apply convert_to_unique_keys_In.
  - destruct d as [|e d]; [reflexivity|].
    unfold convert_to_unique_keys. now rewrite convert_length_fold.
Qed.

(** ** [validate_suppliers] *)

Lemma supplier_tools_keys (g : store) (suppliers : list nat)
      (acc : dict Tool.class) (name : string) :
  In name
     (dict_keys
        (fold_left
           (fun supplier_tools supplier =>
              dict_update supplier_tools (WorkStation.tools (station g supplier)))
           suppliers acc))
  <-> In name (dict_keys acc) \/
      exists s, In s suppliers /\
                In name (dict_keys (WorkStation.tools (station g s))).
Proof.
  revert acc. induction suppliers as [|x rest IH]; intros acc; simpl.
  - split; [auto|]. intros [H|[s [[] _]]]. exact H.
  - rewrite IH, dict_update_keys. split.
    + intros [[H|H]|[s [H1 H2]]]; eauto.
    + intros [H|[s [[<-|H1] H2]]]; eauto.
Qed.

(** X4.  [validate_suppliers] passes exactly when every name of the
    station's requirement set is registered by one of its suppliers;
    otherwise it raises the missing-requirements error, and the names it
    reports are exactly the required names that no supplier registers. *)
Theorem validate_suppliers_checks_offer (g : store) (self : nat) :
  (validate_suppliers g self = Ok tt <->
   forall name,
     In name (dict_keys (WorkStation.requirements (station g self))) ->
     offered g self name) /\
  (forall e, validate_suppliers g self = Raise e ->
     exists missing,
       e = MissingRequirements missing /\ missing <> [] /\
       forall name,
         In name missing <->
         In name (dict_keys (WorkStation.requirements (station g self))) /\
         ~ offered g self name).
Proof.
  unfold validate_suppliers.
  set (supplier_tools :=
         fold_left
           (fun st supplier =>
              dict_update st (WorkStation.tools (station g supplier)))
           (items (WorkStation.suppliers (station g self))) []).
  assert (HO : forall name, In name (dict_keys supplier_tools) <-> offered g self name).
  { intros name. unfold supplier_tools, offered.
    rewrite supplier_tools_keys. simpl. tauto. }
  set (missing :=
         filter (fun name => negb (dict_mem name supplier_tools))
                (dict_keys (WorkStation.requirements (station g self)))).
  assert (HM : forall name,
             In name missing <->
             In name (dict_keys (WorkStation.requirements (station g self))) /\
             ~ offered g self name).
  { intros name. unfold missing. rewrite filter_In, negb_true_iff.
    pose proof (HO name) as HOn. rewrite <- dict_mem_In in HOn.
    destruct (dict_mem name supplier_tools) eqn:EM.
    - split; intros [H1 H2]; [discriminate|].
      exfalso. apply H2, HOn. reflexivity.
    - split; intros [H1 H2]; split; auto.
      intros Hoff. apply HOn in Hoff. discriminate. }
  destruct missing as [|m ms] eqn:EM; simpl.
  - split.
    + split; [|reflexivity]. intros _ name Hn.
      destruct (in_dec string_dec name (dict_keys supplier_tools)) as [H|H].
      * now apply HO.
      * exfalso. apply (proj2 (HM name)). split; [assumption|]. now rewrite <- HO.
    + intros e H. discriminate.
  - split.
    + split; [discriminate|]. intros H. exfalso.
      destruct (proj1 (HM m) (or_introl eq_refl)) as [H1 H2]. auto.
    + intros e H. inversion H. subst e. exists (m :: ms).
      split; [reflexivity|]. split; [discriminate|]. exact HM.
Qed.

(** ** What [engage] instantiates and what it leaves alone *)

Lemma for_each_keys {A}
      (body : dict Tool.t * list (option Reqs) -> A ->
              result (dict Tool.t * list (option Reqs)))
      (K : A -> string -> Prop) (l : list A) :
  (forall a acc acc', body acc a = Ok acc' ->
     forall k, In k (dict_keys (fst acc')) <-> In k (dict_keys (fst acc)) \/ K a k) ->
  forall acc acc', for_each body l acc = Ok acc' ->
    forall k, In k (dict_keys (fst acc'))
              <-> In k (dict_keys (fst acc)) \/ exists a, In a l /\ K a k.
Proof.
  intros Hb. induction l as [|a l IH]; intros acc acc' H k; simpl in H.
  - inversion H. subst. split; [auto|]. intros [Hk|[a [[] _]]]. exact Hk.
  - destruct (body acc a) as [acc1|e] eqn:E; [|discriminate]. simpl in H.
    rewrite (IH _ _ H k), (Hb _ _ _ E k). split.
    + intros [[Hk|Hk]|[a' [H1 H2]]].
      * now left.
      * right. exists a. split; [now left|exact Hk].
      * right. exists a'. split; [now right|exact H2].
    + intros [Hk|[a' [[<-|H1] H2]]].
      * left. now left.
      * left. now right.
      * right. exists a'. auto.
Qed.

Lemma instantiate_keys (tool : Tool.class) (key : string) (o : option string)
      (acc acc' : dict Tool.t * list (option Reqs)) :
  instantiate tool key o acc = Ok acc' ->
  forall k, In k (dict_keys (fst acc')) <-> In k (dict_keys (fst acc)) \/ k = key.
Proof.
  unfold instantiate. destruct (Tool.__init__ tool o) as [inst|e]; [|discriminate].
  simpl. intros H k. inversion H. subst. simpl.
  rewrite dict_keys_set_In. tauto.
Qed.

Lemma engage_options_keys (tool_entry : string * Tool.class)
      (options : list (option string))
      (acc acc' : dict Tool.t * list (option Reqs)) :
  for_each (fun acc o => instantiate (snd tool_entry)
                                     (option_key (fst tool_entry) o) o acc)
           options acc = Ok acc' ->
  forall k, In k (dict_keys (fst acc'))
            <-> In k (dict_keys (fst acc)) \/
                exists o, In o options /\ k = option_key (fst tool_entry) o.
Proof.
  intros H.
  apply (for_each_keys
           (fun acc o => instantiate (snd tool_entry)
                                     (option_key (fst tool_entry) o) o acc)
           (fun o k => k = option_key (fst tool_entry) o) options);
    [|exact H].
  intros o ac ac' Hi k. apply (instantiate_keys _ _ _ _ _ Hi).
Qed.

(** The keys one requirement of the managers makes one tool add. *)
Lemma engage_requirement_keys (tool_entry : string * Tool.class)
      (req_entry : string * option (list (option string)))
      (acc acc' : dict Tool.t * list (option Reqs)) :
  (if String.eqb (fst req_entry) (fst tool_entry) then
     match snd req_entry with
     | Some ((_ :: _) as options) =>
         for_each (fun acc o => instantiate (snd tool_entry)
                                            (option_key (fst tool_entry) o) o acc)
                  options acc
     | _ => instantiate (snd tool_entry) (fst tool_entry) None acc
     end
   else Ok acc) = Ok acc' ->
  forall k, In k (dict_keys (fst acc'))
            <-> In k (dict_keys (fst acc)) \/
                (fst req_entry = fst tool_entry /\
                 match snd req_entry with
                 | Some ((_ :: _) as l) =>
                     exists o, In o l /\ k = option_key (fst tool_entry) o
                 | _ => k = fst tool_entry
                 end).
Proof.
  intros H k.
  destruct (String.eqb_spec (fst req_entry) (fst tool_entry)) as [E|E].
  - destruct (snd req_entry) as [[|o l]|].
    + rewrite (instantiate_keys _ _ _ _ _ H k). tauto.
    + rewrite (engage_options_keys _ _ _ _ H k). tauto.
    + rewrite (instantiate_keys _ _ _ _ _ H k). tauto.
  - inversion H. subst. tauto.
Qed.

Lemma engage_tools_keys (tools : dict Tool.class) (manager_requirements : Reqs)
      (acc acc' : dict Tool.t * list (option Reqs)) :
  engage_tools tools manager_requirements acc = Ok acc' ->
  forall k, In k (dict_keys (fst acc'))
            <-> In k (dict_keys (fst acc)) \/ demanded tools manager_requirements k.
Proof.
  intros H k. unfold engage_tools in H.
  pose proof
       (fun Hb =>
          for_each_keys _
            (fun (tool_entry : string * Tool.class) k =>
               exists req_entry,
                 In req_entry manager_requirements /\
                 (fst req_entry = fst tool_entry /\
                  match snd req_entry with
                  | Some ((_ :: _) as l) =>
                      exists o, In o l /\ k = option_key (fst tool_entry) o
                  | _ => k = fst tool_entry
                  end)) tools Hb acc acc' H k) as HF.
  cbv beta in HF. rewrite HF; clear HF.
  - unfold demanded. split; (intros [Hk|Hd]; [now left|right]).
    + destruct Hd as [[name cls] [Ht [[name' v] [Hr [E Hv]]]]].
      simpl in *. subst name'. exists name, cls, v. auto.
    + destruct Hd as [name [cls [v [Ht [Hr Hv]]]]].
      exists (name, cls). split; [assumption|].
      exists (name, v). auto.
  - clear. intros tool_entry ac ac' Ht k.
    pose proof
         (fun Hb =>
            for_each_keys _
              (fun (req_entry : string * option (list (option string))) k =>
                 fst req_entry = fst tool_entry /\
                 match snd req_entry with
                 | Some ((_ :: _) as l) =>
                     exists o, In o l /\ k = option_key (fst tool_entry) o
                 | _ => k = fst tool_entry
                 end) manager_requirements Hb ac ac' Ht k) as HF.
    cbv beta in HF. apply HF. clear.
    intros req_entry ac ac' Hr k.
    apply (engage_requirement_keys tool_entry req_entry ac ac' Hr k).
Qed.

(** X5.  [engage] never removes a resource, and the keys it adds to the
    station's resources are exactly the ones its managers demand of its
    own tools: for a registered tool that the combined manager
    requirements name, ["tool:option"] for each required option, or
    ["tool"] when no option is required.  Tools that no manager requires
    are not instantiated. *)
Theorem engage_instantiates_the_demanded
        {names : SetIter string} {opts : SetIter (option string)}
        (g g1 : store) (self : nat) :
  engage g self = Ok g1 ->
  forall k,
    In k (dict_keys (WorkStation.resources (station g1 self))) <->
    In k (dict_keys (WorkStation.resources (station g self))) \/
    demanded (WorkStation.tools (station g self))
             (gather_manager_requirements g self) k.
Proof.
  intros H k. unfold engage in H.
  destruct (WorkStation.tools (station g self)) as [|t ts] eqn:ET.
  - injection H as <-.
    rewrite (station_put_field WorkStation.resources) by reflexivity.
    split; [auto|]. intros [Hk|[name [cls [v [[] _]]]]]. exact Hk.
  - destruct (engage_tools _ _ _) as [acc|e] eqn:E; [|discriminate].
    simpl in H. injection H as <-.
    pose proof (engage_tools_keys _ _ _ _ E k) as HK. simpl in HK.
    destruct (le_lt_dec (List.length g) self) as [Hout|Hin].
    + exfalso. unfold station in ET. rewrite nth_overflow in ET by assumption.
      discriminate.
    + rewrite station_put_same by assumption. exact HK.
Qed.

Lemma engage_instantiates_the_demanded_witness :
  exists g1,
    engage (names := names_by_insertion) (opts := options_by_insertion)
           Chain.demanding Chain.Mid = Ok g1 /\
    In "csv:car" (dict_keys (WorkStation.resources (station g1 Chain.Mid))).
Proof.
  eexists. split; [reflexivity|].
  apply (engage_instantiates_the_demanded
           (names := names_by_insertion) (opts := options_by_insertion)
           Chain.demanding _ Chain.Mid eq_refl).
  right. exists "csv", Chain.csv, (Some [Some "car"]).
  split; [now left|]. split; [now left|].
  exists (Some "car"). split; [now left|reflexivity].
Defined.

(** X6.  [engage] writes the requirements and the resources of its own
    station and nothing else: the store keeps its size, every other
    station is left as it was, and the station keeps its depth, tools,
    managers, suppliers and gathered supplier resources. *)
Theorem engage_writes_own_station_only
        {names : SetIter string} {opts : SetIter (option string)}
        (g g1 : store) (self : nat) :
  engage g self = Ok g1 ->
  List.length g1 = List.length g /\
  (forall j, j <> self -> station g1 j = station g j) /\
  WorkStation.depth (station g1 self) = WorkStation.depth (station g self) /\
  WorkStation.tools (station g1 self) = WorkStation.tools (station g self) /\
  WorkStation.managers (station g1 self) = WorkStation.managers (station g self) /\
  WorkStation.suppliers (station g1 self) = WorkStation.suppliers (station g self) /\
  WorkStation.supplier_resources (station g1 self)
  = WorkStation.supplier_resources (station g self).
Proof.
  intros H. destruct (engage_frame g g1 self H) as [HT [HM [HS [HO HL]]]].
  repeat split; auto.
  - unfold engage in H. destruct (WorkStation.tools (station g self)).
    + injection H as <-. now apply station_put_field.
    + destruct (engage_tools _ _ _); [|discriminate]. simpl in H.
      injection H as <-. now apply station_put_field.
  - unfold engage in H. destruct (WorkStation.tools (station g self)).
    + injection H as <-. now apply station_put_field.
    + destruct (engage_tools _ _ _); [|discriminate]. simpl in H.
      injection H as <-. now apply station_put_field.
Qed.

Lemma engage_writes_own_station_only_witness :
  exists g1,
    engage (names := names_by_insertion) (opts := options_by_insertion)
           Chain.demanding Chain.Mid = Ok g1 /\
    station g1 Chain.Leaf = station Chain.demanding Chain.Leaf.
Proof.
  eexists. split; [reflexivity|].
  apply (engage_writes_own_station_only
           (names := names_by_insertion) (opts := options_by_insertion)
           Chain.demanding _ Chain.Mid eq_refl).
  discriminate.
Defined.

(** ** The clean-up of [engage] *)

Lemma clean_tools_loop (key : string) (tools : dict Tool.class) (reqs : Reqs) :
  let reqs' :=
    fold_left
      (fun reqs tool_entry =>
         if String.eqb key (fst tool_entry)
            && negb (Tool.options_enabled (snd tool_entry))
         then dict_set (fst tool_entry) None reqs
         else reqs) tools reqs in
  (forall k, k <> key -> dict_get reqs' k = dict_get reqs k) /\
  (dict_get reqs' key = Some None \/
   (dict_get reqs' key = dict_get reqs key /\ takes_options key tools)).
Proof.
  revert reqs. induction tools as [|[n cls] tools IH]; intros reqs; simpl.
  - split; [reflexivity|]. right. split; [reflexivity|]. intros cls [].
  - destruct (String.eqb_spec key n) as [E|E]; simpl.
    + subst n. destruct (Tool.options_enabled cls) eqn:EN; simpl.
      * destruct (IH reqs) as [H1 H2]. split; [exact H1|].
        destruct H2 as [H2|[H2 H3]]; [now left|right].
        split; [exact H2|]. intros cls' [E'|Hin]; [|now apply H3].
        inversion E'. now subst.
      * destruct (IH (dict_set key None reqs)) as [H1 H2]. split.
        -- intros k Hk. rewrite (H1 k Hk), dict_get_set.
           destruct (String.eqb_spec key k); congruence.
        -- left. destruct H2 as [H2|[H2 _]]; [exact H2|].
           rewrite H2, dict_get_set. now rewrite String.eqb_refl.
    + destruct (IH reqs) as [H1 H2]. split; [exact H1|].
      destruct H2 as [H2|[H2 H3]]; [now left|right].
      split; [exact H2|]. intros cls' [E'|Hin]; [|now apply H3].
      inversion E'. congruence.
Qed.

Lemma clean_suppliers_loop (g : store) (key : string) (suppliers : list nat)
      (reqs : Reqs) :
  let reqs' :=
    fold_left
      (fun reqs s =>
         fold_left
           (fun reqs tool_entry =>
              if String.eqb key (fst tool_entry)
                 && negb (Tool.options_enabled (snd tool_entry))
              then dict_set (fst tool_entry) None reqs
              else reqs)
           (WorkStation.tools (station g s)) reqs)
      suppliers reqs in
  (forall k, k <> key -> dict_get reqs' k = dict_get reqs k) /\
  (dict_get reqs' key = Some None \/
   (dict_get reqs' key = dict_get reqs key /\
    forall s, In s suppliers ->
              takes_options key (WorkStation.tools (station g s)))).
Proof.
  revert reqs. induction suppliers as [|s rest IH]; intros reqs; simpl.
  - split; [reflexivity|]. right. split; [reflexivity|]. intros s [].
  - destruct (clean_tools_loop key (WorkStation.tools (station g s)) reqs)
      as [T1 T2].
    destruct (IH (fold_left
                    (fun reqs tool_entry =>
                       if String.eqb key (fst tool_entry)
                          && negb (Tool.options_enabled (snd tool_entry))
                       then dict_set (fst tool_entry) None reqs
                       else reqs)
                    (WorkStation.tools (station g s)) reqs)) as [H1 H2].
    split.
    + intros k Hk. now rewrite (H1 k Hk), (T1 k Hk).
    + destruct H2 as [H2|[H2 H3]]; [now left|].
      destruct T2 as [T2|[T2 T3]].
      * left. now rewrite H2.
      * right. split; [now rewrite H2|].
        intros s' [<-|Hs']; auto.
Qed.

(** What the clean-up leaves at a key: [None], or the entry it found
    there when no supplier has a tool of that name without options. *)
Lemma clean_options_loop (g : store) (suppliers : option (list nat))
      (entries reqs : Reqs) :
  NoDup (dict_keys entries) ->
  let reqs' :=
    fold_left
      (fun reqs entry =>
         if truthy suppliers && truthy (snd entry) then
           fold_left
             (fun reqs s =>
                fold_left
                  (fun reqs tool_entry =>
                     if String.eqb (fst entry) (fst tool_entry)
                        && negb (Tool.options_enabled (snd tool_entry))
                     then dict_set (fst tool_entry) None reqs
                     else reqs)
                  (WorkStation.tools (station g s)) reqs)
             (items suppliers) reqs
         else reqs)
      entries reqs in
  (forall k, ~ In k (dict_keys entries) -> dict_get reqs' k = dict_get reqs k) /\
  (forall k v, In (k, v) entries ->
     dict_get reqs' k = Some None \/
     (dict_get reqs' k = dict_get reqs k /\
      (truthy suppliers = true -> truthy v = true ->
       forall s, In s (items suppliers) ->
                 takes_options k (WorkStation.tools (station g s))))).
Proof.
  revert reqs. induction entries as [|[n v] entries IH]; intros reqs ND; simpl.
  - split; [reflexivity|]. intros k v [].
  - inversion ND as [|? ? Hn ND']. subst.
    set (reqs1 :=
           if truthy suppliers && truthy v then
             fold_left
               (fun reqs s =>
                  fold_left
                    (fun reqs tool_entry =>
                       if String.eqb n (fst tool_entry)
                          && negb (Tool.options_enabled (snd tool_entry))
                       then dict_set (fst tool_entry) None reqs
                       else reqs)
                    (WorkStation.tools (station g s)) reqs)
               (items suppliers) reqs
           else reqs).
    assert (S1 : forall k, k <> n -> dict_get reqs1 k = dict_get reqs k).
    { intros k Hk. unfold reqs1.
      destruct (truthy suppliers && truthy v); [|reflexivity].
      now apply (clean_suppliers_loop g n (items suppliers) reqs). }
    assert (S2 : dict_get reqs1 n = Some None \/
                 (dict_get reqs1 n = dict_get reqs n /\
                  (truthy suppliers = true -> truthy v = true ->
                   forall s, In s (items suppliers) ->
                             takes_options n (WorkStation.tools (station g s))))).
    { unfold reqs1. destruct (truthy suppliers) eqn:E1, (truthy v) eqn:E2; simpl;
        try (right; split; [reflexivity|discriminate]).
      destruct (clean_suppliers_loop g n (items suppliers) reqs) as [_ [H|[H1 H2]]];
        [now left|right]. split; [exact H1|]. intros _ _. exact H2. }
    destruct (IH reqs1 ND') as [H1 H2]. split.
    + intros k Hk. rewrite H1 by tauto. apply S1. intros ->. apply Hk. now left.
    + intros k v' [E|Hin].
      * inversion E. subst k v'. rewrite (H1 n Hn). exact S2.
      * assert (k <> n).
        { intros ->. apply Hn. apply (in_map fst) in Hin. exact Hin. }
        destruct (H2 k v' Hin) as [H5|[H3 H4]]; [now left|right].
        split; [|exact H4]. now rewrite H3, S1.
Qed.

(** X7.  After [engage], a station with tools asks no supplier tool that
    takes no options for an option: wherever its requirement set still
    carries options for a name, every tool of that name registered by a
    supplier has [options_enabled]. *)
Theorem engage_asks_options_of_tools_that_take_them_only
        {names : SetIter string} {opts : SetIter (option string)}
        (g g1 : store) (self : nat) :
  engage g self = Ok g1 ->
  WorkStation.tools (station g self) <> [] ->
  forall name l s cls,
    dict_get (WorkStation.requirements (station g1 self)) name = Some (Some l) ->
    In s (items (WorkStation.suppliers (station g self))) ->
    In (name, cls) (WorkStation.tools (station g s)) ->
    Tool.options_enabled cls = true.
Proof.
  intros H HT name l s cls HG Hs Hc. unfold engage in H.
  destruct (WorkStation.tools (station g self)) as [|t ts] eqn:ET; [congruence|].
  destruct (engage_tools _ _ _) as [acc|e]; [|discriminate].
  simpl in H. injection H as <-.
  destruct (le_lt_dec (List.length g) self) as [Hout|Hin].
  { unfold station in ET. rewrite nth_overflow in ET by assumption. discriminate. }
  rewrite station_put_same in HG by assumption. simpl in HG.
  unfold clean_options in HG.
  destruct (clean_options_loop g (WorkStation.suppliers (station g self))
                               (combine_reqs (snd acc)) (combine_reqs (snd acc))
                               (combine_reqs_NoDup _)) as [_ H2].
  assert (Hk : In name (dict_keys (combine_reqs (snd acc)))).
  { destruct (in_dec string_dec name (dict_keys (combine_reqs (snd acc))))
      as [Hi|Hi]; [exact Hi|].
    exfalso.
    destruct (clean_options_loop g (WorkStation.suppliers (station g self))
                                 (combine_reqs (snd acc)) (combine_reqs (snd acc))
                                 (combine_reqs_NoDup _)) as [H1 _].
    rewrite (H1 name Hi) in HG. apply dict_get_keys in HG. contradiction. }
  destruct (In_keys_get _ _ Hk) as [v Hv].
  destruct (H2 name v (dict_get_In _ _ _ Hv)) as [Hnone|[Hsame Hopt]].
  - rewrite Hnone in HG. discriminate.
  - rewrite Hsame, Hv in HG. inversion HG. subst v.
    apply combine_reqs_In_keys in Hk.
    rewrite (combine_reqs_get _ _ Hk) in Hv. inversion Hv as [Hce].
    apply combined_entry_Some in Hce. destruct Hce as [Hne _].
    apply (Hopt) with (s := s); auto.
    + destruct (WorkStation.suppliers (station g self)) as [[|x xs]|];
        simpl in Hs; try contradiction. reflexivity.
    + destruct l; [congruence|reflexivity].
Qed.

Lemma engage_asks_options_of_tools_that_take_them_only_witness :
  exists g1,
    engage (names := names_by_insertion) (opts := options_by_insertion)
           Chain.demanding Chain.Mid = Ok g1 /\
    forall l, dict_get (WorkStation.requirements (station g1 Chain.Mid)) "raw"
              <> Some (Some l).
Proof.
  eexists. split; [reflexivity|]. intros l Hl.
  pose proof (engage_asks_options_of_tools_that_take_them_only
                (names := names_by_insertion) (opts := options_by_insertion)
                Chain.demanding _ Chain.Mid eq_refl
                ltac:(discriminate) "raw" l Chain.Leaf Chain.raw Hl
                ltac:(now left) ltac:(now left)) as H.
  discriminate.
Defined.

(** ** [WorkStation.build] *)





(** ** What [is_cyclic] detects *)

Lemma closed_under_reach (g : store) (F : nat -> Prop) :
  (forall u, F u -> forall v, edge g u v -> F v) ->
  forall u v, clos_refl_trans nat (edge g) u v -> F u -> F v.
Proof.
  intros HF u v H. induction H as [u v E|u|u w v _ IH1 _ IH2]; intros Hu.
  - now apply (HF u).
  - exact Hu.
  - auto.
Qed.

Lemma cycle_first_step (g : store) (u : nat) :
  clos_trans nat (edge g) u u ->
  exists s, edge g u s /\ clos_refl_trans nat (edge g) s u.
Proof.
  intros H. apply clos_trans_t1n in H.
  inversion H as [y E|y z E Hrest]; subst.
  - exists u. split; [assumption|apply rt_refl].
  - exists y. split; [assumption|].
    apply clos_trans_t1n_iff in Hrest. now apply clos_t_clos_rt.
Qed.

Section CyclicWalk.
Variables (g : store) (start : nat).

(** The walk of [is_cyclic], whenever it returns: a station comes back
    only if a cycle can be reached from the start; a false value comes
    back with the path as it was, the vertex finished, and the finished
    stations closed and free of cycles. *)
Lemma cyclic_visit_returns (fuel : nat) :
  forall (vertex : nat) (m : marks) (r : visited_result) (m' : marks),
    cyclic_visit fuel g vertex m = Some (r, m') ->
    walk_invariant g m -> ~ In vertex (path m) ->
    reachable g start vertex ->
    (forall p, In p (path m) -> clos_trans nat (edge g) p vertex) ->
    if is_true r
    then exists v, reachable g start v /\ clos_trans nat (edge g) v v
    else walk_invariant g m' /\ path m' = path m /\
         incl (visited m) (visited m') /\ In vertex (visited m').
Proof.
  induction fuel as [|fuel IH]; intros vertex m r m' H HI Hoff HR HP;
    [discriminate|].
  cbn [cyclic_visit] in H.
  destruct (mem vertex (visited m)) eqn:Hmem.
  - inversion H. subst. simpl. apply mem_In in Hmem.
    split; [exact HI|]. split; [reflexivity|].
    split; [apply incl_refl|exact Hmem].
  - apply mem_false in Hmem.
    rewrite (set_add_fresh _ _ Hmem), (set_add_fresh _ _ Hoff) in H.
    destruct HI as [I1 [I2 I3]].
    assert (Hloop : forall suppliers m2 r m',
               cyclic_suppliers (cyclic_visit fuel g) vertex suppliers m2
               = Some (r, m') ->
               (forall s, In s suppliers -> edge g vertex s) ->
               (forall v, edge g vertex v -> In v suppliers \/ finished m2 v) ->
               walk_invariant g m2 -> path m2 = vertex :: path m ->
               incl (vertex :: visited m) (visited m2) ->
               if is_true r
               then exists v, reachable g start v /\ clos_trans nat (edge g) v v
               else walk_invariant g m' /\ path m' = path m /\
                    incl (visited m) (visited m') /\ In vertex (visited m')).
    { induction suppliers as [|s rest IHs]; intros m2 r2 m2' H2 HE HD HI2 Hp2 Hv2.
      - simpl in H2. inversion H2. subst. simpl.
        rewrite Hp2, (set_remove_fresh _ _ Hoff).
        destruct HI2 as [J1 [J2 J3]].
        assert (Hfin : forall u, finished (Marks (path m) (visited m2)) u ->
                                 u = vertex \/ finished m2 u).
        { intros u [Hu1 Hu2]. simpl in *.
          destruct (Nat.eq_dec u vertex) as [->|Hne]; [now left|right].
          split; [assumption|]. rewrite Hp2. intros [E|Hin]; auto. }
        assert (Hup : forall v, finished m2 v ->
                                finished (Marks (path m) (visited m2)) v).
        { intros v [Hv1 Hv3]. split; [assumption|]. simpl.
          intros Hin. apply Hv3. rewrite Hp2. now right. }
        split; [split; [|split]|split; [reflexivity|split]]; simpl.
        + eapply incl_tran; [exact I1|].
          eapply incl_tran; [|exact Hv2]. apply incl_tl, incl_refl.
        + intros u Hu v Ev. apply Hup. destruct (Hfin u Hu) as [->|Hf].
          * destruct (HD v Ev) as [[]|Hf]. exact Hf.
          * now apply (J2 u).
        + intros u Hu Hc. destruct (Hfin u Hu) as [->|Hf].
          * destruct (cycle_first_step g vertex Hc) as [s [Es Hs]].
            destruct (HD s Es) as [[]|Hf].
            assert (Hv : finished m2 vertex)
              by (apply (closed_under_reach g (finished m2) J2 s vertex Hs Hf)).
            destruct Hv as [_ Hv]. apply Hv. rewrite Hp2. now left.
          * now apply (J3 u).
        + eapply incl_tran; [|exact Hv2]. apply incl_tl, incl_refl.
        + apply Hv2. now left.
      - assert (Es : edge g vertex s) by (apply HE; now left).
        cbn [cyclic_suppliers] in H2.
        destruct (mem s (path m2)) eqn:Hs.
        + inversion H2. subst. simpl. apply mem_In in Hs. rewrite Hp2 in Hs.
          exists vertex. split; [assumption|]. destruct Hs as [<-|Hs].
          * now apply t_step.
          * eapply t_trans; [apply t_step; exact Es|]. now apply HP.
        + apply mem_false in Hs.
          destruct (cyclic_visit fuel g s m2) as [[r1 m3]|] eqn:E1; [|discriminate].
          assert (H3 := IH s m2 r1 m3 E1 HI2 Hs).
          assert (HRs : reachable g start s)
            by (eapply rt_trans; [exact HR|now apply rt_step]).
          assert (HPs : forall p, In p (path m2) -> clos_trans nat (edge g) p s).
          { intros p Hp. rewrite Hp2 in Hp. destruct Hp as [<-|Hp].
            - now apply t_step.
            - eapply t_trans; [now apply HP|now apply t_step]. }
          specialize (H3 HRs HPs).
          destruct (is_true r1) eqn:Er1.
          * inversion H2. subst. simpl. exact H3.
          * destruct H3 as [K1 [K2 [K3 K4]]].
            apply (IHs m3 r2 m2' H2); auto.
            -- intros s' Hs'. apply HE. now right.
            -- intros v Ev. destruct (HD v Ev) as [[<-|Hin]|[Hf1 Hf2]].
               ++ right. split; [assumption|]. now rewrite K2.
               ++ now left.
               ++ right. split; [now apply K3|]. now rewrite K2.
            -- congruence.
            -- eapply incl_tran; eauto. }
    assert (Hfin : forall u,
               finished (Marks (vertex :: path m) (vertex :: visited m)) u ->
               finished m u).
    { intros u [Hu1 Hu2]. simpl in *.
      destruct Hu1 as [<-|Hu1]; [exfalso; apply Hu2; now left|].
      split; [assumption|]. intros Hin. apply Hu2. now right. }
    assert (Hup : forall v,
               finished m v ->
               finished (Marks (vertex :: path m) (vertex :: visited m)) v).
    { intros v [Hv1 Hv2]. split; simpl; [now right|].
      intros [<-|Hin]; [now apply Hmem|now apply Hv2]. }
    apply (Hloop _ _ _ _ H).
    + intros s Hs. exact Hs.
    + intros v Ev. left. exact Ev.
    + split; [|split]; simpl.
      * now apply incl_cons; [left|apply incl_tl].
      * intros u Hu v Ev. apply Hup. apply (I2 u); [now apply Hfin|exact Ev].
      * intros u Hu. apply (I3 u). now apply Hfin.
    + reflexivity.
    + apply incl_refl.
Qed.

End CyclicWalk.

(** The walk of [is_cyclic] returns within the budget on every graph:
    each station enters [visited] once. *)
Lemma cyclic_visit_total (g : store) (fuel : nat) :
  forall (vertex : nat) (m : marks),
    NoDup (visited m) ->
    List.length g + 2 <= fuel + List.length (inside g (visited m)) ->
    exists r m',
      cyclic_visit fuel g vertex m = Some (r, m') /\
      incl (visited m) (visited m') /\ NoDup (visited m').
Proof.
  induction fuel as [|fuel IH]; intros vertex m ND HB.
  - pose proof (inside_bound g (visited m) ND). lia.
  - cbn [cyclic_visit]. destruct (mem vertex (visited m)) eqn:Hmem.
    + exists RFalse, m. repeat split; auto. apply incl_refl.
    + apply mem_false in Hmem. rewrite (set_add_fresh _ _ Hmem).
      assert (Hloop : forall suppliers m2,
                 (forall s, In s suppliers -> edge g vertex s) ->
                 NoDup (visited m2) ->
                 incl (vertex :: visited m) (visited m2) ->
                 exists r m',
                   cyclic_suppliers (cyclic_visit fuel g) vertex suppliers m2
                   = Some (r, m') /\
                   incl (visited m2) (visited m') /\ NoDup (visited m')).
      { induction suppliers as [|s rest IHs]; intros m2 HE ND2 Hv2.
        - simpl. eexists _, _. split; [reflexivity|]. simpl.
          split; [apply incl_refl|assumption].
        - assert (Es : edge g vertex s) by (apply HE; now left).
          cbn [cyclic_suppliers]. destruct (mem s (path m2)).
          + eexists _, _. split; [reflexivity|].
            split; [apply incl_refl|assumption].
          + destruct (IH s m2) as [r1 [m3 [Hv [Hi3 ND3]]]]; auto.
            * apply (budget_step g fuel vertex (visited m)); auto.
              now apply (suppliers_inside g vertex s).
            * rewrite Hv. destruct (is_true r1).
              -- eexists _, _. split; [reflexivity|]. auto.
              -- destruct (IHs m3) as [r [m' [Hl [Hi' ND']]]]; auto.
                 ++ intros s' Hs'. apply HE. now right.
                 ++ eapply incl_tran; eauto.
                 ++ exists r, m'. repeat split; auto.
                    eapply incl_tran; eauto. }
      destruct (Hloop (items (WorkStation.suppliers (station g vertex)))
                      (Marks (set_add vertex (path m)) (vertex :: visited m)))
        as [r [m' [Hl [Hi' ND']]]]; simpl; auto.
      * now constructor.
      * apply incl_refl.
      * exists r, m'. repeat split; auto.
        eapply incl_tran; [|exact Hi']. simpl. apply incl_tl, incl_refl.
Qed.

Lemma cyclic_suppliers_not_False
      (visit : nat -> marks -> option (visited_result * marks))
      (vertex : nat) (suppliers : list nat) (m m' : marks) :
  cyclic_suppliers visit vertex suppliers m <> Some (RFalse, m').
Proof.
  revert m. induction suppliers as [|s rest IH]; intros m; simpl.
  - discriminate.
  - destruct (mem s (path m)); [discriminate|].
    destruct (visit s m) as [[r m1]|]; [|discriminate].
    destruct (is_true r); [discriminate|]. apply IH.
Qed.

Lemma is_cyclic_not_False (g : store) (start : nat) :
  is_cyclic g start <> Some RFalse.
Proof.
  unfold is_cyclic, depth_bound. cbn [Nat.add cyclic_visit mem existsb visited].
  destruct (cyclic_suppliers _ _ _ _) as [[r m']|] eqn:E; [|discriminate].
  intros H. inversion H. subst r.
  now apply cyclic_suppliers_not_False in E.
Qed.

(** X10.  [is_cyclic] always returns, within a recursion depth of the
    number of stations plus two.  It returns [None] exactly on the graphs
    that have no cycle of supplier edges reachable from the start, and a
    station exactly on those that have one. *)
Theorem is_cyclic_detects_exactly_the_cyclic_graphs (g : store) (start : nat) :
  (exists r, is_cyclic g start = Some r) /\
  (is_cyclic g start = Some RNone <-> acyclic_from g start) /\
  ((exists w, is_cyclic g start = Some (RStation w)) <->
   exists v, reachable g start v /\ clos_trans nat (edge g) v v).
Proof.
  assert (Htotal : exists r, is_cyclic g start = Some r).
  { unfold is_cyclic.
    destruct (cyclic_visit_total g (depth_bound g) start (Marks [] []))
      as [r [m' [H _]]].
    - constructor.
    - unfold depth_bound. simpl. lia.
    - rewrite H. eauto. }
  assert (Hspec : forall r, is_cyclic g start = Some r ->
            if is_true r
            then exists v, reachable g start v /\ clos_trans nat (edge g) v v
            else acyclic_from g start).
  { intros r H. unfold is_cyclic in H.
    destruct (cyclic_visit (depth_bound g) g start (Marks [] []))
      as [[r' m']|] eqn:E; [|discriminate].
    inversion H. subst r'.
    pose proof (cyclic_visit_returns g start _ _ _ _ _ E) as HR.
    assert (HI0 : walk_invariant g (Marks [] [])).
    { split; [apply incl_refl|]. split.
      - intros u [[] _].
      - intros u [[] _]. }
    specialize (HR HI0 (fun x => x) (rt_refl _ _ _) (fun p (x : In p []) =>
                                                       match x with end)).
    destruct (is_true r); [exact HR|].
    destruct HR as [[J1 [J2 J3]] [Hp [_ Hs]]].
    intros v Hv. apply J3.
    apply (closed_under_reach g (finished m') J2 start v Hv).
    split; [assumption|]. rewrite Hp. intros []. }
  split; [exact Htotal|]. split; [split|split].
  - intros H. apply (Hspec RNone H).
  - apply is_cyclic_sound.
  - intros [w H]. apply (Hspec (RStation w) H).
  - intros [v [Hv Hc]]. destruct Htotal as [r Hr].
    destruct r as [| |w].
    + exfalso. now apply (is_cyclic_not_False g start).
    + exfalso. apply (Hspec RNone Hr v Hv Hc).
    + eauto.
Qed.

(** ** What [is_broken] reports *)

Lemma broken_visit_total (g : store) (fuel : nat) :
  forall (vertex : nat) (marked : list nat),
    ~ In vertex marked -> NoDup marked ->
    List.length g + 2 <= fuel + List.length (inside g marked) ->
    exists r marked',
      broken_visit fuel g vertex marked = Some (r, marked') /\
      incl (vertex :: marked) marked' /\ NoDup marked'.
Proof.
  induction fuel as [|fuel IH]; intros vertex marked Hfresh ND HB.
  - pose proof (inside_bound g marked ND). lia.
  - cbn [broken_visit]. rewrite (set_add_fresh _ _ Hfresh).
    assert (Hloop : forall suppliers m2,
               (forall s, In s suppliers -> edge g vertex s) ->
               NoDup m2 -> incl (vertex :: marked) m2 ->
               exists r m',
                 broken_suppliers (broken_visit fuel g) g vertex suppliers m2
                 = Some (r, m') /\ incl m2 m' /\ NoDup m').
    { induction suppliers as [|s rest IHs]; intros m2 HE ND2 Hi2.
      - simpl. exists None, m2. repeat split; auto. apply incl_refl.
      - assert (Es : edge g vertex s) by (apply HE; now left).
        cbn [broken_suppliers]. destruct (mem s m2) eqn:Hmem.
        + apply IHs; auto. intros s' Hs'. apply HE. now right.
        + destruct (broken_link g vertex s).
          * eexists _, _. split; [reflexivity|].
            split; [apply incl_refl|assumption].
          * apply mem_false in Hmem.
            destruct (IH s m2) as [r1 [m3 [Hv [Hi3 ND3]]]]; auto.
            -- apply (budget_step g fuel vertex marked); auto.
               now apply (suppliers_inside g vertex s).
            -- rewrite Hv.
               assert (Hi23 : incl m2 m3).
               { eapply incl_tran; [|exact Hi3]. apply incl_tl, incl_refl. }
               destruct r1 as [w|].
               ++ eexists _, _. split; [reflexivity|]. auto.
               ++ destruct (IHs m3) as [r [m' [Hl [Hi' ND']]]]; auto.
                  ** intros s' Hs'. apply HE. now right.
                  ** eapply incl_tran; eauto.
                  ** exists r, m'. repeat split; auto.
                     eapply incl_tran; eauto. }
    destruct (Hloop (items (WorkStation.suppliers (station g vertex)))
                    (vertex :: marked))
      as [r [m' [Hl [Hi' ND']]]]; auto.
    + now constructor.
    + apply incl_refl.
    + exists r, m'. auto.
Qed.

(** A station comes back from the walk of [is_broken] only if a
    one-sided supplier edge can be reached. *)
Lemma broken_visit_reports (g : store) (start : nat) (fuel : nat) :
  forall (vertex : nat) (marked marked' : list nat) (w : nat),
    broken_visit fuel g vertex marked = Some (Some w, marked') ->
    reachable g start vertex ->
    exists u v, reachable g start u /\ edge g u v /\ broken_link g u v = true.
Proof.
  induction fuel as [|fuel IH]; intros vertex marked marked' w H HR;
    [discriminate|].
  cbn [broken_visit] in H.
  assert (Hloop : forall suppliers m2 m' w,
             broken_suppliers (broken_visit fuel g) g vertex suppliers m2
             = Some (Some w, m') ->
             (forall s, In s suppliers -> edge g vertex s) ->
             exists u v, reachable g start u /\ edge g u v /\
                         broken_link g u v = true).
  { induction suppliers as [|s rest IHs]; intros m2 m' w' H2 HE.
    - discriminate.
    - assert (Es : edge g vertex s) by (apply HE; now left).
      cbn [broken_suppliers] in H2. destruct (mem s m2).
      + apply (IHs _ _ _ H2). intros s' Hs'. apply HE. now right.
      + destruct (broken_link g vertex s) eqn:EB.
        * exists vertex, s. auto.
        * destruct (broken_visit fuel g s m2) as [[[x|] m3]|] eqn:E1;
            [| |discriminate].
          -- apply (IH s m2 m3 x E1).
             eapply rt_trans; [exact HR|now apply rt_step].
          -- apply (IHs _ _ _ H2). intros s' Hs'. apply HE. now right. }
  apply (Hloop _ _ _ _ H). intros s Hs. exact Hs.
Qed.

(** X11.  [is_broken] always returns.  It returns [None] whenever every
    supplier edge reachable from the start is matched by a manager
    entry, and whenever it returns a station, some reachable supplier
    edge really is one-sided: it raises no false alarm. *)
Theorem is_broken_raises_no_false_alarm (g : store) (start : nat) :
  (exists r, is_broken g start = Some r) /\
  (link_consistent_from g start -> is_broken g start = Some None) /\
  (forall w, is_broken g start = Some (Some w) ->
     exists u v, reachable g start u /\ edge g u v /\ broken_link g u v = true).
Proof.
  split; [|split].
  - unfold is_broken.
    destruct (broken_visit_total g (depth_bound g) start [])
      as [r [m' [H _]]].
    + intros [].
    + constructor.
    + unfold depth_bound. simpl. lia.
    + rewrite H. eauto.
  - apply is_broken_sound.
  - intros w H. unfold is_broken in H.
    destruct (broken_visit (depth_bound g) g start []) as [[r m']|] eqn:E;
      [|discriminate].
    inversion H. subst r.
    apply (broken_visit_reports g start _ _ _ _ _ E). apply rt_refl.
Qed.

Lemma is_broken_raises_no_false_alarm_witness :
  is_broken Chain.graph Chain.Root = Some None.
Proof.
  apply (proj1 (proj2 (is_broken_raises_no_false_alarm Chain.graph Chain.Root))).
  apply chain_is_sound.
Defined.

(** X9.  On every graph that has no cycle reachable from the start and
    whose reachable supplier edges are all matched by manager entries,
    stage 1 of the driver (cycle check, broken-link check, depth walk)
    raises nothing and ends within the recursion budget. *)
Theorem validation_passes_on_sound_graphs (g : store) (start : nat) :
  acyclic_from g start -> link_consistent_from g start ->
  exists g', validate g start = Some (Ok g').
Proof. apply validate_sound_graph. Qed.

Lemma validation_passes_on_sound_graphs_witness :
  exists g', validate Chain.graph Chain.Root = Some (Ok g').
Proof.
  apply validation_passes_on_sound_graphs; apply chain_is_sound.
Defined.

(** ** [order_by_distance] *)

Lemma insert_by_depth_perm (g : store) (x : nat) (l : list nat) :
  Permutation (insert_by_depth g x l) (x :: l).
Proof.
  induction l as [|y l IH]; simpl; auto.
  destruct (WorkStation.depth (station g x) <=? WorkStation.depth (station g y)); auto.
  rewrite IH. apply perm_swap.
Qed.

Lemma insert_by_depth_sorted (g : store) (x : nat) (l : list nat) :
  StronglySorted (fun a b => depth_of g a <= depth_of g b) l ->
  StronglySorted (fun a b => depth_of g a <= depth_of g b) (insert_by_depth g x l).
Proof.
  induction l as [|y l IH]; intros HS; simpl.
  - repeat constructor.
  - inversion HS as [|? ? HS' Hy]. subst.
    destruct (Nat.leb_spec (WorkStation.depth (station g x))
                           (WorkStation.depth (station g y))) as [Hle|Hgt].
    + constructor; [assumption|]. constructor; [exact Hle|].
      eapply Forall_impl; [|exact Hy]. intros a Ha. unfold depth_of in *. lia.
    + constructor; [now apply IH|].
      apply (Permutation_Forall (Permutation_sym (insert_by_depth_perm g x l))).
      constructor; [unfold depth_of; lia|assumption].
Qed.

Lemma insert_by_depth_stable (g : store) (d x : nat) (l : list nat) :
  filter (fun i => depth_of g i =? d) (insert_by_depth g x l)
  = filter (fun i => depth_of g i =? d) (x :: l).
Proof.
  induction l as [|y l IH]; simpl; [reflexivity|].
  destruct (Nat.leb_spec (WorkStation.depth (station g x))
                         (WorkStation.depth (station g y))) as [Hle|Hgt].
  - reflexivity.
  - simpl. rewrite IH. simpl. unfold depth_of.
    destruct (Nat.eqb_spec (WorkStation.depth (station g x)) d);
      destruct (Nat.eqb_spec (WorkStation.depth (station g y)) d);
      try reflexivity. lia.
Qed.

(** X12.  [order_by_distance] returns its candidates rearranged by
    ascending depth, and candidates of equal depth keep the order they
    came in. *)
Theorem order_by_distance_sorts_stably (g : store) (candidates : list nat) :
  Permutation (order_by_distance g candidates) candidates /\
  StronglySorted (fun a b => depth_of g a <= depth_of g b)
                 (order_by_distance g candidates) /\
  forall d, filter (fun i => depth_of g i =? d) (order_by_distance g candidates)
            = filter (fun i => depth_of g i =? d) candidates.
Proof.
  unfold order_by_distance. induction candidates as [|x l [IH1 [IH2 IH3]]]; simpl.
  - repeat split; auto. constructor.
  - split; [|split].
    + rewrite insert_by_depth_perm. now constructor.
    + now apply insert_by_depth_sorted.
    + intros d. rewrite insert_by_depth_stable. simpl. now rewrite IH3.
Qed.

(** ** The visit log of the driver *)

Lemma build_pass_log (return_queue : list nat) :
  forall (g g' : store) (log log' : list nat),
    for_each
      (fun s current =>
         g1 <- WorkStation_build (fst s) current ;;
         Ok (g1, snd s ++ [current]))
      return_queue (g, log) = Ok (g', log') ->
    log' = log ++ return_queue.
Proof.
  induction return_queue as [|c rest IH]; intros g g' log log' H; simpl in H.
  - inversion H. now rewrite app_nil_r.
  - destruct (WorkStation_build g c) as [g1|e]; [|discriminate]. simpl in H.
    rewrite (IH _ _ _ _ H). now rewrite <- app_assoc.
Qed.

Lemma enqueue_suppliers (suppliers : list nat) :
  forall queue visited,
    NoDup visited ->
    let qv := fold_left
                (fun qv supplier =>
                   if negb (mem supplier (snd qv))
                   then (fst qv ++ [supplier], snd qv ++ [supplier])
                   else qv)
                suppliers (queue, visited) in
    NoDup (snd qv) /\ exists more, snd qv = visited ++ more.
Proof.
  induction suppliers as [|s rest IH]; intros queue visited ND; simpl.
  - split; [assumption|]. exists []. now rewrite app_nil_r.
  - destruct (mem s visited) eqn:Hm; simpl.
    + now apply IH.
    + destruct (IH (queue ++ [s]) (visited ++ [s])) as [H1 [more H2]].
      * apply mem_false in Hm. apply NoDup_app; auto.
        -- repeat constructor. intros [].
        -- intros x Hx [<-|[]]. contradiction.
      * split; [exact H1|]. exists (s :: more).
        now rewrite H2, <- app_assoc.
Qed.

Section VisitLog.
Context {names : SetIter string} {opts : SetIter (option string)}.

Lemma engage_pass_log (fuel : nat) :
  forall (g g' : store) (queue visited visited' : list nat),
    engage_pass fuel g queue visited = Some (Ok (g', visited')) ->
    NoDup visited ->
    NoDup visited' /\ exists more, visited' = visited ++ more.
Proof.
  induction fuel as [|fuel IH]; intros g g' queue visited visited' H ND.
  - destruct queue; simpl in H; [|discriminate].
    inversion H. subst. split; [assumption|]. exists []. now rewrite app_nil_r.
  - destruct queue as [|current queue]; simpl in H.
    + inversion H. subst. split; [assumption|]. exists []. now rewrite app_nil_r.
    + destruct (engage g current) as [g1|e]; [|discriminate].
      destruct (WorkStation.suppliers (station g1 current)) as [[|x l]|].
      * now apply (IH _ _ _ _ _ H).
      * destruct (validate_suppliers g1 current); [|discriminate].
        destruct (enqueue_suppliers (order_by_distance g1 (x :: l)) queue visited ND)
          as [E1 [more E2]].
        destruct (IH _ _ _ _ _ H E1) as [H1 [more' H2]].
        split; [exact H1|]. exists (more ++ more').
        now rewrite H2, E2, <- app_assoc.
      * now apply (IH _ _ _ _ _ H).
Qed.

(** X13.  When the driver succeeds, the sequence it returns is the
    engagement order followed by the same order reversed: every engaged
    station is built exactly once, the start first to be engaged and
    last to be built, and no station appears twice in the engagement
    order. *)
Theorem build_returns_order_and_its_reverse (g g' : store) (start_node : nat)
        (sequence : list nat) :
  build g start_node = Some (Ok (sequence, g')) ->
  exists order,
    sequence = (start_node :: order) ++ rev (start_node :: order) /\
    NoDup (start_node :: order).
Proof.
  unfold build. intros H.
  destruct (validate g start_node) as [[g1|e]|]; try discriminate.
  destruct (engage_pass (depth_bound g1) g1 [start_node] [start_node])
    as [[[g2 visited]|e]|] eqn:E; try discriminate.
  destruct (engage_pass_log _ _ _ _ _ _ E) as [ND [more Hm]].
  { repeat constructor. intros []. }
  simpl in Hm. subst visited.
  unfold build_pass in H.
  destruct (for_each _ (rev (start_node :: more)) (g2, [])) as [[g3 log]|e] eqn:EB;
    [|discriminate].
  apply build_pass_log in EB. simpl in EB. simpl in H.
  inversion H. subst. exists more. split; [reflexivity|exact ND].
Qed.

End VisitLog.

Lemma build_returns_order_and_its_reverse_witness :
  exists order,
    [Relay.Root; Relay.Mid; Relay.Leaf; Relay.Leaf; Relay.Mid; Relay.Root]
    = (Relay.Root :: order) ++ rev (Relay.Root :: order) /\
    NoDup (Relay.Root :: order).
Proof.
  apply (build_returns_order_and_its_reverse
           (names := names_by_insertion) (opts := options_by_insertion)
           Relay.graph
           (match build (names := names_by_insertion)
                        (opts := options_by_insertion) Relay.graph Relay.Root
            with Some (Ok (_, g')) => g' | _ => [] end)
           Relay.Root).
  vm_compute. reflexivity.
Defined.

(** ** The depths set by [build_graph_depth] *)

Lemma depth_of_put (s : store) (x u d : nat) :
  x < List.length s ->
  depth_of (put s x (WorkStation.set_depth (station s x) d)) u
  = if Nat.eqb u x then d else depth_of s u.
Proof.
  intros H. unfold depth_of. destruct (Nat.eqb_spec u x) as [->|Hne].
  - now rewrite station_put_same.
  - rewrite station_put_other by congruence. reflexivity.
Qed.

Section DepthWalk.
Variables (g : store) (start : nat).
Hypothesis Hacyclic : acyclic_from g start.
Hypothesis Hinside : forall u v, edge g u v -> v < List.length g.

Lemma supplier_off_stack (node x : nat) (stack : list nat) :
  reachable g start node ->
  (forall y, In y stack -> clos_trans nat (edge g) y node) ->
  edge g node x -> ~ In x (node :: stack).
Proof.
  intros HR HP HE [<-|Hin].
  - apply (Hacyclic node HR). now apply t_step.
  - apply (Hacyclic node HR).
    eapply t_trans; [apply t_step; exact HE|]. now apply HP.
Qed.

(** The walk of [build_graph_depth], whenever it returns: depths only
    grow, only below the node, and every station off the stack that has
    been given a depth is shallower than each of its suppliers. *)
Lemma build_graph_depth_settles (fuel : nat) :
  forall (node d : nat) (s s' : store * list nat) (stack : list nat),
    build_graph_depth fuel node d s = Some s' ->
    reachable g start node ->
    (forall y, In y stack -> clos_trans nat (edge g) y node) ->
    same_edges g (fst s) -> List.length (fst s) = List.length g ->
    (forall u, ~ In u stack -> u <> node -> 1 <= depth_of (fst s) u ->
               settled g (fst s) u) ->
    d <= depth_of (fst s) node ->
    (settled g (fst s) node \/ depth_of (fst s) node = d) ->
    same_edges g (fst s') /\ List.length (fst s') = List.length g /\
    (forall u, depth_of (fst s) u <= depth_of (fst s') u) /\
    (forall u, ~ clos_trans nat (edge g) node u ->
               depth_of (fst s') u = depth_of (fst s) u) /\
    settled g (fst s') node /\
    (forall u, ~ In u stack -> u <> node -> 1 <= depth_of (fst s') u ->
               settled g (fst s') u).
Proof.
  induction fuel as [|fuel IH];
    intros node d s s' stack H HR HP HE HL P4 P5 P5'; [discriminate|].
  cbn [build_graph_depth] in H.
  assert (Hself : ~ clos_trans nat (edge g) node node) by now apply Hacyclic.
  assert (Hloop : forall L s2 s3,
             depth_suppliers (build_graph_depth fuel) (d + 1) L s2 = Some s3 ->
             (forall x, In x L -> edge g node x) ->
             same_edges g (fst s2) -> List.length (fst s2) = List.length g ->
             (forall u, depth_of (fst s) u <= depth_of (fst s2) u) ->
             (forall u, ~ clos_trans nat (edge g) node u ->
                        depth_of (fst s2) u = depth_of (fst s) u) ->
             (forall u, ~ In u (node :: stack) -> 1 <= depth_of (fst s2) u ->
                        settled g (fst s2) u) ->
             same_edges g (fst s3) /\ List.length (fst s3) = List.length g /\
             (forall u, depth_of (fst s) u <= depth_of (fst s3) u) /\
             (forall u, ~ clos_trans nat (edge g) node u ->
                        depth_of (fst s3) u = depth_of (fst s) u) /\
             (forall u, ~ In u (node :: stack) -> 1 <= depth_of (fst s3) u ->
                        settled g (fst s3) u) /\
             (forall u, depth_of (fst s2) u <= depth_of (fst s3) u) /\
             (forall x, In x L -> d + 1 <= depth_of (fst s3) x)).
  { induction L as [|x rest IHL]; intros s2 s3 H2 HEd E2 L2 M2 U2 S2.
    - simpl in H2. inversion H2. subst. repeat split; auto. intros x [].
    - assert (Ex : edge g node x) by (apply HEd; now left).
      assert (Hx : x < List.length (fst s2)) by (rewrite L2; now apply (Hinside node)).
      assert (Hoff : ~ In x (node :: stack))
        by now apply (supplier_off_stack node x stack).
      cbn [depth_suppliers] in H2.
      set (g1 := if WorkStation.depth (station (fst s2) x) <? d + 1
                 then put (fst s2) x
                          (WorkStation.set_depth (station (fst s2) x) (d + 1))
                 else fst s2) in H2.
      assert (D1 : forall u, depth_of g1 u
                             = if Nat.eqb u x
                               then Nat.max (depth_of (fst s2) x) (d + 1)
                               else depth_of (fst s2) u).
      { intros u. unfold g1.
        destruct (Nat.ltb_spec (WorkStation.depth (station (fst s2) x)) (d + 1))
          as [Hlt|Hge].
        - rewrite depth_of_put by assumption.
          destruct (Nat.eqb_spec u x); [|reflexivity].
          unfold depth_of. lia.
        - destruct (Nat.eqb_spec u x) as [->|]; [|reflexivity].
          unfold depth_of. lia. }
      assert (E1 : same_edges g g1).
      { intros v. unfold g1.
        destruct (WorkStation.depth (station (fst s2) x) <? d + 1); auto.
        rewrite (station_put_field WorkStation.suppliers); auto. }
      assert (L1 : List.length g1 = List.length g).
      { unfold g1. destruct (WorkStation.depth (station (fst s2) x) <? d + 1);
          auto. now rewrite put_length. }
      assert (M1 : forall u, depth_of (fst s2) u <= depth_of g1 u).
      { intros u. rewrite D1. destruct (Nat.eqb_spec u x) as [->|]; lia. }
      destruct (build_graph_depth fuel x (d + 1) (g1, snd s2)) as [s4|] eqn:E4;
        [|discriminate].
      destruct (IH x (d + 1) (g1, snd s2) s4 (node :: stack) E4)
        as [E5 [L5 [M5 [U5 [Sx S5]]]]]; simpl; auto.
      + eapply rt_trans; [exact HR|now apply rt_step].
      + intros y [<-|Hy].
        * now apply t_step.
        * eapply t_trans; [now apply HP|now apply t_step].
      + intros u Hu Hne Hd. rewrite D1 in Hd.
        destruct (Nat.eqb_spec u x); [congruence|].
        intros v Ev. rewrite (D1 u).
        destruct (Nat.eqb_spec u x); [congruence|].
        specialize (S2 u Hu Hd v Ev). specialize (M1 v). lia.
      + rewrite D1, Nat.eqb_refl. lia.
      + destruct (Nat.ltb_spec (depth_of (fst s2) x) (d + 1)) as [Hlt|Hge].
        * right. rewrite D1, Nat.eqb_refl. lia.
        * left. intros v Ev. rewrite (D1 x), Nat.eqb_refl.
          assert (Hs : settled g (fst s2) x) by (apply S2; [assumption|lia]).
          specialize (Hs v Ev). specialize (M1 v). lia.
      + simpl in *.
        destruct (IHL s4 s3 H2) as [E6 [L6 [M6 [U6 [S6 [M7 D7]]]]]]; auto.
        * intros u. specialize (M2 u). specialize (M1 u). specialize (M5 u). lia.
        * intros u Hu. rewrite U5.
          -- rewrite D1. destruct (Nat.eqb_spec u x) as [->|]; [|now apply U2].
             exfalso. apply Hu. now apply t_step.
          -- intros Hc. apply Hu.
             eapply t_trans; [apply t_step; exact Ex|exact Hc].
        * intros u Hu Hd. destruct (Nat.eq_dec u x) as [->|Hne]; [exact Sx|].
          now apply S5.
        * repeat split; auto.
          -- intros u. specialize (M1 u). specialize (M5 u). specialize (M7 u). lia.
          -- intros y [<-|Hy]; [|now apply D7].
             specialize (M5 x). specialize (M7 x). rewrite D1, Nat.eqb_refl in M5.
             lia. }
  rewrite HE in H. simpl fst in H.
  destruct (WorkStation.suppliers (station g node)) as [[|x l]|] eqn:ES.
  - inversion H. subst. simpl. repeat split; auto.
    intros v Ev. unfold edge in Ev. rewrite ES in Ev. destruct Ev.
  - destruct (Hloop (x :: l) (fst s, snd s ++ [node]) s' H)
      as [E6 [L6 [M6 [U6 [S6 [_ D7]]]]]]; simpl; auto.
    + intros y Hy. unfold edge. now rewrite ES.
    + repeat split; auto.
      * intros v Ev. rewrite (U6 node Hself).
        assert (Hv : In v (x :: l)) by (unfold edge in Ev; now rewrite ES in Ev).
        specialize (D7 v Hv). destruct P5' as [Hs|Heq].
        -- specialize (Hs v Ev). specialize (M6 v). lia.
        -- lia.
      * intros u Hu Hne Hd. apply S6; auto. intros [<-|Hin]; auto.
  - inversion H. subst. simpl. repeat split; auto.
    intros v Ev. unfold edge in Ev. rewrite ES in Ev. destruct Ev.
Qed.

End DepthWalk.

(** When stage 1 passes, the store it returns is the one the depth walk
    leaves. *)
Lemma validate_Ok_depth_walk (g g' : store) (start : nat) :
  validate g start = Some (Ok g') ->
  exists s, build_graph_depth (depth_bound g) start 0 (g, []) = Some s /\
            fst s = g'.
Proof.
  unfold validate. intros HV.
  destruct (is_cyclic g start) as [[| |w]|]; try discriminate;
    destruct (is_broken g start) as [[w'|]|]; try discriminate;
    destruct (build_graph_depth (depth_bound g) start 0 (g, [])) as [s|];
    try discriminate; inversion HV; eauto.
Qed.

(** X14.  After stage 1 on a graph whose stations all start at depth 0
    and that has no cycle reachable from the start, every station
    reachable from the start is strictly shallower than each of its
    suppliers, and the start keeps depth 0: sorting suppliers by depth
    never puts a station before one it supplies. *)
Theorem depths_grow_along_supplier_edges (g g' : store) (start : nat) :
  acyclic_from g start ->
  (forall u v, edge g u v -> v < List.length g) ->
  (forall v, depth_of g v = 0) ->
  validate g start = Some (Ok g') ->
  depth_of g' start = 0 /\
  forall u v, reachable g start u -> edge g u v -> depth_of g' u < depth_of g' v.
Proof.
  intros Hac Hin H0 HV.
  destruct (validate_Ok_depth_walk g g' start HV) as [s [E <-]].
  destruct (build_graph_depth_settles g start Hac Hin _ _ _ _ _ [] E)
    as [_ [_ [M [U [S0 S1]]]]]; simpl.
  - apply rt_refl.
  - intros y [].
  - intros v. reflexivity.
  - reflexivity.
  - intros u _ _ Hd. rewrite H0 in Hd. lia.
  - rewrite H0. lia.
  - right. apply H0.
  - simpl in *.
    assert (Hstart : depth_of (fst s) start = 0).
    { rewrite U; [apply H0|]. apply Hac, rt_refl. }
    assert (Hsettled : forall u, u = start \/ 1 <= depth_of (fst s) u ->
                                 settled g (fst s) u).
    { intros u [->|Hd]; [exact S0|].
      destruct (Nat.eq_dec u start) as [->|Hne]; [exact S0|].
      apply S1; auto. }
    assert (Hdeep : forall u, reachable g start u ->
                              u = start \/ 1 <= depth_of (fst s) u).
    { intros u Hu. apply clos_rt_rtn1 in Hu.
      induction Hu as [|w u Ewu Hw IH]; [now left|right].
      specialize (Hsettled w IH u Ewu). lia. }
    split; [exact Hstart|]. intros u v Hu Ev.
    specialize (Hsettled u (Hdeep u Hu) v Ev). lia.
Qed.

Lemma chain_depths_start_at_0 (v : nat) : depth_of Chain.graph v = 0.
Proof.
  unfold depth_of, station.
  destruct v as [|[|[|[|v]]]]; try reflexivity. destruct v; reflexivity.
Qed.

Lemma depths_grow_along_supplier_edges_witness :
  depth_of Chain.validated Chain.Root = 0 /\
  forall u v, reachable Chain.graph Chain.Root u -> edge Chain.graph u v ->
              depth_of Chain.validated u < depth_of Chain.validated v.
Proof.
  apply (depths_grow_along_supplier_edges Chain.graph Chain.validated Chain.Root).
  - apply chain_is_sound.
  - intros u v E. apply chain_edges in E.
    destruct E as [[-> ->]|[-> ->]]; simpl;
      unfold Chain.Mid, Chain.Leaf; lia.
  - apply chain_depths_start_at_0.
  - reflexivity.
Defined.

(** ** ChunkWriter *)

Section ChunkWriterFacts.
Context {Line : Type}.
Implicit Types (s : @ChunkWriter.t Line * list (nat * Line)) (all : list Line).

Lemma combine_seq_app (a b : list Line) (i : nat) :
  combine (seq i (List.length a)) a
  ++ combine (seq (i + List.length a) (List.length b)) b
  = combine (seq i (List.length (a ++ b))) (a ++ b).
Proof.
  revert i. induction a as [|x a IH]; intros i; simpl.
  - now rewrite Nat.add_0_r.
  - f_equal. rewrite <- IH. do 2 f_equal. f_equal. lia.
Qed.

Lemma write_holds s all :
  holds s all ->
  let s' := ChunkWriter.write s in
  ChunkWriter.chunk (fst s') = [] /\
  ChunkWriter.idx (fst s') = List.length all /\
  snd s' = combine (seq 0 (List.length all)) all /\
  ChunkWriter.chunksize (fst s') = ChunkWriter.chunksize (fst s).
Proof.
  intros [H1 [H2 H3]]. unfold ChunkWriter.write, ChunkWriter.frame.
  assert (HL : ChunkWriter.idx (fst s) + List.length (ChunkWriter.chunk (fst s))
               = List.length all).
  { rewrite H2, length_skipn. lia. }
  destruct (Nat.eqb_spec (ChunkWriter.idx (fst s)) 0) as [E|E]; simpl.
  - repeat split; auto.
    rewrite <- HL, H2, E. reflexivity.
  - repeat split; auto.
    pose proof (combine_seq_app (firstn (ChunkWriter.idx (fst s)) all)
                                (skipn (ChunkWriter.idx (fst s)) all) 0) as C.
    rewrite firstn_skipn, length_firstn, Nat.min_l in C by assumption.
    simpl in C. rewrite (H3 E), H2. exact C.
Qed.

Lemma add_holds (lines : list Line) s all :
  holds s all -> holds (ChunkWriter.add lines s) (all ++ lines).
Proof.
  intros H. pose proof H as [H1 [H2 H3]]. unfold ChunkWriter.add.
  set (self := ChunkWriter.Writer (ChunkWriter.chunksize (fst s))
                                  (ChunkWriter.chunk (fst s) ++ lines)
                                  (ChunkWriter.idx (fst s))).
  assert (HS : holds (self, snd s) (all ++ lines)).
  { unfold holds. simpl. rewrite length_app. split; [lia|]. split.
    - rewrite skipn_app, H2.
      replace (ChunkWriter.idx (fst s) - List.length all) with 0 by lia.
      reflexivity.
    - intros E. rewrite (H3 E), firstn_app.
      replace (ChunkWriter.idx (fst s) - List.length all) with 0 by lia.
      simpl. now rewrite app_nil_r. }
  destruct (ChunkWriter.chunksize self <? List.length (ChunkWriter.chunk self));
    [|exact HS].
  destruct (write_holds _ _ HS) as [W1 [W2 [W3 _]]].
  unfold holds. rewrite W1, W2, W3. split; [lia|]. split.
  - now rewrite skipn_all.
  - intros _. now rewrite firstn_all.
Qed.

Lemma add_bounds_chunk (lines : list Line) s :
  List.length (ChunkWriter.chunk (fst (ChunkWriter.add lines s)))
  <= ChunkWriter.chunksize (fst (ChunkWriter.add lines s)) /\
  ChunkWriter.chunksize (fst (ChunkWriter.add lines s))
  = ChunkWriter.chunksize (fst s).
Proof.
  unfold ChunkWriter.add. simpl.
  destruct (Nat.ltb_spec (ChunkWriter.chunksize (fst s))
                         (List.length (ChunkWriter.chunk (fst s) ++ lines)))
    as [Hlt|Hge].
  - unfold ChunkWriter.write. simpl.
    destruct (ChunkWriter.idx (fst s) =? 0); simpl; split; auto; lia.
  - simpl. split; auto.
Qed.

Lemma adds_hold (batches : list (list Line)) s all :
  holds s all ->
  holds (fold_left (fun s lines => ChunkWriter.add lines s) batches s)
        (all ++ List.concat batches).
Proof.
  revert s all. induction batches as [|b rest IH]; intros s all H; simpl.
  - now rewrite app_nil_r.
  - rewrite app_assoc. apply IH. now apply add_holds.
Qed.

(** X15.  A run of the [ChunkWriter] loses, repeats and reorders
    nothing: whatever the chunk size, the batches and the file found at
    the path, after [finish] the file holds exactly the lines added, in
    the order they were added, indexed from 0, and the chunk is empty.
    Between two calls the chunk never holds more than [chunksize]
    lines. *)
Theorem ChunkWriter_writes_every_line_once
        (chunksize : nat) (batches : list (list Line)) (file : list (nat * Line)) :
  snd (ChunkWriter.run chunksize batches file)
  = combine (seq 0 (List.length (List.concat batches))) (List.concat batches) /\
  ChunkWriter.chunk (fst (ChunkWriter.run chunksize batches file)) = [] /\
  ChunkWriter.idx (fst (ChunkWriter.run chunksize batches file))
  = List.length (List.concat batches) /\
  forall lines s,
    List.length (ChunkWriter.chunk (fst (ChunkWriter.add lines s)))
    <= ChunkWriter.chunksize (fst s).
Proof.
  unfold ChunkWriter.run, ChunkWriter.finish.
  assert (H0 : holds (ChunkWriter.__init__ chunksize, file) []).
  { unfold holds. simpl. repeat split; auto. congruence. }
  pose proof (adds_hold batches _ _ H0) as H. simpl in H.
  destruct (write_holds _ _ H) as [W1 [W2 [W3 _]]].
  repeat split; auto.
  intros lines s. destruct (add_bounds_chunk lines s) as [B1 B2]. lia.
Qed.

End ChunkWriterFacts.

(** ** [load_all_tools] *)

Lemma load_tools_keys (tools : dict Tool.class) :
  forall (o : option string) (resources res : dict Tool.t),
    load_tools tools o resources = Loaded res ->
    forall k, In k (dict_keys res)
              <-> In k (dict_keys resources) \/ In k (dict_keys tools).
Proof.
  induction tools as [|[name tool] rest IH]; intros o resources res H k;
    simpl in H.
  - inversion H. subst. simpl. tauto.
  - destruct (match o, Tool.valid_options tool with
              | None, Some [] => None
              | None, Some (first :: _) => Some first
              | _, _ => Some o
              end) as [o'|]; [|discriminate].
    destruct (Tool.__init__ tool o') as [inst|e]; [|discriminate].
    rewrite (IH _ _ _ H k), dict_keys_set_In. simpl. intuition congruence.
Qed.

Lemma Tool_init_Ok (c : Tool.class) (o : option string) (inst : Tool.t) :
  Tool.__init__ c o = Ok inst -> inst = Tool.Inst c o [].
Proof.
  unfold Tool.__init__. destruct (Tool._validate_option c o) as [o'|e] eqn:E;
    simpl; [|discriminate].
  intros H. inversion H. f_equal.
  unfold Tool._validate_option in E.
  destruct (match Tool.valid_options c with
            | Some ((_ :: _) as l) =>
                if negb (Tool.option_in o l)
                then Raise (UnsupportedOption o) else Ok tt
            | _ => Ok tt
            end); simpl in E; [|discriminate].
  destruct (match Tool.invalid_options c with
            | Some ((_ :: _) as l) =>
                if Tool.option_in o l
                then Raise (InvalidOption o) else Ok tt
            | _ => Ok tt
            end); simpl in E; congruence.
Qed.

Lemma carried_tail o name tool rest :
  carried o ((name, tool) :: rest) -> carried o rest.
Proof. intros H E n c Hin. apply (H E n c). now right. Qed.

Lemma carried_pick o name tool rest :
  carried o ((name, tool) :: rest) ->
  match o, Tool.valid_options tool with
  | None, Some [] => None
  | None, Some (first :: _) => Some first
  | _, _ => Some o
  end = Some o.
Proof.
  intros H. destruct o as [o|]; [reflexivity|].
  rewrite (H eq_refl name tool) by now left. reflexivity.
Qed.

(** With a carried option the loop never meets [valid_options[0]]; if
    every constructor accepts the option it loads every tool. *)
Lemma load_tools_carried_loads (tools : dict Tool.class) (o : option string) :
  forall resources,
    carried o tools ->
    (forall name cls, In (name, cls) tools ->
                      Tool.__init__ cls o = Ok (Tool.Inst cls o [])) ->
    exists res, load_tools tools o resources = Loaded res.
Proof.
  induction tools as [|[name tool] rest IH]; intros resources HC HA; simpl.
  - eauto.
  - rewrite (carried_pick _ _ _ _ HC), (HA name tool) by now left.
    apply IH; [exact (carried_tail _ _ _ _ HC)|].
    intros n c Hin. apply (HA n c). now right.
Qed.

(** What a loop with a carried option has done when it ends: it has
    written the registry's names only, and each with an instance of
    its class with the carried option. *)
Lemma load_tools_carried (tools : dict Tool.class) (o : option string) :
  forall (resources res : dict Tool.t),
    NoDup (dict_keys tools) ->
    carried o tools ->
    load_tools tools o resources = Loaded res ->
    (forall k, ~ In k (dict_keys tools) -> dict_get res k = dict_get resources k) /\
    (forall name cls, In (name, cls) tools ->
       Tool.__init__ cls o = Ok (Tool.Inst cls o []) /\
       dict_get res name = Some (Tool.Inst cls o [])).
Proof.
  induction tools as [|[name tool] rest IH]; intros resources res ND HC H;
    simpl in H.
  - inversion H. subst. split; [reflexivity|]. intros name cls [].
  - inversion ND as [|? ? Hn ND']. subst.
    rewrite (carried_pick _ _ _ _ HC) in H.
    destruct (Tool.__init__ tool o) as [inst|e] eqn:EI; [|discriminate].
    pose proof (Tool_init_Ok _ _ _ EI) as Ei. subst inst.
    destruct (IH _ _ ND' (carried_tail _ _ _ _ HC) H) as [H1 H2]. split.
    + intros k Hk. simpl in Hk. rewrite H1 by tauto.
      rewrite dict_get_set. destruct (String.eqb_spec name k); [|reflexivity].
      subst. exfalso. apply Hk. now left.
    + intros n cls [E|Hin].
      * inversion E. subst. split; [exact EI|].
        rewrite (H1 n Hn), dict_get_set. now rewrite String.eqb_refl.
      * now apply H2.
Qed.

Lemma load_tools_carried_no_IndexError (tools : dict Tool.class) (o : option string) :
  forall resources, carried o tools -> load_tools tools o resources <> IndexError.
Proof.
  induction tools as [|[name tool] rest IH]; intros resources HC; simpl.
  - discriminate.
  - rewrite (carried_pick _ _ _ _ HC).
    destruct (Tool.__init__ tool o); [|discriminate].
    apply IH. exact (carried_tail _ _ _ _ HC).
Qed.

Lemma load_tools_app (pre post : dict Tool.class) (o : option string) :
  forall resources,
    carried o pre ->
    load_tools (pre ++ post) o resources
    = match load_tools pre o resources with
      | Loaded r1 => load_tools post o r1
      | r => r
      end.
Proof.
  induction pre as [|[name tool] rest IH]; intros resources HC; simpl.
  - reflexivity.
  - rewrite (carried_pick _ _ _ _ HC).
    destruct (Tool.__init__ tool o); [|reflexivity].
    apply IH. exact (carried_tail _ _ _ _ HC).
Qed.

Lemma carried_given (o : string) (tools : dict Tool.class) :
  carried (Some o) tools.
Proof. intros E. discriminate. Qed.

(** X16.  [load_all_tools] with an option given never reaches
    [valid_options[0]], and it succeeds exactly when the constructor of
    every tool of the registry accepts the option.  When it succeeds
    the resources have the keys they had and the names of the registry,
    every tool of the registry is held under its name as a fresh
    instance with that option, and the resources under other keys are
    as they were.  (The names of the registry, the keys of a dict, are
    distinct.) *)
Theorem load_all_tools_with_option (self : WorkStation.t) (o : string) :
  NoDup (dict_keys (WorkStation.tools self)) ->
  load_all_tools self (Some o) <> IndexError /\
  ((exists res, load_all_tools self (Some o) = Loaded res) <->
   (forall name cls, In (name, cls) (WorkStation.tools self) ->
      Tool.__init__ cls (Some o) = Ok (Tool.Inst cls (Some o) []))) /\
  (forall res, load_all_tools self (Some o) = Loaded res ->
     (forall k, In k (dict_keys res)
                <-> In k (dict_keys (WorkStation.resources self))
                    \/ In k (dict_keys (WorkStation.tools self))) /\
     (forall name cls, In (name, cls) (WorkStation.tools self) ->
        dict_get res name = Some (Tool.Inst cls (Some o) [])) /\
     (forall k, ~ In k (dict_keys (WorkStation.tools self)) ->
        dict_get res k = dict_get (WorkStation.resources self) k)).
Proof.
  intros ND. unfold load_all_tools. split; [|split].
  - apply load_tools_carried_no_IndexError, carried_given.
  - split.
    + intros [res H] name cls Hin.
      destruct (load_tools_carried _ _ _ _ ND (carried_given o _) H) as [_ H2].
      now apply (H2 name cls).
    + apply load_tools_carried_loads, carried_given.
  - intros res H.
    destruct (load_tools_carried _ _ _ _ ND (carried_given o _) H) as [H1 H2].
    split; [|split].
    + now apply (load_tools_keys _ _ _ _ H).
    + intros name cls Hin. now apply H2.
    + exact H1.
Qed.

Lemma load_all_tools_with_option_witness :
  load_all_tools (WorkStation.__init__ [("csv", Chain.csv); ("raw", Chain.raw)])
                 (Some "car")
  <> IndexError.
Proof.
  apply (load_all_tools_with_option
           (WorkStation.__init__ [("csv", Chain.csv); ("raw", Chain.raw)]) "car").
  simpl. repeat constructor; simpl; intuition discriminate.
Defined.

(** X17.  [load_all_tools] without an option takes the first allowed
    option of the first tool that has an allow-list and keeps it for
    every tool after it, whatever their own allow-lists begin with: when
    the call succeeds, the tools before that one are held with no
    option, that tool and all later ones with its first allowed option,
    which the constructor of each later tool has accepted. *)
Theorem load_all_tools_default_option_sticks
        (self : WorkStation.t) (pre post : dict Tool.class)
        (name : string) (cls : Tool.class) (v : string)
        (vs : list (option string)) (res : dict Tool.t) :
  WorkStation.tools self = pre ++ (name, cls) :: post ->
  NoDup (dict_keys (WorkStation.tools self)) ->
  (forall n c, In (n, c) pre -> Tool.valid_options c = None) ->
  Tool.valid_options cls = Some (Some v :: vs) ->
  load_all_tools self None = Loaded res ->
  (forall n c, In (n, c) pre -> dict_get res n = Some (Tool.Inst c None [])) /\
  dict_get res name = Some (Tool.Inst cls (Some v) []) /\
  (forall n c, In (n, c) post ->
     Tool.__init__ c (Some v) = Ok (Tool.Inst c (Some v) []) /\
     dict_get res n = Some (Tool.Inst c (Some v) [])).
Proof.
  intros HT ND Hpre Hcls H. unfold load_all_tools in H. rewrite HT in *.
  assert (HC : carried None pre) by (intros _; exact Hpre).
  rewrite (load_tools_app _ _ _ _ HC) in H.
  unfold dict_keys in ND. rewrite map_app in ND. simpl in ND.
  pose proof (NoDup_remove_1 _ _ _ ND) as ND1.
  pose proof (NoDup_remove_2 _ _ _ ND) as Hname.
  pose proof (NoDup_app_remove_r _ _ ND1) as NDpre.
  pose proof (NoDup_app_remove_l _ _ ND1) as NDpost.
  assert (Hdisj : forall k, In k (map fst pre) -> ~ In k (map fst post)).
  { intros k Hk Hk'. clear - ND1 Hk Hk'.
    induction pre as [|[k0 c0] pre IH]; simpl in *; [easy|].
    inversion ND1 as [|? ? Hn ND2]. subst. destruct Hk as [<-|Hk].
    - apply Hn, in_or_app. now right.
    - now apply IH. }
  destruct (load_tools pre None (WorkStation.resources self)) as [r1| |] eqn:E1;
    try discriminate.
  destruct (load_tools_carried _ _ _ _ NDpre HC E1) as [A1 A2].
  cbn [load_tools] in H. rewrite Hcls in H.
  destruct (Tool.__init__ cls (Some v)) as [inst|e] eqn:EI; [|discriminate].
  pose proof (Tool_init_Ok _ _ _ EI) as Ei. subst inst.
  destruct (load_tools_carried _ _ _ _ NDpost (carried_given v _) H) as [B1 B2].
  split; [|split].
  - intros n c Hin.
    assert (Hn : In n (map fst pre)) by (apply (in_map fst) in Hin; exact Hin).
    rewrite B1 by now apply Hdisj.
    rewrite dict_get_set.
    destruct (String.eqb_spec name n) as [->|_].
    + exfalso. apply Hname, in_or_app. now left.
    + now apply A2.
  - rewrite B1.
    + now rewrite dict_get_set, String.eqb_refl.
    + intros Hin. apply Hname, in_or_app. now right.
  - intros n c Hin. now apply B2.
Qed.

Lemma load_all_tools_default_option_sticks_witness :
  exists res,
    load_all_tools
      (WorkStation.__init__
         [("raw", Chain.raw);
          ("csv", Tool.Class ["raw"] true (Some [Some "car"; Some "bus"]) None);
          ("log", Tool.Class [] true (Some [Some "bus"; Some "car"]) None)])
      None = Loaded res /\
    dict_get res "log"
    = Some (Tool.Inst (Tool.Class [] true (Some [Some "bus"; Some "car"]) None)
                      (Some "car") []).
Proof.
  eexists. split; [reflexivity|].
  apply (load_all_tools_default_option_sticks
           (WorkStation.__init__
              [("raw", Chain.raw);
               ("csv", Tool.Class ["raw"] true (Some [Some "car"; Some "bus"]) None);
               ("log", Tool.Class [] true (Some [Some "bus"; Some "car"]) None)])
           [("raw", Chain.raw)]
           [("log", Tool.Class [] true (Some [Some "bus"; Some "car"]) None)]
           "csv" (Tool.Class ["raw"] true (Some [Some "car"; Some "bus"]) None)
           "car" [Some "bus"] _ eq_refl).
  - simpl. repeat constructor; simpl; intuition discriminate.
  - intros n c [E|[]]. inversion E. reflexivity.
  - reflexivity.
  - reflexivity.
  - now left.
Defined.

(** X18.  [load_all_tools] without an option fails with an
    [IndexError] at the first tool whose allow-list is the empty list,
    when the tools before it have no allow-list and accept no option:
    an empty allow-list, which the constructor reads as no restriction,
    is not one [load_all_tools] can take its default from. *)
Theorem load_all_tools_empty_allow_list
        (self : WorkStation.t) (pre post : dict Tool.class)
        (name : string) (cls : Tool.class) :
  WorkStation.tools self = pre ++ (name, cls) :: post ->
  (forall n c, In (n, c) pre ->
     Tool.valid_options c = None /\
     Tool.__init__ c None = Ok (Tool.Inst c None [])) ->
  Tool.valid_options cls = Some [] ->
  load_all_tools self None = IndexError /\
  Tool.__init__ cls None
  = (if match Tool.invalid_options cls with
        | Some l => Tool.option_in None l
        | None => false
        end
     then Raise (InvalidOption None) else Ok (Tool.Inst cls None [])).
Proof.
  intros HT Hpre Hcls. split.
  - unfold load_all_tools. rewrite HT.
    assert (HC : carried None pre)
      by (intros _ n c Hin; exact (proj1 (Hpre n c Hin))).
    rewrite (load_tools_app _ _ _ _ HC).
    destruct (load_tools_carried_loads pre None (WorkStation.resources self) HC)
      as [r1 E1].
    { intros n c Hin. exact (proj2 (Hpre n c Hin)). }
    rewrite E1. cbn [load_tools]. now rewrite Hcls.
  - unfold Tool.__init__, Tool._validate_option. rewrite Hcls. simpl.
    destruct (Tool.invalid_options cls) as [[|d ds]|]; try reflexivity.
    destruct (Tool.option_in None (d :: ds)); reflexivity.
Qed.

Lemma load_all_tools_empty_allow_list_witness :
  load_all_tools
    (WorkStation.__init__
       [("raw", Chain.raw); ("csv", Tool.Class ["raw"] true (Some []) None)])
    None
  = IndexError.
Proof.
  apply (load_all_tools_empty_allow_list
           (WorkStation.__init__
              [("raw", Chain.raw); ("csv", Tool.Class ["raw"] true (Some []) None)])
           [("raw", Chain.raw)] [] "csv"
           (Tool.Class ["raw"] true (Some []) None) eq_refl).
  - intros n c [E|[]]. inversion E. split; reflexivity.
  - reflexivity.
Defined.
